(** * Depth processor (src/depth-processor.js): a shallow embedding

    The class [DepthProcessor] turns a stereo pair into a disparity map
    (block matching, median filter, Gaussian blur, min-max normalisation)
    and has a single-image fallback (Sobel edges plus a radial prior).

    Number model.  Typed arrays are lists.  [Uint8Array] and the RGBA
    samples of an [ImageData] hold integers ([Z]).  The block matcher only
    ever stores integers (a disparity [d]), so it is embedded over [Z] and
    is executable; a [Float32Array] holds an integer as it is up to
    [2 ^ 24] ([float32Exact]), and the statements about stored disparities
    carry that bound.  The other contents of a [Float32Array] and the
    JavaScript numbers computed from them are modelled by real numbers
    ([R]): an idealisation that leaves out the rounding of doubles and of
    32-bit floats, used for what does not depend on a rounding (lengths,
    ranges with slack, monotonicity, constant fields).  The bytes the
    normaliser stores do depend on it, so this stage is embedded a second
    time in double precision ([normalizeArray64], over the binary64 of
    [SpecFloat]), and its claim is stated there.  [NaN] appears in the
    source only as the result of reading a typed array past its end
    ([undefined]); it is modelled where it arises: as [None] inside the
    block matcher, as value 0 when stored into a [Uint8Array], and as the
    abnormal result [NotANumber] of a stage that would store it into a
    [Float32Array]. *)

From Stdlib Require Import ZArith Reals Lra Lia Psatz Zfloor SpecFloat.
From stdpp Require Import base numbers option sorting list.

Local Open Scope Z_scope.

(** ** Loops and typed arrays *)

(** [range lo hi]: the values taken by [i] in
    [for (let i = lo; i < hi; i++)]. *)
Definition range (lo hi : Z) : list Z := seqZ lo (hi - lo).

(** [for (let i = lo; i < hi; i++) s = body i s]. *)
Definition for_ {T : Type} (lo hi : Z) (body : Z → T → T) (s : T) : T :=
  foldl (λ s i, body i s) s (range lo hi).

(** [new Float32Array(n)] / [new Uint8Array(n)]: [n] zeros.  For a
    negative [n] the constructor raises a [RangeError]; the lengths of
    the source are products of the two dimensions of an image, so this
    does not arise on an image, and the model has the empty array there.
    A theorem that speaks of every width and height assumes that they are
    not negative. *)
Definition alloc {A : Type} (zero : A) (n : Z) : list A :=
  replicate (Z.to_nat n) zero.

(** [a[i]] as an rvalue: [None] is JavaScript's [undefined]. *)
Definition get {A : Type} (a : list A) (i : Z) : option A :=
  if decide (0 ≤ i) then a !! Z.to_nat i else None.

(** [a[i] = v] on a typed array: a write outside the buffer is ignored. *)
Definition put {A : Type} (a : list A) (i : Z) (v : A) : list A :=
  if decide (0 ≤ i) then <[Z.to_nat i := v]> a else a.

(** ** Block matching (blockMatch, lines 110-145) *)

(** [minSAD] starts at [Infinity] and then holds a sum. *)
Inductive cost : Type :=
  | Infinity
  | Finite (s : Z).

(** The index pairs [(leftIdx, rightIdx)] read by the two inner loops
    ([by] outside, [bx] inside) for the candidate [d] at pixel [(x, y)]. *)
Definition window (halfBlock width x y d : Z) : list (Z * Z) :=
  by_ ← range (- halfBlock) (halfBlock + 1);
  bx ← range (- halfBlock) (halfBlock + 1);
  [((y + by_) * width + (x + bx), (y + by_) * width + (x + bx - d))].

(** [sad += Math.abs(left[leftIdx] - right[rightIdx])]; [None] is NaN,
    which an [undefined] operand produces and which then sticks. *)
Definition sad_add (left right : list Z) (sad : option Z) (idx : Z * Z)
  : option Z :=
  s ← sad; l ← get left idx.1; r ← get right idx.2; Some (s + Z.abs (l - r)).

Definition sadAt (left right : list Z) (halfBlock width x y d : Z)
  : option Z :=
  foldl (sad_add left right) (Some 0) (window halfBlock width x y d).

(** [if (sad < minSAD) { minSAD = sad; bestDisparity = d; }]: a comparison
    with NaN is false, every number is below [Infinity]. *)
Definition better (d : Z) (sad : option Z) (st : Z * cost) : Z * cost :=
  match sad, st.2 with
  | Some s, Infinity => (d, Finite s)
  | Some s, Finite m => if decide (s < m) then (d, Finite s) else st
  | None, _ => st
  end.

(** The loop over [d], from [bestDisparity = 0], [minSAD = Infinity]. *)
Definition search (left right : list Z) (halfBlock width x y maxD : Z)
  : Z * cost :=
  for_ 0 (maxD + 1)
    (λ d st, better d (sadAt left right halfBlock width x y d) st)
    (0, Infinity).

(** [disparity] is a [Float32Array] (lines 111 and 140).  What is
    written into it is an integer between 0 and [maxD]; a [Float32Array]
    holds every integer up to [2 ^ 24] unchanged, and only larger ones are
    rounded.  The list of this model is that array as long as the
    disparities stay within that bound, which the theorems about the
    disparities found assume and state ([float32Exact]). *)
Definition blockMatch (left right : list Z)
    (width height blockSize maxDisparity : Z) : list Z :=
  let disparity := alloc 0 (width * height) in
  let halfBlock := blockSize / 2 in
  for_ halfBlock (height - halfBlock) (λ y disparity,
    for_ halfBlock (width - halfBlock) (λ x disparity,
      let maxD := Z.min maxDisparity (x - halfBlock) in
      let bestDisparity := (search left right halfBlock width x y maxD).1 in
      put disparity (y * width + x) bestDisparity) disparity) disparity.

(** *** The same run with a log of its reads *)

(** One execution of line 130: the loop variables, and the two indices
    computed in lines 128 and 129. *)
Record Read : Type := mkRead {
  pixelX : Z;
  pixelY : Z;
  candidate : Z;
  offsetY : Z;
  offsetX : Z;
  leftIdx : Z;
  rightIdx : Z
}.

(** The loops over [by] and [bx] for the candidate [d]; every turn adds
    its reads to the log. *)
Definition sadAtLogged (left right : list Z) (halfBlock width x y d : Z)
    (log : list Read) : option Z * list Read :=
  for_ (- halfBlock) (halfBlock + 1) (λ by_ st,
    for_ (- halfBlock) (halfBlock + 1) (λ bx '(sad, log),
      let leftIdx := (y + by_) * width + (x + bx) in
      let rightIdx := (y + by_) * width + (x + bx - d) in
      (sad_add left right sad (leftIdx, rightIdx),
       log ++ [mkRead x y d by_ bx leftIdx rightIdx])) st) (Some 0, log).

Definition searchLogged (left right : list Z) (halfBlock width x y maxD : Z)
    (log : list Read) : (Z * cost) * list Read :=
  for_ 0 (maxD + 1) (λ d '(st, log),
    let '(sad, log) := sadAtLogged left right halfBlock width x y d log in
    (better d sad st, log)) ((0, Infinity), log).

Definition blockMatchLogged (left right : list Z)
    (width height blockSize maxDisparity : Z) : list Z * list Read :=
  let disparity := alloc 0 (width * height) in
  let halfBlock := blockSize / 2 in
  for_ halfBlock (height - halfBlock) (λ y st,
    for_ halfBlock (width - halfBlock) (λ x '(disparity, log),
      let maxD := Z.min maxDisparity (x - halfBlock) in
      let '(best, log) :=
        searchLogged left right halfBlock width x y maxD log in
      (put disparity (y * width + x) best.1, log)) st) (disparity, []).

(** ** Abnormal results *)

(** The source contains no [throw].  [InvalidConfig] and [InvalidInput]
    are the two errors named by the specification; [NotANumber] marks a
    stage that would store NaN into a [Float32Array], which the real
    numbers of this model cannot represent. *)
Inductive abnormal : Type :=
  | InvalidConfig
  | InvalidInput
  | NotANumber.

Inductive outcome (A : Type) : Type :=
  | Ok (a : A)
  | Abort (e : abnormal).
Arguments Ok {A} a.
Arguments Abort {A} e.

#[global] Instance outcome_ret : MRet outcome := λ A a, Ok a.
#[global] Instance outcome_bind : MBind outcome := λ A B f m,
  match m with
  | Ok a => f a
  | Abort e => Abort e
  end.

(** A value about to be stored into a [Float32Array]; [undefined]
    becomes NaN there. *)
Definition number {A : Type} (v : option A) : outcome A :=
  match v with
  | Some a => Ok a
  | None => Abort NotANumber
  end.

(** [Math.max(0, Math.min(hi, v))]. *)
Definition clamp (hi v : Z) : Z := Z.max 0 (Z.min hi v).

(** ** Median filter (medianFilter, lines 150-173) *)

Section Median.
(** The element type of the filtered array, with the order decided by
    the sign of [a - b] and the zero a fresh array is filled with. *)
Context {A : Type} (lt : A → A → bool) (zero : A).

Fixpoint insert_sorted (x : A) (l : list A) : list A :=
  match l with
  | [] => [x]
  | y :: l' => if lt x y then x :: l else y :: insert_sorted x l'
  end.

(** [kernel.sort((a, b) => a - b)] on numbers, as a stable insertion
    sort. *)
Definition sort_numbers (l : list A) : list A :=
  foldl (λ acc x, insert_sorted x acc) [] l.

(** [Array.prototype.sort] moves every [undefined] behind the sorted
    numbers without calling the comparator. *)
Definition sort_kernel (kernel : list (option A)) : list (option A) :=
  let numbers := omap (λ v, v) kernel in
  (Some <$> sort_numbers numbers)
    ++ replicate (length kernel - length numbers)%nat None.

(** The values pushed on [kernel] for the pixel [(x, y)]. *)
Definition gather (data : list A) (width height half x y : Z)
  : list (option A) :=
  ky ← range (- half) (half + 1);
  kx ← range (- half) (half + 1);
  let ny := clamp (height - 1) (y + ky) in
  let nx := clamp (width - 1) (x + kx) in
  [get data (ny * width + nx)].

(** [kernel[Math.floor(kernel.length / 2)]] after sorting. *)
Definition medianAt (data : list A) (width height half x y : Z)
  : option A :=
  let kernel := sort_kernel (gather data width height half x y) in
  mjoin (kernel !! (length kernel `div` 2)%nat).

Definition medianFilter (data : list A) (width height kernelSize : Z)
  : outcome (list A) :=
  let result := alloc zero (Z.of_nat (length data)) in
  let half := kernelSize / 2 in
  for_ 0 height (λ y result,
    for_ 0 width (λ x result,
      r ← result;
      v ← number (medianAt data width height half x y);
      Ok (put r (y * width + x) v)) result) (Ok result).
End Median.

(** ** Gaussian blur (gaussianBlur, lines 178-222) *)

Local Open Scope R_scope.

#[global] Instance Rlt_decision (a b : R) : Decision (a < b) := Rlt_dec a b.
#[global] Instance Req_decision : EqDecision R := Req_dec_T.

(** The comparator [(a, b) => a - b] on numbers: negative when [a < b]. *)
Definition ltR (a b : R) : bool := bool_decide (a < b).

(** The weights before normalisation together with their sum. *)
Definition gaussianWeights (sigma : R) (half : Z) : list R * R :=
  for_ (- half) (half + 1) (λ i '(kernel, sum),
    let val := exp (- IZR (i * i) / (2 * sigma * sigma)) in
    (kernel ++ [val], sum + val)) ([], 0).

Definition gaussianKernel (sigma : R) (half : Z) : list R :=
  let '(kernel, sum) := gaussianWeights sigma half in
  (λ w, w / sum) <$> kernel.

(** One output value of a pass: [val += read(k) * kernel[k + half]] for
    [k] from [-half] to [half]. *)
Definition convolve (read : Z → option R) (kernel : list R) (half : Z)
  : option R :=
  for_ (- half) (half + 1)%Z (λ k val,
    v ← val; d ← read k; w ← get kernel (k + half)%Z; Some (v + d * w))
    (Some 0).

Definition gaussianBlur (data : list R) (width height : Z) (sigma : R)
  : outcome (list R) :=
  let result := alloc 0 (Z.of_nat (length data)) in
  let kernelSize := (Zceil (sigma * 3) * 2 + 1)%Z in
  let half := (kernelSize / 2)%Z in
  let kernel := gaussianKernel sigma half in
  let temp := alloc 0 (Z.of_nat (length data)) in
  temp ← for_ 0 height (λ y temp,
    for_ 0 width (λ x temp,
      t ← temp;
      val ← number (convolve
        (λ k, let nx := clamp (width - 1) (x + k) in
              get data (y * width + nx)%Z) kernel half);
      Ok (put t (y * width + x)%Z val)) temp) (Ok temp);
  for_ 0 height (λ y result,
    for_ 0 width (λ x result,
      r ← result;
      val ← number (convolve
        (λ k, let ny := clamp (height - 1) (y + k) in
              get temp (ny * width + x)%Z) kernel half);
      Ok (put r (y * width + x)%Z val)) result) (Ok result).

(** ** Rounding and 8-bit stores *)

(** [Math.round]: the nearest integer, halves towards plus infinity. *)
Definition js_round (x : R) : Z := Zfloor (x + 1 / 2).

(** Storing an integer into a [Uint8Array] keeps it modulo 256. *)
Definition toUint8 (n : Z) : Z := (n mod 256)%Z.

(** ** Normalisation (normalizeArray, lines 227-244) *)

(** The first loop.  [None] stands for the initial [Infinity] of [min]
    and for the initial [-Infinity] of [max]: every number is below the
    one and above the other. *)
Definition lower (v : R) (min : option R) : option R :=
  match min with
  | None => Some v
  | Some m => if decide (v < m) then Some v else min
  end.

Definition upper (v : R) (max : option R) : option R :=
  match max with
  | None => Some v
  | Some m => if decide (m < v) then Some v else max
  end.

Definition minmax (data : list R) : option R * option R :=
  foldl (λ st v, (lower v st.1, upper v st.2)) (None, None) data.

(** [max - min || 1]. *)
Definition rangeOf (min max : R) : R :=
  if decide (max - min = 0) then 1 else max - min.

(** The value rounded for one element, before it is stored, in exact
    arithmetic; [scaled64] below is the value in double precision. *)
Definition scaled (min range v : R) : Z :=
  js_round ((v - min) / range * 255).

(** The sentinels survive the first loop only when [data] is empty, and
    then the second loop does not run either. *)
Definition normalizeArray (data : list R) : list Z :=
  match minmax data with
  | (Some min, Some max) =>
      let range := rangeOf min max in
      (λ v, toUint8 (scaled min range v)) <$> data
  | _ => alloc 0%Z (Z.of_nat (length data))
  end.

Local Close Scope R_scope.

(** ** Normalisation in double precision (normalizeArray, lines 227-244)

    The values the normaliser rounds depend on the rounding of each
    operation, so for the exact output the stage is embedded a second
    time over binary64 ([spec_float] at precision 53): the elements of the
    [Float32Array] are read as doubles, and [-], [/] and [*] round to the
    nearest double, ties to even. *)
Definition double : Type := spec_float.
Definition fsub : double → double → double := SFsub 53 1024.
Definition fdiv : double → double → double := SFdiv 53 1024.
Definition fmul : double → double → double := SFmul 53 1024.

(** The double nearest to [m * 2 ^ e], and an integer literal. *)
Definition dyadic (m e : Z) : double := binary_normalize 53 1024 m e false.
Definition ofInteger (n : Z) : double := dyadic n 0.

(** The first loop: [if (data[i] < min) min = data[i]] and
    [if (data[i] > max) max = data[i]], from [Infinity] and [-Infinity].
    A comparison with [NaN] is false. *)
Definition lower64 (v min : double) : double := if SFltb v min then v else min.
Definition upper64 (v max : double) : double := if SFltb max v then v else max.
Definition minmax64 (data : list double) : double * double :=
  foldl (λ st v, (lower64 v st.1, upper64 v st.2))
    (S754_infinity false, S754_infinity true) data.

(** [max - min || 1]: zero of either sign and [NaN] are falsy. *)
Definition rangeOf64 (min max : double) : double :=
  match fsub max min with
  | S754_zero _ | S754_nan => ofInteger 1
  | range => range
  end.

(** [Math.round] of a double: [floor(x + 1/2)], computed exactly; [None]
    for [NaN] and the infinities, which [Math.round] returns unchanged. *)
Definition roundHalfUp (x : double) : option Z :=
  match x with
  | S754_zero _ => Some 0
  | S754_finite s m e =>
      let n := if s then Z.neg m else Z.pos m in
      Some (if decide (0 ≤ e) then n * 2 ^ e
            else (2 * n + 2 ^ (- e)) / 2 ^ (- e + 1))
  | _ => None
  end.

(** The store into the [Uint8Array]: an integer modulo 256; [NaN] and the
    infinities as 0. *)
Definition storeUint8 (x : option Z) : Z :=
  match x with Some n => toUint8 n | None => 0 end.

(** [result[i] = Math.round(((data[i] - min) / range) * 255)]. *)
Definition scaled64 (min range v : double) : Z :=
  storeUint8 (roundHalfUp (fmul (fdiv (fsub v min) range) (ofInteger 255))).

Definition normalizeArray64 (data : list double) : list Z :=
  let '(min, max) := minmax64 data in
  let range := rangeOf64 min max in
  scaled64 min range <$> data.

(** Zeros and finite numbers: the doubles that are neither [NaN] nor
    infinite. *)
Definition finite (x : double) : bool :=
  match x with
  | S754_zero _ | S754_finite _ _ _ => true
  | _ => false
  end.

Definition isZero (x : double) : bool :=
  match x with S754_zero _ => true | _ => false end.

(** The finite values a [Float32Array] holds, read as doubles: below
    [2 ^ 128] in absolute value and a multiple of the spacing of the 24-bit
    significands, which is at least [2 ^ -149]. *)
Definition finiteFloat32 (x : double) : bool :=
  match x with
  | S754_zero _ => true
  | S754_finite s m e =>
      let top := Z.pos (digits2_pos m) + e in
      valid_binary 53 1024 x
      && (top <=? 128)
      && (Z.pos m mod 2 ^ (Z.max (-149) (top - 24) - e) =? 0)
  | _ => false
  end.

(** A smallest and a largest element of a field, for [<] on doubles. *)
Definition smallest (m : double) (data : list double) : Prop :=
  m ∈ data ∧ ∀ v, v ∈ data → SFltb v m = false.

Definition largest (m : double) (data : list double) : Prop :=
  m ∈ data ∧ ∀ v, v ∈ data → SFltb m v = false.

(** The same number: the same double, or two zeros. *)
Definition alike (x y : double) : Prop :=
  x = y ∨ (isZero x = true ∧ isZero y = true).

(** ** Grayscale conversion (toGrayscale, lines 94-105) *)

(** What [getImageData] hands to the stages: the dimensions and the
    interleaved R, G, B, A samples.  The canvas calls themselves
    ([getImageData], [createImageData], [putImageData]) belong to the
    browser and are not modelled. *)
Record ImageData : Type := mkImageData {
  width : Z;
  height : Z;
  data : list Z
}.

(** [Math.round(0.299 * r + 0.587 * g + 0.114 * b)], in exact arithmetic:
    where the exact sum ends in [.5] the sum of doubles may round the other
    way, one gray level apart; the range is the same. *)
Definition luminosity (r g b : Z) : Z :=
  js_round (0.299 * IZR r + 0.587 * IZR g + 0.114 * IZR b)%R.

(** A sample missing from [data] is [undefined]; the sum is then NaN and
    a [Uint8Array] stores NaN as 0. *)
Definition grayAt (data : list Z) (i : Z) : Z :=
  let idx := i * 4 in
  match get data idx, get data (idx + 1), get data (idx + 2) with
  | Some r, Some g, Some b => toUint8 (luminosity r g b)
  | _, _, _ => 0
  end.

Definition toGrayscale (imageData : ImageData) : list Z :=
  grayAt (data imageData)
    <$> range 0 (width imageData * height imageData).

(** ** Sobel edge detection (sobelEdges, lines 313-338) *)

Definition sobelX : list Z := [-1; 0; 1; -2; 0; 2; -1; 0; 1].
Definition sobelY : list Z := [-1; -2; -1; 0; 0; 0; 1; 2; 1].

(** [g += val * kernel[k]]; [None] is NaN. *)
Definition accumulate (g val coeff : option Z) : option Z :=
  a ← g; v ← val; c ← coeff; Some (a + v * c).

(** The two gradients at [(x, y)], with the running kernel index [k]. *)
Definition gradients (gray : list Z) (width x y : Z)
  : option Z * option Z * Z :=
  for_ (-1) 2 (λ ky st,
    for_ (-1) 2 (λ kx '(gx, gy, k),
      let val := get gray ((y + ky) * width + (x + kx)) in
      (accumulate gx val (get sobelX k),
       accumulate gy val (get sobelY k),
       k + 1)) st) (Some 0, Some 0, 0).

(** [Math.sqrt(gx * gx + gy * gy) / 255], in exact arithmetic: the
    number the source stores is this one rounded to a double and then to
    a 32-bit float, a relative change below [2 ^ -23]. *)
Definition magnitude (gx gy : Z) : R :=
  (sqrt (IZR (gx * gx + gy * gy)) / 255)%R.

Definition sobelAt (gray : list Z) (width x y : Z) : option R :=
  let '(gx, gy, _) := gradients gray width x y in
  a ← gx; b ← gy; Some (magnitude a b).

Definition sobelEdges (gray : list Z) (width height : Z)
  : outcome (list R) :=
  let edges := alloc 0%R (width * height) in
  for_ 1 (height - 1) (λ y edges,
    for_ 1 (width - 1) (λ x edges,
      e ← edges;
      v ← number (sobelAt gray width x y);
      Ok (put e (y * width + x) v)) edges) (Ok edges).

(** ** Radial gradient (createFallbackDepthMap, lines 266-278) *)

Definition centerDistance (width height x y : Z) : R :=
  let centerX := (IZR width / 2)%R in
  let centerY := (IZR height / 2)%R in
  let dx := (IZR x - centerX)%R in
  let dy := (IZR y - centerY)%R in
  sqrt (dx * dx + dy * dy).

Definition radialGradient (width height : Z) : list R :=
  let radial := alloc 0%R (width * height) in
  let centerX := (IZR width / 2)%R in
  let centerY := (IZR height / 2)%R in
  let maxDist := sqrt (centerX * centerX + centerY * centerY) in
  for_ 0 height (λ y radial,
    for_ 0 width (λ x radial,
      let dist := centerDistance width height x y in
      put radial (y * width + x) (1 - dist / maxDist)%R) radial) radial.

(** ** The two pipelines *)

(** A buffer that is a [Float32Array] until it is normalised. *)
Inductive buffer : Type :=
  | F32 (values : list R)
  | U8 (values : list Z).

(** Storing a number into the [Uint8ClampedArray] of an [ImageData]:
    clamped to [0, 255], halves rounded to the even neighbour. *)
Definition toUint8Clamped (v : R) : Z :=
  if decide (v < 0)%R then 0
  else if decide (255 < v)%R then 255
  else
    let f := Zfloor v in
    let frac := (v - IZR f)%R in
    if decide (frac < 1 / 2)%R then f
    else if decide (1 / 2 < frac)%R then f + 1
    else if Z.even f then f else f + 1.

(** The loop that fills [depthImageData.data] with [val, val, val, 255]. *)
Definition fillDepth (processed : buffer) : list Z :=
  match processed with
  | F32 values =>
      v ← values; let val := toUint8Clamped v in [val; val; val; 255]
  | U8 values =>
      v ← values; let val := clamp 255 v in [val; val; val; 255]
  end.

(** The options object of [computeDepthMap]; [None] is a property left
    out, for which the destructuring supplies the default. *)
Record StereoOptions : Type := mkStereoOptions {
  blockSize : option Z;
  maxDisparity : option Z;
  smoothing : option bool;
  normalize : option bool
}.

Record DepthResult : Type := mkDepthResult {
  depthData : list Z;
  disparityArray : buffer
}.

Definition computeDepthMap (leftData rightData : ImageData)
    (options : StereoOptions) : outcome DepthResult :=
  let blockSize := default 9 (blockSize options) in
  let maxDisparity := default 64 (maxDisparity options) in
  let smoothing := default true (smoothing options) in
  let normalize := default true (normalize options) in
  let width := width leftData in
  let height := height leftData in
  let leftGray := toGrayscale leftData in
  let rightGray := toGrayscale rightData in
  let disparity :=
    IZR <$> blockMatch leftGray rightGray width height blockSize maxDisparity in
  processedDisparity ←
    (if smoothing then
       filtered ← medianFilter ltR 0%R disparity width height 3;
       gaussianBlur filtered width height 2
     else Ok disparity);
  let processedDisparity :=
    if normalize then U8 (normalizeArray processedDisparity)
    else F32 processedDisparity in
  Ok {| depthData := fillDepth processedDisparity;
        disparityArray := processedDisparity |}.



(** * MPO parser (class MPOParser): a shallow embedding

    The parser looks for the JPEG streams inside an MPO file.  The file
    is a [Uint8Array], here a list of integers; [Blob] and object URLs
    belong to the browser, so an extracted image is modelled by its
    bytes.  The three nested [while] loops advance [pos] at every turn;
    they are embedded with a fuel argument that counts the turns, and
    [None] means that the fuel ran out. *)

(** An entry of [boundaries]: [{start, end}]. *)
Record Boundary : Type := mkBoundary {
  start : Z;
  end_ : Z
}.

(** [data[pos] === b]. *)
Definition byteIs (data : list Z) (pos b : Z) : bool :=
  bool_decide (get data pos = Some b).

(** [(data[pos] << 8) | data[pos + 1]]; the bit operations read
    [undefined] as 0. *)
Definition segmentLength (data : list Z) (pos : Z) : Z :=
  Z.lor (Z.shiftl (default 0 (get data pos)) 8)
        (default 0 (get data (pos + 1))).

(** [pos += 2; if (pos + 1 < length) pos += segmentLength]: the step over
    a marker and its length-prefixed segment. *)
Definition skipSegment (data : list Z) (pos : Z) : Z :=
  let pos := pos + 2 in
  if bool_decide (pos + 1 < Z.of_nat (length data))
  then pos + segmentLength data pos
  else pos.

(** [marker >= lo && marker <= hi]. *)
Definition markerIn (marker : option Z) (lo hi : Z) : bool :=
  match marker with
  | Some m => bool_decide (lo ≤ m ≤ hi)
  | None => false
  end.

(** The innermost loop: over the entropy-coded data up to the next
    marker ([0xFF] followed by neither [0x00] nor [0xFF]). *)
Fixpoint scanEntropy (fuel : nat) (data : list Z) (pos : Z) : option Z :=
  if bool_decide (pos < Z.of_nat (length data) - 1) then
    if byteIs data pos 255
       && negb (byteIs data (pos + 1) 0)
       && negb (byteIs data (pos + 1) 255)
    then Some pos
    else
      match fuel with
      | O => None
      | S fuel => scanEntropy fuel data (pos + 1)
      end
  else Some pos.

(** The middle loop: through the structure of the JPEG stream that
    begins at [start], until its EOI marker, a new SOI marker, or the end
    of the data.  It returns [pos] and [boundaries]. *)
Fixpoint scanImage (fuel : nat) (data : list Z) (start pos : Z)
    (boundaries : list Boundary) : option (Z * list Boundary) :=
  if bool_decide (pos < Z.of_nat (length data) - 1) then
    match fuel with
    | O => None
    | S fuel =>
        if byteIs data pos 255 then
          let marker := get data (pos + 1) in
          if bool_decide (marker = Some 255) then
            scanImage fuel data start (pos + 1) boundaries
          else if bool_decide (marker = Some 217) then
            Some (pos + 2,
                  boundaries ++ [{| start := start; end_ := pos + 2 |}])
          else if markerIn marker 208 215 then
            scanImage fuel data start (pos + 2) boundaries
          else if bool_decide (marker = Some 216) then
            Some (pos, boundaries)
          else if bool_decide (marker = Some 218) then
            pos ← scanEntropy fuel data (skipSegment data pos);
            scanImage fuel data start pos boundaries
          else
            scanImage fuel data start (skipSegment data pos) boundaries
        else scanImage fuel data start (pos + 1) boundaries
    end
  else Some (pos, boundaries).

(** The outer loop: the search for SOI markers. *)
Fixpoint scanFile (fuel : nat) (data : list Z) (pos : Z)
    (boundaries : list Boundary) : option (list Boundary) :=
  if bool_decide (pos < Z.of_nat (length data) - 1) then
    match fuel with
    | O => None
    | S fuel =>
        if byteIs data pos 255 && byteIs data (pos + 1) 216 then
          st ← scanImage fuel data pos (pos + 2) boundaries;
          scanFile fuel data st.1 st.2
        else scanFile fuel data (pos + 1) boundaries
    end
  else Some boundaries.

(** [findJPEGBoundaries(data)] (lines 66-152); one unit of fuel for every
    byte. *)
Definition findJPEGBoundaries (data : list Z) : option (list Boundary) :=
  scanFile (length data) data 0 [].

(** [parseMPFIndex(data, buffer)] (lines 160-190): the loop looks for an
    APP2 segment signed "MPF\0" and stops there; it never adds to
    [images]. *)
Definition parseMPFIndex (data : list Z) : list (list Z) :=
  let images := [] in
  (foldl (λ (st : list (list Z) * bool) pos,
     if st.2 then st
     else if byteIs data pos 255 && byteIs data (pos + 1) 226
             && byteIs data (pos + 4) 77 && byteIs data (pos + 5) 80
             && byteIs data (pos + 6) 70 && byteIs data (pos + 7) 0
          then (st.1, true)
          else st)
     (images, false) (range 0 (Z.of_nat (length data) - 20))).1.

(** [buffer.slice(begin, end)] of an [ArrayBuffer]. *)
Definition slice (buffer : list Z) (begin end' : Z) : list Z :=
  let len := Z.of_nat (length buffer) in
  let relative i := if bool_decide (i < 0) then Z.max (len + i) 0
                    else Z.min i len in
  let first := relative begin in
  let final := relative end' in
  take (Z.to_nat (Z.max (final - first) 0)) (drop (Z.to_nat first) buffer).

(** [parse(buffer)] (lines 20-59): the bytes of the images returned. *)
Definition parse (buffer : list Z) : option (list (list Z)) :=
  boundaries ← findJPEGBoundaries buffer;
  if bool_decide (2 ≤ length boundaries)%nat then
    Some ((λ boundary, slice buffer (start boundary) (end_ boundary))
            <$> take 2 boundaries)
  else
    let mpfImages := parseMPFIndex buffer in
    if bool_decide (2 ≤ length mpfImages)%nat then Some mpfImages
    else Some [buffer].

(** * The viewer's state (src/wiggle-viewer.js) *)

Module WiggleViewer.

(** The fields of a [WiggleViewer] that navigation, the input handlers
    and the animation step read and write.  [imageSets] keeps the width
    and the height of every set, [currentIndex] is an integer or [NaN]
    ([None]); the rotations, the calibration and the two settings are
    real numbers.  The scene, the textures and the mesh are not
    modelled. *)
Record Viewer : Type := mkViewer {
  sensitivity : R;
  smoothing : R;
  imageSets : list (Z * Z);
  currentIndex : option Z;
  targetRotationX : R;
  targetRotationY : R;
  currentRotationX : R;
  currentRotationY : R;
  useGyroscope : bool;
  gyroAvailable : bool;
  calibrationBeta : R;
  calibrationGamma : R;
  isCalibrated : bool;
  isRunning : bool
}.

Definition setImageSets (sets : list (Z * Z)) (v : Viewer) : Viewer :=
  mkViewer (sensitivity v) (smoothing v) sets (currentIndex v)
    (targetRotationX v) (targetRotationY v)
    (currentRotationX v) (currentRotationY v)
    (useGyroscope v) (gyroAvailable v)
    (calibrationBeta v) (calibrationGamma v) (isCalibrated v) (isRunning v).

Definition setCurrentIndex (index : option Z) (v : Viewer) : Viewer :=
  mkViewer (sensitivity v) (smoothing v) (imageSets v) index
    (targetRotationX v) (targetRotationY v)
    (currentRotationX v) (currentRotationY v)
    (useGyroscope v) (gyroAvailable v)
    (calibrationBeta v) (calibrationGamma v) (isCalibrated v) (isRunning v).





(** How a method ends: it returns, or it raises a [TypeError]; either way
    it leaves a state behind. *)
Inductive completion : Type :=
  | Returns (v : Viewer)
  | TypeError (v : Viewer).

(** [a % b] on integers: the sign follows the dividend, and [% 0] is
    [NaN]. *)
Definition remainder (a b : Z) : option Z :=
  if decide (b = 0) then None else Some (Z.rem a b).

(** [showImageSet(index)] (lines 230-237).  Both comparisons are false on
    [NaN]: the index is stored, [this.imageSets[NaN]] is [undefined] and
    reading its [colorTexture] raises. *)
Definition showImageSet (index : option Z) (v : Viewer) : completion :=
  match index with
  | Some i =>
      if bool_decide (i < 0 ∨ Z.of_nat (length (imageSets v)) ≤ i)
      then Returns v
      else Returns (setCurrentIndex (Some i) v)
  | None => TypeError (setCurrentIndex None v)
  end.

(** [next()] (lines 242-245). *)
Definition next (v : Viewer) : completion :=
  let newIndex :=
    i ← currentIndex v;
    remainder (i + 1) (Z.of_nat (length (imageSets v))) in
  showImageSet newIndex v.

(** [prev()] (lines 250-253). *)
Definition prev (v : Viewer) : completion :=
  let newIndex :=
    i ← currentIndex v;
    remainder (i - 1 + Z.of_nat (length (imageSets v)))
      (Z.of_nat (length (imageSets v))) in
  showImageSet newIndex v.




End WiggleViewer.

(** ** Auxiliary notions for the statements below *)

(** The shape shared by the stages: every pixel [(x, y)] of a rectangle
    receives [f x y] at index [y * width + x]. *)
Definition raster {A : Type} (f : Z → Z → A)
    (width xlo xhi ylo yhi : Z) (a : list A) : list A :=
  for_ ylo yhi (λ y a,
    for_ xlo xhi (λ x a, put a (y * width + x) (f x y)) a) a.

(** The specification's reading of a field: the value of pixel [(x, y)]
    sits at index [y * W + x]. *)
Definition pixel (field : list Z) (width x y : Z) : Z :=
  default 0 (get field (y * width + x)).

Definition sumZ (l : list Z) : Z := foldr Z.add 0 l.

(** The cost as the specification words it: the sum of absolute
    differences between the [blockSize] x [blockSize] window centred at
    [(x, y)] in the left field and the one centred at [(x - d, y)] in
    the right field, with [half = (blockSize - 1) / 2]. *)
Definition specSAD (left right : list Z) (width blockSize x y d : Z) : Z :=
  let half := (blockSize - 1) / 2 in
  sumZ (j ← range (- half) (half + 1);
        i ← range (- half) (half + 1);
        [Z.abs (pixel left width (x + i) (y + j)
                - pixel right width (x - d + i) (y + j))]).

(** [d] is the smallest minimiser of [c] on [[0, hi]]. *)
Definition first_argmin (c : Z → Z) (hi d : Z) : Prop :=
  0 ≤ d ≤ hi ∧ (∀ k, 0 ≤ k ≤ hi → c d ≤ c k) ∧ (∀ k, 0 ≤ k < d → c d < c k).

(** An integer that a [Float32Array] holds as it is: with 24 bits of
    significand every integer up to [2 ^ 24] is a 32-bit float. *)
Definition float32Exact (d : Z) : Prop := Z.abs d ≤ 2 ^ 24.

(** The interior of the block matcher. *)
Definition interior (width height half x y : Z) : Prop :=
  (half ≤ x < width - half) ∧ (half ≤ y < height - half).

(** [idx] addresses a pixel of a [width] x [height] field. *)
Definition addresses (width height idx : Z) : Prop :=
  ∃ row col, 0 ≤ row < height ∧ 0 ≤ col < width ∧ idx = row * width + col.

(** The global minimum and maximum of a field, as the specification
    understands them. *)
Definition is_min (m : R) (data : list R) : Prop :=
  m ∈ data ∧ ∀ v, v ∈ data → (m <= v)%R.

Definition is_max (m : R) (data : list R) : Prop :=
  m ∈ data ∧ ∀ v, v ∈ data → (v <= m)%R.

(** The number of pixels a buffer holds. *)
Definition bufferLength (b : buffer) : nat :=
  match b with
  | F32 values => length values
  | U8 values => length values
  end.

(** An opaque image of one gray value. *)
Definition grayImage (width height value : Z) : ImageData :=
  mkImageData width height
    (mjoin (replicate (Z.to_nat (width * height)) [value; value; value; 255])).

(** The options with another block size. *)
Definition withBlockSize (options : StereoOptions) (blockSize : Z)
  : StereoOptions :=
  {| blockSize := Some blockSize;
     maxDisparity := maxDisparity options;
     smoothing := smoothing options;
     normalize := normalize options |}.

(** Both reads of an index pair return a number. *)
Definition readable (left right : list Z) (p : Z * Z) : Prop :=
  is_Some (get left p.1) ∧ is_Some (get right p.2).

(** The term one index pair adds to the sum. *)
Definition absdiff (left right : list Z) (p : Z * Z) : Z :=
  Z.abs (default 0 (get left p.1) - default 0 (get right p.2)).

(** The two gradients of a 3 x 3 neighbourhood, row by row. *)
Definition sobelGx (a b c d e f g h i : Z) : Z :=
  (c + 2 * f + i) - (a + 2 * d + g).

Definition sobelGy (a b c d e f g h i : Z) : Z :=
  (g + 2 * h + i) - (a + 2 * b + c).

(** The sum of a list of weights. *)
Definition sumR (l : list R) : R := foldr Rplus 0%R l.


#[global] Instance Rle_decision (a b : R) : Decision (a <= b)%R :=
  Rle_dec a b.

(** [boundary] delimits a complete JPEG stream of [data]: it lies inside
    the buffer, begins with the SOI marker and ends with the EOI
    marker. *)
Definition isStream (data : list Z) (boundary : Boundary) : Prop :=
  0 ≤ start boundary ∧
  start boundary + 4 ≤ end_ boundary ≤ Z.of_nat (length data) ∧
  get data (start boundary) = Some 255 ∧
  get data (start boundary + 1) = Some 216 ∧
  get data (end_ boundary - 2) = Some 255 ∧
  get data (end_ boundary - 1) = Some 217.

(** The boundaries are streams that follow one another from [lo] on
    without overlap. *)
Fixpoint chain (data : list Z) (lo : Z) (boundaries : list Boundary) : Prop :=
  match boundaries with
  | [] => True
  | boundary :: rest =>
      lo ≤ start boundary ∧ isStream data boundary ∧
      chain data (end_ boundary) rest
  end.

Definition octet (b : Z) : Prop := 0 ≤ b ≤ 255.

(** A run of the middle or of the outer loop that ends, with some amount
    of fuel. *)
Definition imageRuns (data : list Z) (start pos : Z)
    (boundaries : list Boundary) (result : Z * list Boundary) : Prop :=
  ∃ fuel, scanImage fuel data start pos boundaries = Some result.

Definition fileRuns (data : list Z) (pos : Z)
    (boundaries result : list Boundary) : Prop :=
  ∃ fuel, scanFile fuel data pos boundaries = Some result.

(** The smallest kind of JPEG stream: SOI, a body, EOI. *)
Definition simpleStream (body : list Z) : list Z :=
  [255; 216] ++ body ++ [255; 217].

(** Where streams with the given bodies lie when they follow one another
    from offset [off]. *)
Fixpoint layout (off : Z) (bodies : list (list Z)) : list Boundary :=
  match bodies with
  | [] => []
  | body :: rest =>
      let stop := off + Z.of_nat (length body) + 4 in
      {| start := off; end_ := stop |} :: layout stop rest
  end.

(** A byte other than [0xFF]. *)
Definition plain (b : Z) : Prop := 0 ≤ b < 255.

(** A marker segment: [0xFF], the marker, the two bytes of the length
    field (big-endian; the length counts the field itself), the
    payload. *)
Definition segment (marker : Z) (payload : list Z) : list Z :=
  let n := Z.of_nat (length payload) + 2 in
  [255; marker; n / 256; n mod 256] ++ payload.

(** Entropy-coded data: bytes other than [0xFF] ([Some b]) and stuffed
    pairs [FF 00] ([None]). *)
Definition entropyBytes (units : list (option Z)) : list Z :=
  units ≫= (λ unit, match unit with Some b => [b] | None => [255; 0] end).

(** The parts of a JPEG stream between SOI and EOI: a marker segment, or
    a scan (an SOS segment and the entropy-coded data after it). *)
Inductive part : Type :=
  | Header (marker : Z) (payload : list Z)
  | Scan (payload : list Z) (units : list (option Z)).

Definition partBytes (p : part) : list Z :=
  match p with
  | Header marker payload => segment marker payload
  | Scan payload units => segment 218 payload ++ entropyBytes units
  end.

(** The markers that [findJPEGBoundaries] takes to carry a length field:
    all but [00], RST0-RST7, SOI, EOI, SOS and [FF]. *)
Definition lengthMarker (m : Z) : Prop := 1 ≤ m < 208 ∨ 219 ≤ m < 255.

Definition payloadOK (payload : list Z) : Prop :=
  Forall octet payload ∧ Z.of_nat (length payload) + 2 < 65536.

Definition wellFormed (p : part) : Prop :=
  match p with
  | Header marker payload => lengthMarker marker ∧ payloadOK payload
  | Scan payload units =>
      payloadOK payload ∧ Forall (from_option plain True) units
  end.

(** A JPEG stream: SOI, its parts, EOI. *)
Definition jpeg (parts : list part) : list Z :=
  [255; 216] ++ concat (partBytes <$> parts) ++ [255; 217].

(** The bytes begin with a marker: [0xFF], then neither [0x00] nor
    [0xFF]. *)
Definition marked (l : list Z) : Prop :=
  ∃ m rest, l = 255 :: m :: rest ∧ m ≠ 0 ∧ m ≠ 255.

(** Where streams lie that follow one another from offset [off]. *)
Fixpoint spans (off : Z) (streams : list (list Z)) : list Boundary :=
  match streams with
  | [] => []
  | stream :: rest =>
      let stop := off + Z.of_nat (length stream) in
      {| start := off; end_ := stop |} :: spans stop rest
  end.

(** A stream that the middle loop walks through from just after its SOI
    to just past its end, wherever it lies in a file. *)
Definition scannable (stream : list Z) : Prop :=
  (∃ rest, stream = 255 :: 216 :: rest) ∧
  ∀ front back boundaries,
    let begin := Z.of_nat (length front) in
    let stop := begin + Z.of_nat (length stream) in
    imageRuns (front ++ stream ++ back) begin (begin + 2) boundaries
      (stop, boundaries ++ [{| start := begin; end_ := stop |}]).

(** * Properties *)

(** ** Two runs of the block matcher *)

(** The right image is the left one seen one pixel further left. *)
Example blockMatch_shift :
  blockMatch [1;2;3;4;5; 1;2;3;4;5; 1;2;3;4;5]
             [2;3;4;5;6; 2;3;4;5;6; 2;3;4;5;6] 5 3 3 2
  = [0;0;0;0;0; 0;0;1;1;0; 0;0;0;0;0].
Proof. vm_compute. reflexivity. Qed.

(** A tie between [d = 0] and [d = 1] goes to [d = 0]. *)
Example blockMatch_tie :
  blockMatch [5;5;5] [5;5;5] 3 1 1 2 = [0;0;0] ∧
  (search [5;5;5] [5;5;5] 0 3 2 0 2).2 = Finite 0.
Proof. vm_compute. split; reflexivity. Qed.

(** ** Loops *)

Lemma range_nil lo hi : hi ≤ lo → range lo hi = [].
Proof.
  intros Hle. unfold range, seqZ.
  replace (Z.to_nat (hi - lo)) with 0%nat by lia. reflexivity.
Qed.

Lemma range_snoc lo hi : lo ≤ hi → range lo (hi + 1) = range lo hi ++ [hi].
Proof.
  intros Hle. unfold range.
  replace (hi + 1 - lo) with ((hi - lo) + 1) by lia.
  rewrite seqZ_app by lia. f_equal.
  replace (lo + (hi - lo)) with hi by lia. reflexivity.
Qed.

Lemma elem_of_range i lo hi : i ∈ range lo hi ↔ lo ≤ i < hi.
Proof. unfold range. rewrite elem_of_seqZ. lia. Qed.


Lemma for_nil {T} lo hi (body : Z → T → T) s :
  hi ≤ lo → for_ lo hi body s = s.
Proof. intros Hle. unfold for_. rewrite range_nil by done. reflexivity. Qed.

Lemma for_snoc {T} lo hi (body : Z → T → T) s :
  lo ≤ hi → for_ lo (hi + 1) body s = body hi (for_ lo hi body s).
Proof.
  intros Hle. unfold for_. rewrite range_snoc by done.
  rewrite foldl_snoc. reflexivity.
Qed.

(** Invariant rule for a counted loop. *)
Lemma for_invariant {T} (P : Z → T → Prop) lo hi (body : Z → T → T) s :
  lo ≤ hi →
  P lo s →
  (∀ i s, lo ≤ i < hi → P i s → P (i + 1) (body i s)) →
  P hi (for_ lo hi body s).
Proof.
  intros Hle H0 Hstep.
  assert (Hgen : ∀ n : nat, lo + Z.of_nat n ≤ hi →
            P (lo + Z.of_nat n) (for_ lo (lo + Z.of_nat n) body s)).
  { induction n as [|n IH]; intros Hn.
    - rewrite Z.add_0_r. rewrite for_nil by lia. exact H0.
    - replace (lo + Z.of_nat (S n)) with ((lo + Z.of_nat n) + 1) by lia.
      rewrite for_snoc by lia. apply Hstep; [lia|]. apply IH. lia. }
  specialize (Hgen (Z.to_nat (hi - lo))).
  replace (lo + Z.of_nat (Z.to_nat (hi - lo))) with hi in Hgen by lia.
  apply Hgen. lia.
Qed.

(** The same without the counter, for any bounds. *)
Lemma for_preserves {T} (P : T → Prop) lo hi (body : Z → T → T) s :
  P s →
  (∀ i s, lo ≤ i < hi → P s → P (body i s)) →
  P (for_ lo hi body s).
Proof.
  intros H0 Hstep. destruct (decide (lo ≤ hi)) as [Hle|Hgt].
  - apply (for_invariant (λ _, P)); auto.
  - rewrite for_nil by lia. exact H0.
Qed.

Lemma for_ext {T} lo hi (body body' : Z → T → T) s :
  (∀ i s, lo ≤ i < hi → body i s = body' i s) →
  for_ lo hi body s = for_ lo hi body' s.
Proof.
  intros Hext. destruct (decide (lo ≤ hi)) as [Hle|Hgt].
  - apply (for_invariant (λ i t, t = for_ lo i body' s)); [done| |].
    + rewrite for_nil by lia. reflexivity.
    + intros i t Hi ->. rewrite for_snoc by lia. apply Hext. done.
  - rewrite !for_nil by lia. reflexivity.
Qed.

(** A loop that carries a log besides its state, when the entries a
    turn adds do not depend on the state. *)
Lemma for_logged {T L} lo hi (body : Z → T → T) (entries : Z → list L)
    (bodyL : Z → T * list L → T * list L) s log :
  (∀ i t l, lo ≤ i < hi → bodyL i (t, l) = (body i t, l ++ entries i)) →
  for_ lo hi bodyL (s, log)
  = (for_ lo hi body s, log ++ (range lo hi ≫= entries)).
Proof.
  intros Hbody. destruct (decide (lo ≤ hi)) as [Hle|Hgt].
  - apply (for_invariant (λ i r,
             r = (for_ lo i body s, log ++ (range lo i ≫= entries))));
      [done| |].
    + rewrite for_nil, range_nil by lia. simpl. by rewrite app_nil_r.
    + intros i r Hi ->. rewrite Hbody by done.
      rewrite for_snoc, range_snoc by lia.
      rewrite bind_app. simpl. by rewrite app_nil_r, app_assoc.
  - rewrite !for_nil, range_nil by lia. simpl. by rewrite app_nil_r.
Qed.

Lemma foldl_ext {A B} (f g : A → B → A) a (l : list B) :
  (∀ a b, f a b = g a b) → foldl f a l = foldl g a l.
Proof.
  intros Hfg. revert a. induction l as [|b l IH]; intros a; [done|].
  simpl. rewrite Hfg. apply IH.
Qed.

(** A loop over the concatenation of lists is a nest of loops. *)
Lemma foldl_bind {A B C} (f : A → C → A) (g : B → list C) a (l : list B) :
  foldl f a (l ≫= g) = foldl (λ a b, foldl f a (g b)) a l.
Proof.
  revert a. induction l as [|b l IH]; intros a; [done|].
  rewrite bind_cons, foldl_app. simpl. apply IH.
Qed.

(** ** Typed arrays *)

Lemma length_alloc {A} (zero : A) n : length (alloc zero n) = Z.to_nat n.
Proof. apply length_replicate. Qed.

Lemma length_put {A} (a : list A) i v : length (put a i v) = length a.
Proof. unfold put. case_decide; [apply length_insert | reflexivity]. Qed.

Lemma get_Some_lt {A} (a : list A) i v :
  get a i = Some v → 0 ≤ i < Z.of_nat (length a).
Proof.
  unfold get. case_decide; [|done]. intros Hl%lookup_lt_Some. lia.
Qed.

Lemma get_is_Some {A} (a : list A) i :
  0 ≤ i < Z.of_nat (length a) → is_Some (get a i).
Proof.
  intros Hi. unfold get. rewrite decide_True by lia.
  apply lookup_lt_is_Some. lia.
Qed.

Lemma get_None_ge {A} (a : list A) i :
  ¬ (0 ≤ i < Z.of_nat (length a)) → get a i = None.
Proof.
  intros Hi. unfold get. case_decide; [|done].
  apply lookup_ge_None. lia.
Qed.

Lemma get_put {A} (a : list A) i j v :
  get (put a i v) j
  = if decide (i = j) then (_ ← get a j; Some v) else get a j.
Proof.
  unfold get, put. destruct (decide (i = j)) as [->|Hne].
  - destruct (decide (0 ≤ j)) as [Hj|Hj]; [|done].
    destruct (decide (Z.to_nat j < length a)%nat) as [Hlt|Hge].
    + rewrite list_lookup_insert_eq by done.
      destruct (lookup_lt_is_Some_2 a _ Hlt) as [w ->]. reflexivity.
    + rewrite list_insert_ge by lia.
      rewrite (lookup_ge_None_2 a) by lia. reflexivity.
  - destruct (decide (0 ≤ j)) as [Hj|Hj]; [|done].
    destruct (decide (0 ≤ i)) as [Hi|Hi]; [|done].
    apply list_lookup_insert_ne. lia.
Qed.

Lemma get_alloc {A} (zero : A) n i :
  0 ≤ i < n → get (alloc zero n) i = Some zero.
Proof.
  intros Hi. unfold get, alloc. rewrite decide_True by lia.
  apply lookup_replicate_2. lia.
Qed.

(** Two arrays of one length with the same readable content are equal. *)
Lemma array_eq {A} (a b : list A) :
  length a = length b →
  (∀ i, 0 ≤ i < Z.of_nat (length a) → get a i = get b i) →
  a = b.
Proof.
  intros Hlen Hget. apply list_eq. intros n.
  destruct (decide (n < length a)%nat) as [Hlt|Hge].
  - specialize (Hget (Z.of_nat n)). unfold get in Hget.
    rewrite !decide_True, !Nat2Z.id in Hget by lia. apply Hget. lia.
  - rewrite !lookup_ge_None_2 by lia. reflexivity.
Qed.

(** ** Filling a rectangle of pixels *)

Lemma get_row {A} (f : Z → A) (base xlo xhi : Z) (a : list A) j :
  get (for_ xlo xhi (λ x a, put a (base + x) (f x)) a) j
  = if decide (xlo ≤ j - base < xhi)
    then (_ ← get a j; Some (f (j - base)))
    else get a j.
Proof.
  destruct (decide (xlo ≤ xhi)) as [Hle|Hgt].
  - pose (P := λ (i : Z) (t : list A), ∀ j, get t j =
             if decide (xlo ≤ j - base < i)
             then (_ ← get a j; Some (f (j - base))) else get a j).
    enough (HP : P xhi (for_ xlo xhi (λ x a, put a (base + x) (f x)) a))
      by apply HP.
    apply for_invariant; [done| |]; unfold P.
    + intros k. rewrite decide_False by lia. reflexivity.
    + clear j. intros i t Hi IH j. rewrite get_put, IH.
      destruct (decide (base + i = j)) as [<-|Hne].
      * rewrite decide_False by lia. rewrite decide_True by lia.
        replace (base + i - base) with i by lia.
        destruct (get a (base + i)); reflexivity.
      * destruct (decide (xlo ≤ j - base < i)).
        -- rewrite decide_True by lia. reflexivity.
        -- rewrite decide_False by lia. reflexivity.
  - rewrite for_nil by lia. rewrite decide_False by lia. reflexivity.
Qed.

Lemma length_raster {A} (f : Z → Z → A) width xlo xhi ylo yhi a :
  length (raster f width xlo xhi ylo yhi a) = length a.
Proof.
  unfold raster.
  apply (for_preserves (λ t, length t = length a)); [done|].
  intros y t _ Ht.
  apply (for_preserves (λ t, length t = length a)); [done|].
  intros x u _ Hu. rewrite length_put. exact Hu.
Qed.

Lemma get_raster {A} (f : Z → Z → A) width xlo xhi ylo yhi a x y :
  0 ≤ xlo → xhi ≤ width → 0 ≤ x < width →
  get (raster f width xlo xhi ylo yhi a) (y * width + x)
  = if decide ((xlo ≤ x < xhi) ∧ (ylo ≤ y < yhi))
    then (_ ← get a (y * width + x); Some (f x y))
    else get a (y * width + x).
Proof.
  intros Hlo Hhi Hx. unfold raster.
  destruct (decide (ylo ≤ yhi)) as [Hle|Hgt].
  - pose (P := λ (i : Z) (t : list A), ∀ x y, 0 ≤ x < width →
             get t (y * width + x) =
             if decide ((xlo ≤ x < xhi) ∧ (ylo ≤ y < i))
             then (_ ← get a (y * width + x); Some (f x y))
             else get a (y * width + x)).
    enough (HP : P yhi (for_ ylo yhi (λ y a,
              for_ xlo xhi (λ x a, put a (y * width + x) (f x y)) a) a))
      by (apply HP; done).
    clear x y Hx. apply for_invariant; [done| |]; unfold P.
    + intros x y Hx. rewrite decide_False by lia. reflexivity.
    + intros i t Hi IH x y Hx.
      rewrite (get_row (λ x, f x i) (i * width)), IH by done.
      destruct (decide (y = i)) as [->|Hne].
      * replace (i * width + x - i * width) with x by lia.
        destruct (decide (xlo ≤ x < xhi)).
        -- rewrite decide_False by lia. rewrite decide_True by lia.
           destruct (get a (i * width + x)); reflexivity.
        -- rewrite !(decide_False (P := _ ∧ _)) by lia. reflexivity.
      * rewrite decide_False by nia.
        destruct (decide ((xlo ≤ x < xhi) ∧ (ylo ≤ y < i))).
        -- rewrite decide_True by lia. reflexivity.
        -- rewrite decide_False by lia. reflexivity.
  - rewrite for_nil by lia. rewrite decide_False by lia. reflexivity.
Qed.

(** A loop whose body never aborts is the loop of the pure body. *)
Lemma for_Ok {T} lo hi (body : Z → T → T)
    (bodyM : Z → outcome T → outcome T) s :
  (∀ i t, lo ≤ i < hi → bodyM i (Ok t) = Ok (body i t)) →
  for_ lo hi bodyM (Ok s) = Ok (for_ lo hi body s).
Proof.
  intros Hbody. destruct (decide (lo ≤ hi)) as [Hle|Hgt].
  - apply (for_invariant (λ i r, r = Ok (for_ lo i body s))); [done| |].
    + rewrite for_nil by lia. reflexivity.
    + intros i r Hi ->. rewrite for_snoc by lia. apply Hbody. done.
  - rewrite !for_nil by lia. reflexivity.
Qed.

Lemma raster_Ok {A} (g : Z → Z → option A) (f : Z → Z → A)
    width xlo xhi ylo yhi a :
  (∀ x y, xlo ≤ x < xhi → ylo ≤ y < yhi → g x y = Some (f x y)) →
  for_ ylo yhi (λ y r,
    for_ xlo xhi (λ x r,
      t ← r; v ← number (g x y); Ok (put t (y * width + x) v)) r) (Ok a)
  = Ok (raster f width xlo xhi ylo yhi a).
Proof.
  intros Hg. unfold raster. apply for_Ok. intros y t Hy.
  apply for_Ok. intros x u Hx. rewrite (Hg x y) by done. reflexivity.
Qed.

(** The pixel of an index. *)
Lemma pixel_of_index width i :
  0 < width → i = (i / width) * width + i mod width ∧ 0 ≤ i mod width < width.
Proof.
  intros Hw. split.
  - rewrite Z.mul_comm. apply Z.div_mod. lia.
  - apply Z.mod_pos_bound. done.
Qed.

(** ** Block matching *)

Lemma blockMatch_raster left right width height blockSize maxDisparity :
  blockMatch left right width height blockSize maxDisparity
  = raster (λ x y, (search left right (blockSize / 2) width x y
                      (Z.min maxDisparity (x - blockSize / 2))).1)
      width (blockSize / 2) (width - blockSize / 2)
      (blockSize / 2) (height - blockSize / 2) (alloc 0 (width * height)).
Proof. reflexivity. Qed.

Lemma length_blockMatch left right width height blockSize maxDisparity :
  length (blockMatch left right width height blockSize maxDisparity)
  = Z.to_nat (width * height).
Proof. rewrite blockMatch_raster, length_raster. apply length_alloc. Qed.

Lemma elem_of_window p halfBlock width x y d :
  p ∈ window halfBlock width x y d ↔
  ∃ by_ bx, (- halfBlock ≤ by_ ≤ halfBlock) ∧ (- halfBlock ≤ bx ≤ halfBlock) ∧
    p = ((y + by_) * width + (x + bx), (y + by_) * width + (x + bx - d)).
Proof.
  unfold window. rewrite list_elem_of_bind. split.
  - intros (by_ & Hp & Hby). apply list_elem_of_bind in Hp.
    destruct Hp as (bx & Hp & Hbx). apply list_elem_of_singleton in Hp.
    apply elem_of_range in Hby, Hbx. exists by_, bx. split_and!; [lia..|done].
  - intros (by_ & bx & Hby & Hbx & ->). exists by_. split.
    + apply list_elem_of_bind. exists bx. split; [apply list_elem_of_singleton; done|].
      apply elem_of_range. lia.
    + apply elem_of_range. lia.
Qed.

Lemma index_in_field width height row col :
  0 ≤ row < height → 0 ≤ col < width →
  0 ≤ row * width + col < width * height.
Proof. intros Hr Hc. nia. Qed.

(** The heart of the bounds argument: inside the interior and for a
    candidate [d ≤ x - halfBlock], both windows stay inside the field. *)
Lemma window_addresses p halfBlock width height x y d :
  interior width height halfBlock x y → 0 ≤ d ≤ x - halfBlock →
  p ∈ window halfBlock width x y d →
  addresses width height p.1 ∧ addresses width height p.2.
Proof.
  intros [Hx Hy] Hd (by_ & bx & Hby & Hbx & ->)%elem_of_window. split.
  - exists (y + by_), (x + bx). simpl. split_and!; lia.
  - exists (y + by_), (x + bx - d). simpl. split_and!; lia.
Qed.

Lemma addresses_bounds width height idx :
  addresses width height idx → 0 ≤ idx < width * height.
Proof. intros (row & col & Hr & Hc & ->). by apply index_in_field. Qed.

(** *** The cost of one candidate *)

Lemma foldl_sad_None left right w :
  foldl (sad_add left right) None w = None.
Proof. induction w as [|p w IH]; [done|]. simpl. exact IH. Qed.

Lemma sad_add_readable left right acc p :
  readable left right p →
  sad_add left right (Some acc) p = Some (acc + absdiff left right p).
Proof.
  intros [[a Ha] [b Hb]]. unfold sad_add, absdiff.
  rewrite Ha, Hb. reflexivity.
Qed.

Lemma sad_add_Some left right acc p s :
  sad_add left right (Some acc) p = Some s → readable left right p.
Proof.
  unfold sad_add, readable. simpl.
  destruct (get left p.1); [|done]. destruct (get right p.2); [|done].
  eauto.
Qed.

Lemma sumZ_cons z l : sumZ (z :: l) = z + sumZ l.
Proof. reflexivity. Qed.

Lemma foldl_cons {A B} (f : A → B → A) a x l :
  foldl f a (x :: l) = foldl f (f a x) l.
Proof. reflexivity. Qed.

Lemma foldl_sad_readable left right w acc :
  Forall (readable left right) w →
  foldl (sad_add left right) (Some acc) w
  = Some (acc + sumZ (absdiff left right <$> w)).
Proof.
  intros Hw. revert acc.
  induction Hw as [|p w Hp _ IH]; intros acc.
  - simpl. f_equal. lia.
  - rewrite foldl_cons, fmap_cons, sumZ_cons.
    rewrite sad_add_readable, IH by done. f_equal. lia.
Qed.

Lemma foldl_sad_Some left right w acc s :
  foldl (sad_add left right) (Some acc) w = Some s →
  Forall (readable left right) w.
Proof.
  revert acc. induction w as [|p w IH]; intros acc Hs; [constructor|].
  rewrite foldl_cons in Hs.
  destruct (sad_add left right (Some acc) p) as [t|] eqn:Ht;
    [|by rewrite foldl_sad_None in Hs].
  constructor; [by eapply sad_add_Some | by eapply IH].
Qed.

Lemma sumZ_absdiff_nonneg left right w :
  0 ≤ sumZ (absdiff left right <$> w).
Proof.
  induction w as [|p w IH]; [simpl; lia|].
  rewrite fmap_cons, sumZ_cons. unfold absdiff at 1. lia.
Qed.

Lemma sadAt_Some left right halfBlock width x y d s :
  sadAt left right halfBlock width x y d = Some s →
  Forall (readable left right) (window halfBlock width x y d) ∧ 0 ≤ s.
Proof.
  unfold sadAt. intros Hs.
  pose proof (foldl_sad_Some _ _ _ _ _ Hs) as Hr. split; [done|].
  rewrite foldl_sad_readable in Hs by done. inversion Hs.
  pose proof (sumZ_absdiff_nonneg left right (window halfBlock width x y d)).
  lia.
Qed.

Lemma fmap_bind_list {A B C} (f : B → C) (g : A → list B) (l : list A) :
  f <$> (l ≫= g) = l ≫= (λ a, f <$> g a).
Proof.
  induction l as [|a l IH]; [done|].
  rewrite !bind_cons, fmap_app, IH. reflexivity.
Qed.

Lemma bind_ext_in {A B} (g h : A → list B) (l : list A) :
  (∀ a, a ∈ l → g a = h a) → l ≫= g = l ≫= h.
Proof.
  intros Hgh. induction l as [|a l IH]; [done|].
  rewrite !bind_cons. rewrite Hgh by left. rewrite IH; [done|].
  intros b Hb. apply Hgh. by right.
Qed.

(** On readable windows the running sum of the source is the cost of
    the specification. *)
Lemma sadAt_specSAD left right width blockSize x y d :
  Z.odd blockSize = true →
  Forall (readable left right) (window (blockSize / 2) width x y d) →
  sadAt left right (blockSize / 2) width x y d
  = Some (specSAD left right width blockSize x y d).
Proof.
  intros Hodd Hr. unfold sadAt. rewrite foldl_sad_readable by done.
  f_equal. rewrite Z.add_0_l. unfold specSAD. f_equal.
  assert (Hhalf : (blockSize - 1) / 2 = blockSize / 2).
  { apply Z.odd_spec in Hodd as [k ->]. Z.div_mod_to_equations. lia. }
  rewrite Hhalf. unfold window. rewrite fmap_bind_list.
  apply bind_ext_in. intros j _. rewrite fmap_bind_list.
  apply bind_ext_in. intros i _. simpl. unfold absdiff, pixel. simpl.
  replace (x - d + i) with (x + i - d) by lia. reflexivity.
Qed.

(** *** The search over candidates *)

Lemma search_first_argmin left right halfBlock width x y maxD (c : Z → Z) :
  0 ≤ maxD →
  (∀ d, 0 ≤ d ≤ maxD → sadAt left right halfBlock width x y d = Some (c d)) →
  first_argmin c maxD (search left right halfBlock width x y maxD).1.
Proof.
  intros HmaxD Hc. unfold search.
  pose (P := λ (i : Z) (st : Z * cost),
    (i = 0 ∧ st = (0, Infinity)) ∨
    (0 < i ∧ ∃ b, st = (b, Finite (c b)) ∧ 0 ≤ b < i ∧
       (∀ k, 0 ≤ k < i → c b ≤ c k) ∧ (∀ k, 0 ≤ k < b → c b < c k))).
  enough (HP : P (maxD + 1)
            (for_ 0 (maxD + 1)
               (λ d st, better d (sadAt left right halfBlock width x y d) st)
               (0, Infinity))).
  { destruct HP as [[? _]|(_ & b & -> & Hb & Hmin & Hfirst)]; [lia|].
    simpl. split_and!; [lia..| |done]. intros k Hk. apply Hmin. lia. }
  apply for_invariant; [lia|by left|].
  intros i st Hi HP. right. split; [lia|].
  rewrite Hc by lia. unfold better.
  destruct HP as [[-> ->]|(Hpos & b & -> & Hb & Hmin & Hfirst)]; simpl.
  - exists 0. split_and!; [done|lia..| |].
    + intros k Hk. replace k with 0 by lia. lia.
    + intros k Hk. lia.
  - destruct (decide (c i < c b)) as [Hlt|Hge].
    + exists i. split_and!; [done|lia..| |].
      * intros k Hk. destruct (decide (k = i)) as [->|Hne]; [lia|].
        specialize (Hmin k). lia.
      * intros k Hk. specialize (Hmin k). lia.
    + exists b. split_and!; [done|lia..| |done].
      intros k Hk. destruct (decide (k = i)) as [->|Hne]; [lia|].
      apply Hmin. lia.
Qed.

Lemma first_argmin_unique c hi d d' :
  first_argmin c hi d → first_argmin c hi d' → d = d'.
Proof.
  intros (Hd & Hmin & Hfirst) (Hd' & Hmin' & Hfirst').
  destruct (Z.lt_trichotomy d d') as [Hlt|[->|Hgt]]; [|done|].
  - specialize (Hfirst' d). specialize (Hmin d'). lia.
  - specialize (Hfirst d'). specialize (Hmin' d). lia.
Qed.

(** Inside the interior every candidate has a readable window. *)
Lemma window_readable left right halfBlock width height x y d :
  (Z.to_nat (width * height) ≤ length left)%nat →
  (Z.to_nat (width * height) ≤ length right)%nat →
  interior width height halfBlock x y → 0 ≤ d ≤ x - halfBlock →
  Forall (readable left right) (window halfBlock width x y d).
Proof.
  intros Hl Hr Hint Hd. apply Forall_forall. intros p Hp.
  destruct (window_addresses p _ _ _ _ _ _ Hint Hd Hp) as [H1 H2].
  apply addresses_bounds in H1, H2.
  split; apply get_is_Some; lia.
Qed.

(** *** The log of the reads *)

(** The entries the loops over [by] and [bx] add for the candidate [d]. *)
Lemma sadAtLogged_spec left right halfBlock width x y d log :
  sadAtLogged left right halfBlock width x y d log
  = (sadAt left right halfBlock width x y d,
     log ++ (by_ ← range (- halfBlock) (halfBlock + 1);
             bx ← range (- halfBlock) (halfBlock + 1);
             [mkRead x y d by_ bx ((y + by_) * width + (x + bx))
                ((y + by_) * width + (x + bx - d))])).
Proof.
  unfold sadAtLogged.
  rewrite (for_logged _ _
    (λ by_ sad, for_ (- halfBlock) (halfBlock + 1)
       (λ bx sad, sad_add left right sad
          ((y + by_) * width + (x + bx), (y + by_) * width + (x + bx - d)))
       sad)
    (λ by_, bx ← range (- halfBlock) (halfBlock + 1);
            [mkRead x y d by_ bx ((y + by_) * width + (x + bx))
               ((y + by_) * width + (x + bx - d))])).
  - f_equal. unfold sadAt, window, for_. rewrite foldl_bind.
    apply foldl_ext. intros sad by_. by rewrite foldl_bind.
  - intros by_ sad l _.
    apply (for_logged _ _
      (λ bx sad, sad_add left right sad
         ((y + by_) * width + (x + bx), (y + by_) * width + (x + bx - d)))
      (λ bx, [mkRead x y d by_ bx ((y + by_) * width + (x + bx))
                ((y + by_) * width + (x + bx - d))])).
    done.
Qed.

Lemma searchLogged_spec left right halfBlock width x y maxD log :
  searchLogged left right halfBlock width x y maxD log
  = (search left right halfBlock width x y maxD,
     log ++ (d ← range 0 (maxD + 1);
             by_ ← range (- halfBlock) (halfBlock + 1);
             bx ← range (- halfBlock) (halfBlock + 1);
             [mkRead x y d by_ bx ((y + by_) * width + (x + bx))
                ((y + by_) * width + (x + bx - d))])).
Proof.
  unfold searchLogged, search. apply for_logged.
  intros d st l _. by rewrite sadAtLogged_spec.
Qed.

(** The run with the log computes what [blockMatch] computes, and the
    log holds one entry for every turn of the five nested loops. *)
Lemma blockMatchLogged_spec left right width height blockSize maxDisparity :
  blockMatchLogged left right width height blockSize maxDisparity
  = (blockMatch left right width height blockSize maxDisparity,
     y ← range (blockSize / 2) (height - blockSize / 2);
     x ← range (blockSize / 2) (width - blockSize / 2);
     d ← range 0 (Z.min maxDisparity (x - blockSize / 2) + 1);
     by_ ← range (- (blockSize / 2)) (blockSize / 2 + 1);
     bx ← range (- (blockSize / 2)) (blockSize / 2 + 1);
     [mkRead x y d by_ bx ((y + by_) * width + (x + bx))
        ((y + by_) * width + (x + bx - d))]).
Proof.
  unfold blockMatchLogged, blockMatch. cbv zeta.
  rewrite (for_logged _ _
    (λ y disparity, for_ (blockSize / 2) (width - blockSize / 2)
       (λ x disparity,
          put disparity (y * width + x)
            (search left right (blockSize / 2) width x y
               (Z.min maxDisparity (x - blockSize / 2))).1) disparity)
    (λ y, x ← range (blockSize / 2) (width - blockSize / 2);
          d ← range 0 (Z.min maxDisparity (x - blockSize / 2) + 1);
          by_ ← range (- (blockSize / 2)) (blockSize / 2 + 1);
          bx ← range (- (blockSize / 2)) (blockSize / 2 + 1);
          [mkRead x y d by_ bx ((y + by_) * width + (x + bx))
             ((y + by_) * width + (x + bx - d))])); [done|].
  intros y disparity l _.
  apply (for_logged _ _
    (λ x disparity,
       put disparity (y * width + x)
         (search left right (blockSize / 2) width x y
            (Z.min maxDisparity (x - blockSize / 2))).1)
    (λ x, d ← range 0 (Z.min maxDisparity (x - blockSize / 2) + 1);
          by_ ← range (- (blockSize / 2)) (blockSize / 2 + 1);
          bx ← range (- (blockSize / 2)) (blockSize / 2 + 1);
          [mkRead x y d by_ bx ((y + by_) * width + (x + bx))
             ((y + by_) * width + (x + bx - d))])).
  intros x u l' _. by rewrite searchLogged_spec.
Qed.

Lemma elem_of_blockMatchLog r left right width height blockSize maxDisparity :
  let half := blockSize / 2 in
  r ∈ (blockMatchLogged left right width height blockSize maxDisparity).2 ↔
  ∃ x y d by_ bx, interior width height half x y ∧
    (0 ≤ d ≤ Z.min maxDisparity (x - half)) ∧
    (- half ≤ by_ ≤ half) ∧ (- half ≤ bx ≤ half) ∧
    r = mkRead x y d by_ bx ((y + by_) * width + (x + bx))
          ((y + by_) * width + (x + bx - d)).
Proof.
  intros half. rewrite blockMatchLogged_spec. fold half. simpl.
  unfold interior. split.
  - intros (y & Hr & Hy%elem_of_range)%list_elem_of_bind.
    apply list_elem_of_bind in Hr as (x & Hr & Hx%elem_of_range).
    apply list_elem_of_bind in Hr as (d & Hr & Hd%elem_of_range).
    apply list_elem_of_bind in Hr as (by_ & Hr & Hby%elem_of_range).
    apply list_elem_of_bind in Hr as (bx & Hr & Hbx%elem_of_range).
    apply list_elem_of_singleton in Hr.
    exists x, y, d, by_, bx. split_and!; (done || lia).
  - intros (x & y & d & by_ & bx & [Hx Hy] & Hd & Hby & Hbx & ->).
    apply list_elem_of_bind. exists y. split; [|by apply elem_of_range].
    apply list_elem_of_bind. exists x. split; [|by apply elem_of_range].
    apply list_elem_of_bind. exists d. split; [|apply elem_of_range; lia].
    apply list_elem_of_bind. exists by_. split; [|apply elem_of_range; lia].
    apply list_elem_of_bind. exists bx. split; [|apply elem_of_range; lia].
    by apply list_elem_of_singleton.
Qed.

(** *** Identical fields *)

Lemma window_zero_diagonal p halfBlock width x y :
  p ∈ window halfBlock width x y 0 → p.1 = p.2.
Proof. intros (by_ & bx & _ & _ & ->)%elem_of_window. simpl. lia. Qed.

Lemma sadAt_identical_zero g halfBlock width x y s :
  sadAt g g halfBlock width x y 0 = Some s → s = 0.
Proof.
  intros Hs. pose proof (sadAt_Some _ _ _ _ _ _ _ _ Hs) as [Hr _].
  unfold sadAt in Hs. rewrite foldl_sad_readable in Hs by done.
  inversion Hs as [Hsum]. clear Hs Hsum Hr.
  assert (Hdiag : Forall (λ p : Z * Z, p.1 = p.2) (window halfBlock width x y 0)).
  { apply Forall_forall. intros p. apply window_zero_diagonal. }
  induction Hdiag as [|p w Hp _ IH]; [done|].
  rewrite fmap_cons, sumZ_cons. unfold absdiff at 1. rewrite Hp. lia.
Qed.

(** The left indices do not depend on the candidate: if some candidate
    has a number for its cost, so has the candidate 0. *)
Lemma sadAt_identical_defined g halfBlock width x y d s :
  sadAt g g halfBlock width x y d = Some s →
  is_Some (sadAt g g halfBlock width x y 0).
Proof.
  intros [Hr _]%sadAt_Some. unfold sadAt.
  rewrite foldl_sad_readable; [eauto|].
  apply Forall_forall. intros p Hp.
  pose proof (window_zero_diagonal _ _ _ _ _ Hp) as Hdiag.
  apply elem_of_window in Hp as (by_ & bx & Hby & Hbx & ->).
  rewrite Forall_forall in Hr.
  destruct (Hr ((y + by_) * width + (x + bx), (y + by_) * width + (x + bx - d)))
    as [Hleft _].
  { apply elem_of_window. eauto. }
  split; [exact Hleft|]. simpl in *. rewrite <- Hdiag. exact Hleft.
Qed.

Lemma search_identical g halfBlock width x y maxD :
  (search g g halfBlock width x y maxD).1 = 0.
Proof.
  unfold search.
  pose (P := λ (i : Z) (st : Z * cost),
    st.1 = 0 ∧ (st.2 = Finite 0 ∨
      (st.2 = Infinity ∧ (0 < i → sadAt g g halfBlock width x y 0 = None)))).
  destruct (decide (0 ≤ maxD + 1)) as [Hle|Hgt];
    [|by rewrite for_nil by lia].
  enough (HP : P (maxD + 1)
            (for_ 0 (maxD + 1)
               (λ d st, better d (sadAt g g halfBlock width x y d) st)
               (0, Infinity))) by apply HP.
  apply for_invariant; [done| |].
  - split; [done|]. right. split; [done|lia].
  - intros i [b m] Hi [Hb Hm]. simpl in Hb, Hm. subst b. unfold P, better.
    destruct (sadAt g g halfBlock width x y i) as [s|] eqn:Hs; simpl.
    + pose proof (sadAt_Some _ _ _ _ _ _ _ _ Hs) as [_ Hpos].
      destruct Hm as [->|[-> Hnone]].
      * rewrite decide_False by lia. simpl. auto.
      * destruct (decide (i = 0)) as [->|Hne].
        -- apply sadAt_identical_zero in Hs as ->. simpl. auto.
        -- apply sadAt_identical_defined in Hs as [t Ht].
           rewrite Hnone in Ht by lia. done.
    + split; [done|]. destruct Hm as [->|[-> Hnone]]; [by left|].
      right. split; [done|]. intros _.
      destruct (decide (i = 0)) as [->|Hne]; [done|]. apply Hnone. lia.
Qed.

Lemma put_alloc_same {A} (zero : A) n i :
  put (alloc zero n) i zero = alloc zero n.
Proof.
  unfold put, alloc. case_decide; [|done].
  apply list_eq. intros k.
  destruct (decide (Z.to_nat i = k)) as [<-|Hne].
  - destruct (decide (Z.to_nat i < Z.to_nat n)%nat).
    + rewrite list_lookup_insert_eq by (by rewrite length_replicate).
      by rewrite lookup_replicate_2.
    + by rewrite list_insert_ge by (rewrite length_replicate; lia).
  - by rewrite list_lookup_insert_ne.
Qed.

(** Matching a field against itself leaves the fresh array of zeros
    untouched, whatever the block size and the search range. *)
Lemma blockMatch_identical_zero g width height blockSize maxDisparity :
  blockMatch g g width height blockSize maxDisparity
  = alloc 0 (width * height).
Proof.
  unfold blockMatch.
  apply (for_preserves (λ t, t = alloc 0 (width * height))); [done|].
  intros y t _ ->.
  apply (for_preserves (λ t, t = alloc 0 (width * height))); [done|].
  intros x t _ ->. rewrite search_identical. apply put_alloc_same.
Qed.

(** *** The claims about the block matcher *)

(** C2: for fields of the dimensions [width] x [height], an odd
    [blockSize ≥ 1] and [maxDisparity ≥ 0], every interior pixel receives
    the smallest [d] in [[0, min(maxDisparity, x - half)]] that minimises
    the sum of absolute differences of the specification, and every other
    pixel of the field receives 0.  The search range or the width is at
    most [2 ^ 24], so that the [Float32Array] of the source holds the
    disparity found as it is. *)
Theorem blockMatch_first_minimum (left right : list Z)
    width height blockSize maxDisparity x y :
  length left = Z.to_nat (width * height) →
  length right = Z.to_nat (width * height) →
  Z.odd blockSize = true → 1 ≤ blockSize → 0 ≤ maxDisparity →
  Z.min maxDisparity width ≤ 2 ^ 24 →
  0 ≤ x < width → 0 ≤ y < height →
  let half := (blockSize - 1) / 2 in
  let result := blockMatch left right width height blockSize maxDisparity in
  (interior width height half x y →
     ∃ d, get result (y * width + x) = Some d ∧
          first_argmin (specSAD left right width blockSize x y)
            (Z.min maxDisparity (x - half)) d ∧
          float32Exact d) ∧
  (¬ interior width height half x y → get result (y * width + x) = Some 0).
Proof.
  intros Hl Hr Hodd Hbs Hmd Hexact Hx Hy half result.
  assert (Hhalf : blockSize / 2 = half).
  { unfold half. apply Z.odd_spec in Hodd as [k ->].
    Z.div_mod_to_equations. lia. }
  assert (Hpos : 0 ≤ half).
  { unfold half. apply Z.div_pos; lia. }
  assert (Hget : get result (y * width + x)
            = if decide (interior width height half x y)
              then Some (search left right half width x y
                           (Z.min maxDisparity (x - half))).1
              else Some 0).
  { unfold result. rewrite blockMatch_raster, Hhalf.
    rewrite get_raster by lia.
    rewrite get_alloc by (by apply index_in_field).
    unfold interior. destruct (decide _); reflexivity. }
  split.
  - intros Hint. rewrite Hget, decide_True by done.
    assert (Hmin : first_argmin (specSAD left right width blockSize x y)
              (Z.min maxDisparity (x - half))
              (search left right half width x y
                 (Z.min maxDisparity (x - half))).1).
    { apply search_first_argmin; [unfold interior in Hint; lia|].
      intros d Hd. rewrite <- Hhalf. apply sadAt_specSAD; [done|].
      rewrite Hhalf. apply (window_readable _ _ _ _ height); [lia..|done|lia]. }
    eexists. split; [reflexivity|]. split; [exact Hmin|].
    destruct Hmin as [Hd _]. unfold float32Exact. lia.
  - intros Hout. rewrite Hget, decide_False by done. reflexivity.
Qed.

Lemma blockMatch_first_minimum_witness :
  let left := [1;2;3;4;5; 1;2;3;4;5; 1;2;3;4;5] in
  let right := [2;3;4;5;6; 2;3;4;5;6; 2;3;4;5;6] in
  (interior 5 3 ((3 - 1) / 2) 2 1 →
     ∃ d, get (blockMatch left right 5 3 3 2) (1 * 5 + 2) = Some d ∧
          first_argmin (specSAD left right 5 3 2 1)
            (Z.min 2 (2 - (3 - 1) / 2)) d ∧
          float32Exact d) ∧
  (¬ interior 5 3 ((3 - 1) / 2) 2 1 →
     get (blockMatch left right 5 3 3 2) (1 * 5 + 2) = Some 0).
Proof.
  intros left right.
  apply (blockMatch_first_minimum left right 5 3 3 2 2 1);
    [reflexivity | reflexivity | reflexivity | lia | lia | simpl; lia
    | lia | lia].
Defined.

(** C3: matching a field against itself gives disparity 0 at every
    interior pixel, and the whole disparity field is zero. *)
Theorem blockMatch_identical g width height blockSize maxDisparity :
  length g = Z.to_nat (width * height) →
  Z.odd blockSize = true → 1 ≤ blockSize → 0 ≤ maxDisparity →
  let result := blockMatch g g width height blockSize maxDisparity in
  (∀ x y, interior width height ((blockSize - 1) / 2) x y →
          get result (y * width + x) = Some 0) ∧
  result = replicate (Z.to_nat (width * height)) 0.
Proof.
  intros Hg Hodd Hbs Hmd result. unfold result.
  rewrite blockMatch_identical_zero. split; [|done].
  intros x y [Hx Hy]. apply get_alloc.
  assert (0 ≤ (blockSize - 1) / 2) by (apply Z.div_pos; lia).
  apply index_in_field; lia.
Qed.

Lemma blockMatch_identical_witness :
  let g := [7;1;9;4; 3;8;2;6; 5;5;0;1] in
  (∀ x y, interior 4 3 ((3 - 1) / 2) x y →
          get (blockMatch g g 4 3 3 2) (y * 4 + x) = Some 0) ∧
  blockMatch g g 4 3 3 2 = replicate (Z.to_nat (4 * 3)) 0.
Proof.
  intros g.
  apply (blockMatch_identical g 4 3 3 2); [reflexivity | reflexivity | lia | lia].
Defined.

(** C10: with buffers of at least [width * height] elements, every
    read of a run of the block matcher is inside the fields.  The run
    with the log returns what [blockMatch] returns; its log has an entry
    for every turn of the loops; and at every entry the row [y + by] is
    in [[0, height)], the left column [x + bx] and the right column
    [x + bx - d] are in [[0, width)] (the right one is never negative),
    the two indices are those of these pixels, they lie in
    [[0, width * height)], and both reads return a number. *)
Theorem blockMatch_reads_in_bounds (left right : list Z)
    width height blockSize maxDisparity :
  (Z.to_nat (width * height) ≤ length left)%nat →
  (Z.to_nat (width * height) ≤ length right)%nat →
  Z.odd blockSize = true → 1 ≤ blockSize → 0 ≤ maxDisparity →
  let half := blockSize / 2 in
  let run := blockMatchLogged left right width height blockSize maxDisparity in
  run.1 = blockMatch left right width height blockSize maxDisparity ∧
  (∀ x y d by_ bx, interior width height half x y →
     0 ≤ d ≤ Z.min maxDisparity (x - half) →
     - half ≤ by_ ≤ half → - half ≤ bx ≤ half →
     ∃ r, r ∈ run.2 ∧ pixelX r = x ∧ pixelY r = y ∧ candidate r = d ∧
          offsetY r = by_ ∧ offsetX r = bx) ∧
  Forall (λ r,
      let row := pixelY r + offsetY r in
      let leftColumn := pixelX r + offsetX r in
      let rightColumn := pixelX r + offsetX r - candidate r in
      (0 ≤ row < height) ∧
      (0 ≤ leftColumn < width) ∧ (0 ≤ rightColumn < width) ∧
      leftIdx r = row * width + leftColumn ∧
      rightIdx r = row * width + rightColumn ∧
      (0 ≤ leftIdx r < width * height) ∧
      (0 ≤ rightIdx r < width * height) ∧
      is_Some (get left (leftIdx r)) ∧ is_Some (get right (rightIdx r)))
    run.2.
Proof.
  intros Hl Hr Hodd Hbs _ half run.
  assert (Hhalf : 0 ≤ half) by (apply Z.div_pos; lia).
  split_and!.
  - unfold run. by rewrite blockMatchLogged_spec.
  - intros x y d by_ bx Hint Hd Hby Hbx. eexists. split.
    + apply elem_of_blockMatchLog. exists x, y, d, by_, bx. fold half.
      split; [exact Hint|]. split; [exact Hd|]. split; [exact Hby|].
      split; [exact Hbx|]. reflexivity.
    + cbn. repeat split.
  - apply Forall_forall. intros r Hin.
    apply elem_of_blockMatchLog in Hin
      as (x & y & d & by_ & bx & [Hx Hy] & Hd & Hby & Hbx & ->).
    fold half in Hx, Hy, Hd, Hby, Hbx. cbn.
    assert (Hrow : 0 ≤ y + by_ < height) by lia.
    assert (Hleft : 0 ≤ x + bx < width) by lia.
    assert (Hright : 0 ≤ x + bx - d < width) by lia.
    pose proof (index_in_field width height _ _ Hrow Hleft).
    pose proof (index_in_field width height _ _ Hrow Hright).
    split_and!; try done; try lia; apply get_is_Some; lia.
Qed.

Lemma blockMatch_reads_in_bounds_witness :
  let left := [1;2;3;4;5; 1;2;3;4;5; 1;2;3;4;5] in
  let right := [2;3;4;5;6; 2;3;4;5;6; 2;3;4;5;6] in
  let run := blockMatchLogged left right 5 3 3 2 in
  run.1 = blockMatch left right 5 3 3 2 ∧
  (∀ x y d by_ bx, interior 5 3 (3 / 2) x y →
     0 ≤ d ≤ Z.min 2 (x - 3 / 2) →
     - (3 / 2) ≤ by_ ≤ 3 / 2 → - (3 / 2) ≤ bx ≤ 3 / 2 →
     ∃ r, r ∈ run.2 ∧ pixelX r = x ∧ pixelY r = y ∧ candidate r = d ∧
          offsetY r = by_ ∧ offsetX r = bx) ∧
  Forall (λ r,
      let row := pixelY r + offsetY r in
      let leftColumn := pixelX r + offsetX r in
      let rightColumn := pixelX r + offsetX r - candidate r in
      (0 ≤ row < 3) ∧
      (0 ≤ leftColumn < 5) ∧ (0 ≤ rightColumn < 5) ∧
      leftIdx r = row * 5 + leftColumn ∧
      rightIdx r = row * 5 + rightColumn ∧
      (0 ≤ leftIdx r < 5 * 3) ∧
      (0 ≤ rightIdx r < 5 * 3) ∧
      is_Some (get left (leftIdx r)) ∧ is_Some (get right (rightIdx r)))
    run.2.
Proof.
  intros left right.
  apply (blockMatch_reads_in_bounds left right 5 3 3 2);
    [simpl; lia | simpl; lia | reflexivity | lia | lia].
Defined.

Lemma clamp_bounds hi v : 0 ≤ hi → 0 ≤ clamp hi v ≤ hi.
Proof. unfold clamp. lia. Qed.

(** ** Stages that write every pixel *)

Lemma get_raster_full {A} (f : Z → Z → A) width height a i :
  0 ≤ width → 0 ≤ i < width * height →
  length a = Z.to_nat (width * height) →
  get (raster f width 0 width 0 height a) i
  = Some (f (i mod width) (i / width)).
Proof.
  intros Hw Hi Hlen.
  assert (Hpos : 0 < width).
  { destruct (decide (width = 0)) as [->|]; lia. }
  destruct (pixel_of_index width i Hpos) as [Heq Hx].
  assert (Hy : 0 ≤ i / width < height).
  { split; [apply Z.div_pos; lia|]. apply Z.div_lt_upper_bound; lia. }
  rewrite Heq at 1. rewrite get_raster by lia.
  rewrite decide_True by lia. rewrite <- Heq.
  destruct (get_is_Some a i) as [v ->]; [lia|]. reflexivity.
Qed.

Lemma raster_full_pixel {A} (f : Z → Z → A) width height a x y :
  0 ≤ x < width → 0 ≤ y < height →
  length a = Z.to_nat (width * height) →
  get (raster f width 0 width 0 height a) (y * width + x) = Some (f x y).
Proof.
  intros Hx Hy Hlen. rewrite get_raster by lia.
  rewrite decide_True by lia.
  destruct (get_is_Some a (y * width + x)) as [v ->]; [|done].
  pose proof (index_in_field width height y x Hy Hx). lia.
Qed.

(** ** Median filter *)

Section MedianFacts.
Context {A : Type} (lt : A → A → bool) (zero : A).

Lemma insert_sorted_replicate c n :
  insert_sorted lt c (replicate n c) = replicate (S n) c.
Proof.
  induction n as [|n IH]; [done|].
  simpl. destruct (lt c c); [done|]. rewrite IH. reflexivity.
Qed.

Lemma sort_numbers_replicate c n :
  sort_numbers lt (replicate n c) = replicate n c.
Proof.
  unfold sort_numbers.
  enough (Hgen : ∀ m, foldl (λ acc x, insert_sorted lt x acc)
                       (replicate m c) (replicate n c) = replicate (m + n) c)
    by apply (Hgen 0%nat).
  induction n as [|n IH]; intros m.
  - by rewrite Nat.add_0_r.
  - simpl. rewrite insert_sorted_replicate, IH. f_equal. lia.
Qed.

Lemma omap_replicate_Some (c : A) n :
  omap (λ v, v) (replicate n (Some c)) = replicate n c.
Proof. induction n as [|n IH]; [done|]. simpl. f_equal. exact IH. Qed.

Lemma sort_kernel_replicate c n :
  sort_kernel lt (replicate n (Some c)) = replicate n (Some c).
Proof.
  unfold sort_kernel. cbv zeta.
  rewrite omap_replicate_Some, sort_numbers_replicate, fmap_replicate.
  rewrite !length_replicate, Nat.sub_diag. apply app_nil_r.
Qed.

Lemma elem_of_gather v (data : list A) width height half x y :
  v ∈ gather data width height half x y ↔
  ∃ ky kx, (- half ≤ ky ≤ half) ∧ (- half ≤ kx ≤ half) ∧
    v = get data (clamp (height - 1) (y + ky) * width
                  + clamp (width - 1) (x + kx)).
Proof.
  unfold gather. rewrite list_elem_of_bind. split.
  - intros (ky & Hv & Hky). apply list_elem_of_bind in Hv.
    destruct Hv as (kx & Hv & Hkx). apply list_elem_of_singleton in Hv.
    apply elem_of_range in Hky, Hkx. exists ky, kx. split_and!; [lia..|done].
  - intros (ky & kx & Hky & Hkx & ->). exists ky. split.
    + apply list_elem_of_bind. exists kx.
      split; [by apply list_elem_of_singleton|]. apply elem_of_range. lia.
    + apply elem_of_range. lia.
Qed.

(** On a constant field every gathered value is the constant. *)
Lemma medianAt_constant c width height half x y :
  0 < width → 0 < height → 0 ≤ half →
  medianAt lt (replicate (Z.to_nat (width * height)) c) width height half x y
  = Some c.
Proof.
  intros Hw Hh Hhalf. unfold medianAt.
  set (kernel := gather _ width height half x y).
  assert (Hall : Forall (λ v, Some c = v) kernel).
  { apply Forall_forall. intros v (ky & kx & _ & _ & ->)%elem_of_gather.
    pose proof (clamp_bounds (height - 1) (y + ky)).
    pose proof (clamp_bounds (width - 1) (x + kx)).
    unfold get. rewrite decide_True by nia.
    symmetry. apply lookup_replicate_2.
    pose proof (index_in_field width height (clamp (height - 1) (y + ky))
                  (clamp (width - 1) (x + kx))). lia. }
  assert (Hne : (0 < length kernel)%nat).
  { assert (Hin : get (replicate (Z.to_nat (width * height)) c)
                    (clamp (height - 1) (y + 0) * width
                     + clamp (width - 1) (x + 0)) ∈ kernel).
    { apply elem_of_gather. exists 0, 0. split_and!; [lia..|done]. }
    destruct kernel; [by apply elem_of_nil in Hin | simpl; lia]. }
  pose proof (replicate_as_Forall_2 (Some c) (length kernel) kernel
                eq_refl Hall) as Heq.
  rewrite <- Heq, sort_kernel_replicate, length_replicate.
  rewrite lookup_replicate_2; [done|].
  apply Nat.div_lt; lia.
Qed.

Lemma medianFilter_constant c width height kernelSize :
  0 ≤ width → 0 ≤ height → 0 ≤ kernelSize →
  medianFilter lt zero (replicate (Z.to_nat (width * height)) c)
    width height kernelSize
  = Ok (replicate (Z.to_nat (width * height)) c).
Proof.
  intros Hw Hh Hk. unfold medianFilter.
  rewrite (raster_Ok _ (λ _ _, c)).
  - f_equal. rewrite length_replicate. apply array_eq.
    + rewrite length_raster, length_alloc, length_replicate. lia.
    + intros i Hi.
      rewrite length_raster, length_alloc in Hi.
      rewrite get_raster_full; [|lia|lia|rewrite length_alloc; lia].
      unfold get. rewrite decide_True by lia.
      symmetry. apply lookup_replicate_2. lia.
  - intros x y Hx Hy. apply medianAt_constant; [lia..|].
    apply Z.div_pos; lia.
Qed.
End MedianFacts.

(** ** Rounding *)

Local Open Scope R_scope.

Lemma js_round_IZR (z : Z) : js_round (IZR z) = z.
Proof.
  unfold js_round. apply Zfloor_eq. lra.
Qed.

Lemma js_round_bounds (lo hi : Z) x :
  IZR lo <= x <= IZR hi → (lo ≤ js_round x ≤ hi)%Z.
Proof.
  intros [Hlo Hhi]. unfold js_round.
  pose proof (Zfloor_bound (x + 1 / 2)) as [Hf1 Hf2].
  split.
  - apply Zfloor_lub. lra.
  - apply Z.lt_succ_r. apply lt_IZR. rewrite succ_IZR. lra.
Qed.

Lemma toUint8_small n : (0 ≤ n ≤ 255)%Z → toUint8 n = n.
Proof. intros Hn. unfold toUint8. apply Z.mod_small. lia. Qed.

(** ** Normalisation *)

Lemma foldl_lower_Some (data : list R) m :
  ∃ m', foldl (λ a v, lower v a) (Some m) data = Some m' ∧
        m' <= m ∧ (∀ v, v ∈ data → m' <= v) ∧ (m' = m ∨ m' ∈ data).
Proof.
  revert m. induction data as [|v data IH]; intros m.
  - exists m. split_and!; [done|lra| |by left].
    intros v Hv. by apply elem_of_nil in Hv.
  - rewrite foldl_cons. unfold lower at 2.
    destruct (decide (v < m)) as [Hlt|Hge].
    + destruct (IH v) as (m' & -> & Hle & Hall & Hin).
      exists m'. split_and!; [done|lra| |].
      * intros w [->|Hw]%elem_of_cons; [lra|by apply Hall].
      * right. destruct Hin as [->|Hin]; [by left|by right].
    + destruct (IH m) as (m' & -> & Hle & Hall & Hin).
      exists m'. split_and!; [done|lra| |].
      * intros w [->|Hw]%elem_of_cons; [lra|by apply Hall].
      * destruct Hin as [->|Hin]; [by left|right; by right].
Qed.

Lemma foldl_upper_Some (data : list R) m :
  ∃ m', foldl (λ a v, upper v a) (Some m) data = Some m' ∧
        m <= m' ∧ (∀ v, v ∈ data → v <= m') ∧ (m' = m ∨ m' ∈ data).
Proof.
  revert m. induction data as [|v data IH]; intros m.
  - exists m. split_and!; [done|lra| |by left].
    intros v Hv. by apply elem_of_nil in Hv.
  - rewrite foldl_cons. unfold upper at 2.
    destruct (decide (m < v)) as [Hlt|Hge].
    + destruct (IH v) as (m' & -> & Hle & Hall & Hin).
      exists m'. split_and!; [done|lra| |].
      * intros w [->|Hw]%elem_of_cons; [lra|by apply Hall].
      * right. destruct Hin as [->|Hin]; [by left|by right].
    + destruct (IH m) as (m' & -> & Hle & Hall & Hin).
      exists m'. split_and!; [done|lra| |].
      * intros w [->|Hw]%elem_of_cons; [lra|by apply Hall].
      * destruct Hin as [->|Hin]; [by left|right; by right].
Qed.

Lemma minmax_split (data : list R) st :
  foldl (λ st v, (lower v st.1, upper v st.2)) st data
  = (foldl (λ a v, lower v a) st.1 data, foldl (λ a v, upper v a) st.2 data).
Proof.
  revert st. induction data as [|v data IH]; intros [a b]; [done|].
  rewrite !foldl_cons, IH. reflexivity.
Qed.

Lemma minmax_nil : minmax [] = (None, None).
Proof. reflexivity. Qed.

(** On a non-empty array the first loop leaves the least and the
    greatest element. *)
Lemma minmax_is_extremum data :
  data ≠ [] →
  ∃ mn mx, minmax data = (Some mn, Some mx) ∧ is_min mn data ∧ is_max mx data.
Proof.
  destruct data as [|v data]; [done|]. intros _.
  unfold minmax. rewrite minmax_split, !foldl_cons. simpl.
  destruct (foldl_lower_Some data v) as (mn & -> & Hle & Hall & Hin).
  destruct (foldl_upper_Some data v) as (mx & -> & Hle' & Hall' & Hin').
  exists mn, mx. split; [done|]. split; split.
  - destruct Hin as [->|Hin]; [by left|by right].
  - intros w [->|Hw]%elem_of_cons; [lra|by apply Hall].
  - destruct Hin' as [->|Hin']; [by left|by right].
  - intros w [->|Hw]%elem_of_cons; [lra|by apply Hall'].
Qed.

Lemma is_min_unique data m m' : is_min m data → is_min m' data → m = m'.
Proof.
  intros [Hin Hle] [Hin' Hle']. specialize (Hle _ Hin'). specialize (Hle' _ Hin).
  lra.
Qed.

Lemma is_max_unique data m m' : is_max m data → is_max m' data → m = m'.
Proof.
  intros [Hin Hle] [Hin' Hle']. specialize (Hle _ Hin'). specialize (Hle' _ Hin).
  lra.
Qed.

Lemma minmax_spec data mn mx :
  is_min mn data → is_max mx data → minmax data = (Some mn, Some mx).
Proof.
  intros Hmn Hmx.
  destruct (minmax_is_extremum data) as (mn' & mx' & -> & Hmn' & Hmx').
  { destruct Hmn as [Hin _]. intros ->. by apply elem_of_nil in Hin. }
  rewrite (is_min_unique _ _ _ Hmn Hmn'), (is_max_unique _ _ _ Hmx Hmx').
  reflexivity.
Qed.

Lemma scaled_min mn range : scaled mn range mn = 0%Z.
Proof.
  unfold scaled. replace ((mn - mn) / range * 255) with (IZR 0).
  - apply js_round_IZR.
  - unfold Rdiv. rewrite Rminus_diag. lra.
Qed.

Lemma scaled_max mn mx : mn ≠ mx → scaled mn (mx - mn) mx = 255%Z.
Proof.
  intros Hne. unfold scaled. replace ((mx - mn) / (mx - mn) * 255) with (IZR 255).
  - apply js_round_IZR.
  - field. lra.
Qed.

Lemma scaled_bounds mn mx v :
  mn <= v <= mx → (0 ≤ scaled mn (rangeOf mn mx) v ≤ 255)%Z.
Proof.
  intros Hv. unfold scaled. apply js_round_bounds.
  assert (Hrange : 0 < rangeOf mn mx ∧ v - mn <= rangeOf mn mx).
  { unfold rangeOf. destruct (decide (mx - mn = 0)); lra. }
  destruct Hrange as [Hpos Hle].
  assert (Hq : 0 <= (v - mn) / rangeOf mn mx <= 1).
  { assert (Hinv : 0 < / rangeOf mn mx) by (apply Rinv_0_lt_compat; lra).
    assert (Hone : rangeOf mn mx * / rangeOf mn mx = 1) by (apply Rinv_r; lra).
    unfold Rdiv. split; nra. }
  lra.
Qed.

Lemma normalizeArray_lookup data mn mx i v :
  minmax data = (Some mn, Some mx) → data !! i = Some v →
  normalizeArray data !! i = Some (toUint8 (scaled mn (rangeOf mn mx) v)).
Proof.
  intros Hmm Hv. unfold normalizeArray. rewrite Hmm.
  rewrite list_lookup_fmap, Hv. reflexivity.
Qed.

Lemma normalizeArray_constant c n :
  normalizeArray (replicate n c) = replicate n 0%Z.
Proof.
  destruct n as [|n]; [done|].
  assert (Hmm : minmax (replicate (S n) c) = (Some c, Some c)).
  { apply minmax_spec; (split; [by left|]);
      intros v ->%elem_of_replicate_inv; lra. }
  unfold normalizeArray. rewrite Hmm, fmap_replicate.
  f_equal. rewrite scaled_min. reflexivity.
Qed.

Lemma length_normalizeArray data : length (normalizeArray data) = length data.
Proof.
  unfold normalizeArray.
  destruct (minmax data) as [[mn|] [mx|]];
    rewrite ?length_fmap, ?length_alloc; lia.
Qed.

Local Close Scope R_scope.

(** ** Grayscale conversion *)

Lemma luminosity_bounds r g b :
  0 ≤ r ≤ 255 → 0 ≤ g ≤ 255 → 0 ≤ b ≤ 255 → 0 ≤ luminosity r g b ≤ 255.
Proof.
  intros Hr Hg Hb. unfold luminosity. apply js_round_bounds.
  assert (0 <= IZR r <= 255)%R by (split; apply IZR_le; lia).
  assert (0 <= IZR g <= 255)%R by (split; apply IZR_le; lia).
  assert (0 <= IZR b <= 255)%R by (split; apply IZR_le; lia).
  lra.
Qed.

(** A true gray keeps its value. *)
Lemma luminosity_gray k : luminosity k k k = k.
Proof.
  unfold luminosity.
  replace (0.299 * IZR k + 0.587 * IZR k + 0.114 * IZR k)%R with (IZR k)
    by lra.
  apply js_round_IZR.
Qed.

Lemma get_range lo hi i :
  0 ≤ i < hi - lo → get (range lo hi) i = Some (lo + i).
Proof.
  intros Hi. unfold get, range. rewrite decide_True by lia.
  rewrite lookup_seqZ_lt by lia. f_equal. lia.
Qed.

Lemma get_fmap {A B} (f : A → B) (l : list A) i :
  get (f <$> l) i = f <$> get l i.
Proof. unfold get. case_decide; [apply list_lookup_fmap | done]. Qed.

Lemma get_toGrayscale imageData i :
  0 ≤ i < width imageData * height imageData →
  get (toGrayscale imageData) i = Some (grayAt (data imageData) i).
Proof.
  intros Hi. unfold toGrayscale. rewrite get_fmap, get_range by lia.
  simpl. f_equal.
Qed.


(** ** The claims about single stages *)

(** C7: the median filter with an odd kernel size returns a constant
    field unchanged: every pixel of the result is the constant. *)
Theorem medianFilter_constant_field (c : R) width height kernelSize :
  0 < width → 0 < height → Z.odd kernelSize = true → 1 ≤ kernelSize →
  let field := replicate (Z.to_nat (width * height)) c in
  medianFilter ltR 0%R field width height kernelSize = Ok field ∧
  ∀ x y, 0 ≤ x < width → 0 ≤ y < height →
    medianAt ltR field width height (kernelSize / 2) x y = Some c.
Proof.
  intros Hw Hh _ Hk field. split.
  - apply medianFilter_constant; lia.
  - intros x y _ _. apply medianAt_constant; [done..|].
    apply Z.div_pos; lia.
Qed.

Lemma medianFilter_constant_field_witness :
  medianFilter ltR 0%R (replicate (Z.to_nat (3 * 2)) 7%R) 3 2 3
  = Ok (replicate (Z.to_nat (3 * 2)) 7%R) ∧
  ∀ x y, 0 ≤ x < 3 → 0 ≤ y < 2 →
    medianAt ltR (replicate (Z.to_nat (3 * 2)) 7%R) 3 2 (3 / 2) x y = Some 7%R.
Proof.
  apply (medianFilter_constant_field 7%R 3 2 3); [lia | lia | reflexivity | lia].
Defined.

(** ** The normaliser in double precision *)

(** *** The order of doubles *)
Lemma SFltb_irrefl x : SFltb x x = false.
Proof.
  unfold SFltb. destruct x as [s|s| |s m e]; simpl; try done.
  - by destruct s.
  - change (Pos.compare_cont Eq) with Pos.compare.
    destruct s; rewrite Z.compare_refl, Pos.compare_refl; done.
Qed.

Lemma SFltb_trans x y z :
  SFltb x y = true → SFltb y z = true → SFltb x z = true.
Proof.
  unfold SFltb.
  destruct x as [sx|sx| |sx mx ex], y as [sy|sy| |sy my ey],
    z as [sz|sz| |sz mz ez]; simpl; try done;
    try (destruct sx; try done); try (destruct sy; try done);
    try (destruct sz; try done).
  all: change (Pos.compare_cont Eq) with Pos.compare.
  all: destruct (Z.compare_spec ex ey), (Z.compare_spec ey ez),
         (Z.compare_spec ex ez); try lia; try done.
  all: subst.
  all: destruct (Pos.compare_spec mx my), (Pos.compare_spec my mz),
         (Pos.compare_spec mx mz); simpl; try lia; try done.
Qed.

(** Two finite values neither of which is below the other are the same
    number: the same double, or two zeros. *)
Lemma SFltb_antisym x y :
  finite x = true → finite y = true →
  SFltb x y = false → SFltb y x = false →
  x = y ∨ (isZero x = true ∧ isZero y = true).
Proof.
  unfold SFltb.
  destruct x as [sx|sx| |sx mx ex], y as [sy|sy| |sy my ey]; simpl; try done.
  - intros _ _ _ _. by right.
  - by destruct sy.
  - by destruct sx.
  - intros _ _. change (Pos.compare_cont Eq) with Pos.compare.
    destruct sx, sy; try done;
      destruct (Z.compare_spec ex ey), (Z.compare_spec ey ex); try lia;
      try done; subst;
      destruct (Pos.compare_spec mx my), (Pos.compare_spec my mx);
      simpl; try lia; try done; subst; by left.
Qed.

(** A finite value that is not above another one is below whatever is
    above that one. *)
Lemma SFltb_le_lt x y z :
  finite x = true → finite y = true →
  SFltb y x = false → SFltb y z = true → SFltb x z = true.
Proof.
  unfold SFltb.
  destruct x as [sx|sx| |sx mx ex], y as [sy|sy| |sy my ey],
    z as [sz|sz| |sz mz ez]; simpl; try done;
    try (destruct sx; try done); try (destruct sy; try done);
    try (destruct sz; try done).
  all: change (Pos.compare_cont Eq) with Pos.compare.
  all: intros _ _.
  all: destruct (Z.compare_spec ex ey), (Z.compare_spec ey ez),
         (Z.compare_spec ex ez), (Z.compare_spec ey ex); try lia; try done.
  all: subst.
  all: destruct (Pos.compare_spec mx my), (Pos.compare_spec my mz),
         (Pos.compare_spec mx mz), (Pos.compare_spec my mx);
         simpl; try lia; try done.
Qed.

Lemma SFltb_lt_le x y z :
  finite y = true → finite z = true →
  SFltb x y = true → SFltb z y = false → SFltb x z = true.
Proof.
  unfold SFltb.
  destruct x as [sx|sx| |sx mx ex], y as [sy|sy| |sy my ey],
    z as [sz|sz| |sz mz ez]; simpl; try done;
    try (destruct sx; try done); try (destruct sy; try done);
    try (destruct sz; try done).
  all: change (Pos.compare_cont Eq) with Pos.compare.
  all: intros _ _.
  all: destruct (Z.compare_spec ex ey), (Z.compare_spec ey ez),
         (Z.compare_spec ex ez), (Z.compare_spec ez ey); try lia; try done.
  all: subst.
  all: destruct (Pos.compare_spec mx my), (Pos.compare_spec my mz),
         (Pos.compare_spec mx mz), (Pos.compare_spec mz my);
         simpl; try lia; try done.
Qed.

(** *** Differences and quotients of equal doubles *)
Lemma fsub_self s m e :
  fsub (S754_finite s m e) (S754_finite s m e) = S754_zero false.
Proof. unfold fsub, SFsub. by rewrite Z.sub_diag. Qed.

Lemma div_eucl_div_mod a b : Z.div_eucl a b = (a / b, a mod b).
Proof. unfold Z.div, Z.modulo. by destruct (Z.div_eucl a b). Qed.

Lemma new_location_0 n : new_location n 0 = loc_Exact.
Proof. unfold new_location. by destruct (Z.even n). Qed.

Lemma fdiv_self s m e :
  fdiv (S754_finite s m e) (S754_finite s m e) = ofInteger 1.
Proof.
  unfold fdiv, SFdiv, SFdiv_core_binary.
  rewrite !Z.sub_diag.
  change (Z.min (fexp 53 1024 0) 0) with (-53).
  change (0 - -53) with 53.
  cbv iota beta.
  rewrite Z.shiftl_mul_pow2 by lia.
  assert (Hdiv : Z.div_eucl (Z.pos m * 2 ^ 53) (Z.pos m) = (2 ^ 53, 0)).
  { rewrite div_eucl_div_mod, Z.mul_comm.
    by rewrite Z.div_mul, Z.mod_mul by lia. }
  rewrite Hdiv, new_location_0. by destruct s.
Qed.

(** *** The number of binary digits *)
Lemma digits2_pos_size p : digits2_pos p = Pos.size p.
Proof. induction p as [p IH|p IH|]; simpl; by rewrite ?IH. Qed.

Lemma digits_log2 p : Z.pos (digits2_pos p) = Z.log2 (Z.pos p) + 1.
Proof.
  rewrite digits2_pos_size.
  destruct p as [p|p|]; simpl; rewrite ?Pos2Z.inj_succ; lia.
Qed.

Lemma digits_bounds p :
  2 ^ (Z.pos (digits2_pos p) - 1) ≤ Z.pos p < 2 ^ Z.pos (digits2_pos p).
Proof.
  rewrite digits_log2.
  pose proof (Z.log2_spec (Z.pos p) ltac:(lia)) as [H1 H2].
  replace (Z.log2 (Z.pos p) + 1 - 1) with (Z.log2 (Z.pos p)) by lia.
  replace (Z.log2 (Z.pos p) + 1) with (Z.succ (Z.log2 (Z.pos p))) by lia.
  done.
Qed.

Lemma digits_unique p d :
  2 ^ (d - 1) ≤ Z.pos p < 2 ^ d → Z.pos (digits2_pos p) = d.
Proof.
  intros [H1 H2]. rewrite digits_log2.
  assert (Hd : 0 < d).
  { destruct (decide (0 < d)) as [|Hn]; [done|].
    exfalso. destruct (decide (d = 0)) as [->|Hne].
    - simpl in H2. lia.
    - rewrite Z.pow_neg_r in H2 by lia. lia. }
  rewrite (Z.log2_unique (Z.pos p) (d - 1)); [lia|lia|].
  replace (Z.succ (d - 1)) with d by lia. done.
Qed.

Lemma digits_le p k : 0 ≤ k → Z.pos p < 2 ^ k → Z.pos (digits2_pos p) ≤ k.
Proof.
  intros Hk Hp. pose proof (digits_bounds p) as [H1 _].
  destruct (decide (Z.pos (digits2_pos p) ≤ k)) as [|Hgt]; [done|].
  exfalso.
  assert (2 ^ k ≤ 2 ^ (Z.pos (digits2_pos p) - 1))
    by (apply Z.pow_le_mono_r; lia).
  lia.
Qed.

(** *** Alignment and shifts *)
Lemma iter_xO_value p d : Z.pos (Pos.iter xO p d) = Z.pos p * 2 ^ Z.pos d.
Proof.
  induction d as [|d IH] using Pos.peano_ind.
  - simpl. lia.
  - rewrite Pos.iter_succ, Pos2Z.inj_xO, IH, Pos2Z.inj_succ.
    rewrite Z.pow_succ_r by lia. lia.
Qed.

Lemma shl_align_value m e e' :
  e' ≤ e →
  Z.pos (shl_align m e e').1 = Z.pos m * 2 ^ (e - e') ∧
  (shl_align m e e').2 = e'.
Proof.
  intros Hle. unfold shl_align.
  destruct (e' - e) as [|d|d] eqn:Hd.
  - assert (e = e') as -> by lia. rewrite Z.sub_diag. simpl. lia.
  - lia.
  - simpl. rewrite iter_xO_value.
    replace (e - e') with (Z.pos d) by lia. done.
Qed.

Lemma shl_align_none m e e' : e ≤ e' → shl_align m e e' = (m, e).
Proof.
  intros Hle. unfold shl_align. destruct (e' - e) eqn:Hd; try done. lia.
Qed.

Lemma shr_1_m mrs : 0 ≤ shr_m mrs → shr_m (shr_1 mrs) = shr_m mrs / 2.
Proof.
  destruct mrs as [m r s]. simpl. intros Hm.
  destruct m as [|[p|p|]|p]; simpl; try done; try lia.
  - rewrite Pos2Z.inj_xI. Z.div_mod_to_equations. lia.
  - rewrite Pos2Z.inj_xO. Z.div_mod_to_equations. lia.
Qed.

Lemma pow2_xO n : 2 ^ Z.pos n~0 = 2 ^ Z.pos n * 2 ^ Z.pos n.
Proof.
  change (Z.pos n~0) with (2 * Z.pos n).
  replace (2 * Z.pos n) with (Z.pos n + Z.pos n) by lia.
  apply Z.pow_add_r; lia.
Qed.

Lemma pow2_xI n : 2 ^ Z.pos n~1 = 2 * (2 ^ Z.pos n * 2 ^ Z.pos n).
Proof.
  change (Z.pos n~1) with (2 * Z.pos n + 1).
  replace (2 * Z.pos n + 1) with (1 + (Z.pos n + Z.pos n)) by lia.
  rewrite !Z.pow_add_r by lia. lia.
Qed.

Lemma iter_shr_1_m n mrs :
  0 ≤ shr_m mrs →
  shr_m (SpecFloat.iter_pos shr_1 n mrs) = shr_m mrs / 2 ^ Z.pos n.
Proof.
  revert mrs. induction n as [n IH|n IH|]; intros mrs Hm;
    simpl SpecFloat.iter_pos.
  - assert (H1 : 0 ≤ shr_m (shr_1 mrs)).
    { rewrite shr_1_m by done. apply Z.div_pos; lia. }
    assert (H2 : 0 ≤ shr_m (SpecFloat.iter_pos shr_1 n (shr_1 mrs))).
    { rewrite IH by done. apply Z.div_pos; lia. }
    rewrite IH, IH, shr_1_m by done.
    rewrite !Z.div_div by lia. by rewrite pow2_xI.
  - assert (H2 : 0 ≤ shr_m (SpecFloat.iter_pos shr_1 n mrs)).
    { rewrite IH by done. apply Z.div_pos; lia. }
    rewrite IH, IH by done.
    rewrite !Z.div_div by lia. by rewrite pow2_xO.
  - by rewrite shr_1_m.
Qed.

Lemma shr_record_of_loc_m m l : shr_m (shr_record_of_loc m l) = m.
Proof. by destruct l as [|[]]. Qed.

Lemma fexp_unfold k : fexp 53 1024 k = Z.max (k - 53) (-1074).
Proof. reflexivity. Qed.

Lemma Zdigits2_pos p : Zdigits2 (Z.pos p) = Z.pos (digits2_pos p).
Proof. reflexivity. Qed.

(** The first step of rounding: the mantissa is cut down to 53 digits. *)
Lemma shr_fexp_pos p e l :
  -1074 ≤ e →
  ∃ q e', shr_m (shr_fexp 53 1024 (Z.pos p) e l).1 = Z.pos q ∧
    (shr_fexp 53 1024 (Z.pos p) e l).2 = e' ∧
    e' = Z.max e (fexp 53 1024 (Z.pos (digits2_pos p) + e)) ∧
    Z.pos (digits2_pos q) + e' = Z.pos (digits2_pos p) + e.
Proof.
  intros He. unfold shr_fexp, shr. rewrite Zdigits2_pos, fexp_unfold.
  pose proof (digits_bounds p) as [Hlo Hhi].
  set (d := Z.pos (digits2_pos p)) in *.
  destruct (Z.max (d + e - 53) (-1074) - e) as [|k|k] eqn:Hn.
  - exists p, e. simpl. rewrite shr_record_of_loc_m. split_and!; (done || lia).
  - assert (Hk : Z.pos k = d - 53) by lia.
    simpl. rewrite iter_shr_1_m by (rewrite shr_record_of_loc_m; lia).
    rewrite shr_record_of_loc_m.
    assert (Hsplit : 2 ^ (d - 1) = 2 ^ 52 * 2 ^ Z.pos k).
    { rewrite <- Z.pow_add_r by lia. f_equal. lia. }
    assert (Hsplit' : 2 ^ d = 2 ^ Z.pos k * 2 ^ 53).
    { rewrite <- Z.pow_add_r by lia. f_equal. lia. }
    assert (Hq1 : 2 ^ 52 ≤ Z.pos p / 2 ^ Z.pos k).
    { apply Z.div_le_lower_bound; [lia|]. lia. }
    assert (Hq2 : Z.pos p / 2 ^ Z.pos k < 2 ^ 53).
    { apply Z.div_lt_upper_bound; [lia|]. lia. }
    destruct (Z.pos p / 2 ^ Z.pos k) as [|q|q] eqn:Hq; try lia.
    exists q, (e + Z.pos k). split_and!; try done; try lia.
    rewrite (digits_unique q 53); [lia|]. simpl. lia.
  - exists p, e. simpl. rewrite shr_record_of_loc_m. split_and!; (done || lia).
Qed.

Lemma round_nearest_even_pos q l :
  ∃ r, round_nearest_even (Z.pos q) l = Z.pos r ∧
       Z.pos q ≤ Z.pos r ≤ Z.pos q + 1.
Proof.
  unfold round_nearest_even. destruct l as [|[]].
  - exists q. lia.
  - destruct (Z.even (Z.pos q)); [exists q; lia|].
    exists (q + 1)%positive. lia.
  - exists q. lia.
  - exists (q + 1)%positive. lia.
Qed.

(** Rounding a positive mantissa whose exponent is not below the least
    one gives a finite number as long as the top allows. *)
Lemma binary_round_aux_finite s p e l :
  -1074 ≤ e ≤ 971 → Z.pos (digits2_pos p) + e ≤ 1023 →
  ∃ m' e', binary_round_aux 53 1024 s (Z.pos p) e l = S754_finite s m' e'.
Proof.
  intros He Hmag. unfold binary_round_aux.
  destruct (shr_fexp_pos p e l) as (q & e' & Hq & He' & Heq' & Hmag');
    [lia|].
  destruct (shr_fexp 53 1024 (Z.pos p) e l) as [mrs e1].
  simpl in Hq, He'. subst e1. rewrite Hq.
  destruct (round_nearest_even_pos q (loc_of_shr_record mrs))
    as (r & -> & Hr).
  assert (He'lo : -1074 ≤ e') by lia.
  destruct (shr_fexp_pos r e' loc_Exact) as (t & e'' & Ht & He'' & Heq'' & _);
    [lia|].
  destruct (shr_fexp 53 1024 (Z.pos r) e' loc_Exact) as [mrs2 e2].
  simpl in Ht, He''. subst e2. rewrite Ht.
  assert (Hdr : Z.pos (digits2_pos r) ≤ Z.pos (digits2_pos q) + 1).
  { apply digits_le; [lia|].
    pose proof (digits_bounds q) as [_ Hhi].
    rewrite Z.pow_add_r by lia. lia. }
  rewrite fexp_unfold in Heq', Heq''.
  assert (Hfin : (e'' <=? 1024 - 53) = true) by (apply Z.leb_le; lia).
  rewrite Hfin. eauto.
Qed.

Lemma digits_shift p q k :
  0 ≤ k → Z.pos q = Z.pos p * 2 ^ k →
  Z.pos (digits2_pos q) = Z.pos (digits2_pos p) + k.
Proof.
  intros Hk Hq. apply digits_unique. rewrite Hq.
  pose proof (digits_bounds p) as [Hlo Hhi].
  replace (Z.pos (digits2_pos p) + k - 1)
    with (Z.pos (digits2_pos p) - 1 + k) by lia.
  rewrite !Z.pow_add_r by lia.
  assert (0 < 2 ^ k) by lia. nia.
Qed.

Lemma binary_round_finite s p e :
  -1074 ≤ e → Z.pos (digits2_pos p) + e ≤ 1023 →
  ∃ m' e', binary_round 53 1024 s p e = S754_finite s m' e'.
Proof.
  intros He Hmag. unfold binary_round. rewrite fexp_unfold.
  set (E := Z.max (Z.pos (digits2_pos p) + e - 53) (-1074)).
  destruct (decide (E < e)) as [Hlt|Hge].
  - destruct (shl_align_value p e E) as [Hval Hexp]; [lia|].
    destruct (shl_align p e E) as [mz ez]. simpl in Hval, Hexp. subst ez.
    apply binary_round_aux_finite; [lia|].
    rewrite (digits_shift p mz (e - E)); [lia|lia|done].
  - rewrite shl_align_none by lia.
    apply binary_round_aux_finite; lia.
Qed.

Lemma canonical_exponent m e :
  bounded 53 1024 m e = true →
  Z.max (Z.pos (digits2_pos m) + e - 53) (-1074) = e ∧ e ≤ 971.
Proof.
  unfold bounded, canonical_mantissa. rewrite fexp_unfold.
  intros [H1 H2]%andb_true_iff.
  apply Z.eqb_eq in H1. apply Z.leb_le in H2. simpl in H2. lia.
Qed.

(** The difference of two doubles that are not the same double is not
    zero, and it is finite when both are below [2 ^ 1022]. *)
Lemma fsub_finite sx mx ex sy my ey :
  bounded 53 1024 mx ex = true → bounded 53 1024 my ey = true →
  Z.pos (digits2_pos mx) + ex ≤ 1022 → Z.pos (digits2_pos my) + ey ≤ 1022 →
  S754_finite sx mx ex ≠ S754_finite sy my ey →
  ∃ s m e, fsub (S754_finite sx mx ex) (S754_finite sy my ey)
           = S754_finite s m e.
Proof.
  intros [Hcx _]%canonical_exponent [Hcy _]%canonical_exponent Hbx Hby Hne.
  unfold fsub, SFsub.
  set (ez := Z.min ex ey).
  destruct (shl_align_value mx ex ez) as [Hx _]; [lia|].
  destruct (shl_align_value my ey ez) as [Hy _]; [lia|].
  set (Mx := Z.pos (shl_align mx ex ez).1) in *.
  set (My := Z.pos (shl_align my ey ez).1) in *.
  pose proof (digits_bounds mx) as [Hxlo Hxhi].
  pose proof (digits_bounds my) as [Hylo Hyhi].
  set (dx := Z.pos (digits2_pos mx)) in *.
  set (dy := Z.pos (digits2_pos my)) in *.
  assert (Hpx : 0 < 2 ^ (ex - ez)) by (apply Z.pow_pos_nonneg; lia).
  assert (Hpy : 0 < 2 ^ (ey - ez)) by (apply Z.pow_pos_nonneg; lia).
  assert (HMx : 0 < Mx < 2 ^ (1022 - ez)).
  { split; [lia|]. rewrite Hx.
    assert (2 ^ dx * 2 ^ (ex - ez) ≤ 2 ^ (1022 - ez)).
    { rewrite <- Z.pow_add_r by lia. apply Z.pow_le_mono_r; lia. }
    nia. }
  assert (HMy : 0 < My < 2 ^ (1022 - ez)).
  { split; [lia|]. rewrite Hy.
    assert (2 ^ dy * 2 ^ (ey - ez) ≤ 2 ^ (1022 - ez)).
    { rewrite <- Z.pow_add_r by lia. apply Z.pow_le_mono_r; lia. }
    nia. }
  assert (Hsum : Mx + My < 2 ^ (1023 - ez)).
  { replace (1023 - ez) with (1 + (1022 - ez)) by lia.
    rewrite Z.pow_add_r by lia. lia. }
  assert (Hdiff : sx = sy → Mx ≠ My).
  { intros -> Heq. destruct (decide (ex = ey)) as [->|Hexp].
    - replace (ey - ez) with 0 in Hx, Hy by lia.
      rewrite Z.pow_0_r, Z.mul_1_r in Hx, Hy.
      apply Hne. f_equal. lia.
    - destruct (decide (ey < ex)) as [Hlt|Hgt].
      + replace (ey - ez) with 0 in Hy by lia.
        rewrite Z.pow_0_r, Z.mul_1_r in Hy.
        assert (dx = 53) by lia.
        assert (dy ≤ 53) by lia.
        assert (2 ^ 1 ≤ 2 ^ (ex - ez)) by (apply Z.pow_le_mono_r; lia).
        assert (2 ^ dy ≤ 2 ^ 53) by (apply Z.pow_le_mono_r; lia).
        assert (2 ^ 52 ≤ Z.pos mx) by (replace 52 with (dx - 1) by lia; done).
        change (2 ^ 1) with 2 in *. change (2 ^ 52) with 4503599627370496 in *.
        change (2 ^ 53) with 9007199254740992 in *. nia.
      + replace (ex - ez) with 0 in Hx by lia.
        rewrite Z.pow_0_r, Z.mul_1_r in Hx.
        assert (dy = 53) by lia.
        assert (dx ≤ 53) by lia.
        assert (2 ^ 1 ≤ 2 ^ (ey - ez)) by (apply Z.pow_le_mono_r; lia).
        assert (2 ^ dx ≤ 2 ^ 53) by (apply Z.pow_le_mono_r; lia).
        assert (2 ^ 52 ≤ Z.pos my) by (replace 52 with (dy - 1) by lia; done).
        change (2 ^ 1) with 2 in *. change (2 ^ 52) with 4503599627370496 in *.
        change (2 ^ 53) with 9007199254740992 in *. nia. }
  assert (Hez : -1074 ≤ ez) by lia.
  assert (Hround : ∀ s p, Z.pos p ≤ Mx + My →
            ∃ m e, binary_round 53 1024 s p ez = S754_finite s m e).
  { intros s p Hp. apply binary_round_finite; [done|].
    assert (Z.pos (digits2_pos p) ≤ 1023 - ez); [|lia].
    apply digits_le; lia. }
  unfold binary_normalize.
  destruct (cond_Zopp sx Mx - cond_Zopp sy My) as [|p|p] eqn:HD.
  - exfalso.
    assert (sx = sy ∧ Mx = My) as [Hs HM]
      by (destruct sx, sy; simpl in HD; split; (done || lia)).
    by apply Hdiff.
  - destruct (Hround false p) as (m & e & ->); [|eauto].
    destruct sx, sy; simpl in HD; lia.
  - destruct (Hround true p) as (m & e & ->); [|eauto].
    destruct sx, sy; simpl in HD; lia.
Qed.

Lemma finiteFloat32_finite x : finiteFloat32 x = true → finite x = true.
Proof. by destruct x. Qed.

Lemma finiteFloat32_bounded s m e :
  finiteFloat32 (S754_finite s m e) = true →
  bounded 53 1024 m e = true ∧ Z.pos (digits2_pos m) + e ≤ 1022.
Proof.
  unfold finiteFloat32, valid_binary.
  intros [[H1 H2]%andb_true_iff _]%andb_true_iff.
  apply Z.leb_le in H2. split; [done|lia].
Qed.

(** *** The first loop *)
Lemma minmax64_split data :
  minmax64 data
  = (foldl (λ m v, lower64 v m) (S754_infinity false) data,
     foldl (λ m v, upper64 v m) (S754_infinity true) data).
Proof.
  unfold minmax64.
  generalize (S754_infinity false) (S754_infinity true).
  induction data as [|v data IH]; intros a b; [done|]. simpl. apply IH.
Qed.

Lemma foldl_lower64 data m :
  finite m = true → Forall (λ x, finite x = true) data →
  let r := foldl (λ m v, lower64 v m) m data in
  (r = m ∨ r ∈ data) ∧ SFltb m r = false ∧
  ∀ w, w ∈ data → SFltb w r = false.
Proof.
  intros Hm Hdata. revert m Hm.
  induction Hdata as [|v data Hv Hdata IH]; intros m Hm; simpl.
  - split_and!; [by left|apply SFltb_irrefl|].
    intros w Hw. by apply elem_of_nil in Hw.
  - assert (Hm' : finite (lower64 v m) = true).
    { unfold lower64. by destruct (SFltb v m). }
    destruct (IH (lower64 v m) Hm') as (Hin & Hle & Hall).
    set (r := foldl (λ m v, lower64 v m) (lower64 v m) data) in *.
    assert (Hr : finite r = true).
    { destruct Hin as [->|Hin]; [done|].
      rewrite Forall_forall in Hdata. by apply Hdata. }
    unfold lower64 in Hin, Hle. destruct (SFltb v m) eqn:Hvm.
    + split_and!.
      * destruct Hin as [->|Hin]; right; [left|by right]. 
      * destruct (SFltb m r) eqn:Hmr; [|done].
        by rewrite (SFltb_trans v m r) in Hle.
      * intros w [->|Hw]%elem_of_cons; [done|by apply Hall].
    + split_and!.
      * destruct Hin as [->|Hin]; [by left|right; by right].
      * done.
      * intros w [->|Hw]%elem_of_cons; [|by apply Hall].
        destruct (SFltb v r) eqn:Hvr; [|done].
        by rewrite (SFltb_lt_le v r m) in Hvm.
Qed.

Lemma foldl_upper64 data m :
  finite m = true → Forall (λ x, finite x = true) data →
  let r := foldl (λ m v, upper64 v m) m data in
  (r = m ∨ r ∈ data) ∧ SFltb r m = false ∧
  ∀ w, w ∈ data → SFltb r w = false.
Proof.
  intros Hm Hdata. revert m Hm.
  induction Hdata as [|v data Hv Hdata IH]; intros m Hm; simpl.
  - split_and!; [by left|apply SFltb_irrefl|].
    intros w Hw. by apply elem_of_nil in Hw.
  - assert (Hm' : finite (upper64 v m) = true).
    { unfold upper64. by destruct (SFltb m v). }
    destruct (IH (upper64 v m) Hm') as (Hin & Hle & Hall).
    set (r := foldl (λ m v, upper64 v m) (upper64 v m) data) in *.
    assert (Hr : finite r = true).
    { destruct Hin as [->|Hin]; [done|].
      rewrite Forall_forall in Hdata. by apply Hdata. }
    unfold upper64 in Hin, Hle. destruct (SFltb m v) eqn:Hmv.
    + split_and!.
      * destruct Hin as [->|Hin]; right; [left|by right].
      * destruct (SFltb r m) eqn:Hrm; [|done].
        by rewrite (SFltb_trans r m v) in Hle.
      * intros w [->|Hw]%elem_of_cons; [done|by apply Hall].
    + split_and!.
      * destruct Hin as [->|Hin]; [by left|right; by right].
      * done.
      * intros w [->|Hw]%elem_of_cons; [|by apply Hall].
        destruct (SFltb r v) eqn:Hrv; [|done].
        by rewrite (SFltb_le_lt m r v) in Hmv.
Qed.

Lemma minmax64_spec data :
  data ≠ [] → Forall (λ x, finite x = true) data →
  smallest (minmax64 data).1 data ∧ largest (minmax64 data).2 data.
Proof.
  intros Hne Hdata. rewrite minmax64_split. simpl.
  destruct data as [|v data]; [done|].
  apply Forall_cons in Hdata as [Hv Hdata]. simpl.
  assert (Hlower : lower64 v (S754_infinity false) = v).
  { unfold lower64. by destruct v as [| | |[]]. }
  assert (Hupper : upper64 v (S754_infinity true) = v).
  { unfold upper64. by destruct v as [| | |[]]. }
  rewrite Hlower, Hupper.
  destruct (foldl_lower64 data v Hv Hdata) as (Hin & Hle & Hall).
  destruct (foldl_upper64 data v Hv Hdata) as (Hin' & Hle' & Hall').
  split; split.
  - destruct Hin as [->|Hin]; [left|by right].
  - intros w [->|Hw]%elem_of_cons; [done|by apply Hall].
  - destruct Hin' as [->|Hin']; [left|by right].
  - intros w [->|Hw]%elem_of_cons; [done|by apply Hall'].
Qed.

(** *** The second loop *)
Lemma ofInteger_255 : ofInteger 255 = S754_finite false 8972014882652160 (-45).
Proof. by vm_compute. Qed.

Lemma rangeOf64_shape mn mx :
  (∃ s m e, rangeOf64 mn mx = S754_finite s m e)
  ∨ (∃ s, rangeOf64 mn mx = S754_infinity s).
Proof.
  unfold rangeOf64. destruct (fsub mx mn) as [s|s| |s m e].
  - left. vm_compute. eauto.
  - right. eauto.
  - left. vm_compute. eauto.
  - left. eauto.
Qed.

Lemma fsub_alike x y :
  finite x = true → alike x y → isZero (fsub x y) = true.
Proof.
  intros Hx [<-|[Hzx Hzy]].
  - destruct x as [s| | |s m e]; try done.
    + by destruct s.
    + by rewrite fsub_self.
  - destruct x as [sx| | |], y as [sy| | |]; try done. by destruct sx, sy.
Qed.

Lemma product_of_zero d r :
  isZero d = true →
  (∃ s m e, r = S754_finite s m e) ∨ (∃ s, r = S754_infinity s) →
  storeUint8 (roundHalfUp (fmul (fdiv d r) (ofInteger 255))) = 0.
Proof.
  intros Hd Hr. rewrite ofInteger_255.
  destruct d as [sd| | |]; try done.
  by destruct Hr as [(s & m & e & ->)|(s & ->)].
Qed.

Lemma scaled64_zero mn mx v :
  isZero (fsub v mn) = true → scaled64 mn (rangeOf64 mn mx) v = 0.
Proof. intros Hd. apply product_of_zero; [done|apply rangeOf64_shape]. Qed.

Lemma smallest_alike data mn v :
  Forall (λ x, finite x = true) data →
  smallest mn data → smallest v data → alike v mn.
Proof.
  rewrite Forall_forall. intros Hdata [Hmn Hle] [Hv Hle'].
  apply SFltb_antisym; auto.
Qed.

Lemma largest_alike data mx v :
  Forall (λ x, finite x = true) data →
  largest mx data → largest v data → alike v mx.
Proof.
  rewrite Forall_forall. intros Hdata [Hmx Hle] [Hv Hle'].
  apply SFltb_antisym; auto.
Qed.

Lemma spread_lt data mn mx :
  Forall (λ x, finite x = true) data →
  smallest mn data → largest mx data →
  (∃ a b, a ∈ data ∧ b ∈ data ∧ SFltb a b = true) →
  SFltb mn mx = true.
Proof.
  rewrite Forall_forall.
  intros Hdata [Hmn Hle] [Hmx Hge] (a & b & Ha & Hb & Hab).
  apply (SFltb_lt_le mn b mx); auto.
  apply (SFltb_le_lt mn a b); auto.
Qed.

Lemma fsub_spread mn mx :
  finiteFloat32 mn = true → finiteFloat32 mx = true →
  SFltb mn mx = true →
  ∃ s m e, fsub mx mn = S754_finite s m e.
Proof.
  intros Hmn Hmx Hlt.
  destruct mn as [sn| | |sn mn en], mx as [sx| | |sx mx ex]; try done.
  - simpl. eauto.
  - simpl. eauto.
  - apply finiteFloat32_bounded in Hmn as [??], Hmx as [??].
    apply fsub_finite; try done.
    intros [= -> -> ->]. by rewrite SFltb_irrefl in Hlt.
Qed.

(** The difference to the minimum and the spread do not depend on which
    of two alike extrema is taken, up to the sign of a zero. *)
Lemma fsub_alike_r x y y' :
  finite x = true → alike y y' →
  fsub x y = fsub x y' ∨ (isZero (fsub x y) = true ∧ isZero (fsub x y') = true).
Proof.
  intros Hx [<-|[Hy Hy']]; [by left|].
  destruct y as [sy| | |], y' as [sy'| | |]; try done.
  destruct x as [sx| | |sx mx ex]; try done.
  - right. by destruct sx, sy, sy'.
  - by left.
Qed.

Lemma fsub_spread_alike mn mx mn' mx' :
  finite mn = true → finite mx = true →
  alike mn mn' → alike mx mx' → SFltb mn mx = true →
  fsub mx mn = fsub mx' mn'.
Proof.
  intros Hmn Hmx [<-|[Hn Hn']] [<-|[Hx Hx']] Hlt; try done.
  all: destruct mn as [sn| | |sn m e], mx as [sx| | |sx m2 e2]; try done.
  all: try destruct mn' as [sn'| | |]; try done.
  all: try destruct mx' as [sx'| | |]; try done.
  all: try by destruct sn, sx.
Qed.

Lemma rangeOf64_spread mn mx :
  (∃ s m e, fsub mx mn = S754_finite s m e) → rangeOf64 mn mx = fsub mx mn.
Proof. intros (s & m & e & H). unfold rangeOf64. by rewrite H. Qed.

Lemma scaled64_max r :
  (∃ s m e, r = S754_finite s m e) →
  storeUint8 (roundHalfUp (fmul (fdiv r r) (ofInteger 255))) = 255.
Proof. intros (s & m & e & ->). rewrite fdiv_self. by vm_compute. Qed.

Lemma normalizeArray64_lookup data i v :
  data !! i = Some v →
  normalizeArray64 data !! i
  = Some (scaled64 (minmax64 data).1
            (rangeOf64 (minmax64 data).1 (minmax64 data).2) v).
Proof.
  intros Hv. unfold normalizeArray64.
  destruct (minmax64 data) as [mn mx]. simpl.
  by rewrite list_lookup_fmap, Hv.
Qed.

Lemma normalizeArray64_length data :
  length (normalizeArray64 data) = length data.
Proof.
  unfold normalizeArray64. destruct (minmax64 data). by rewrite length_fmap.
Qed.

Section Normalised.
Variable data : list double.
Hypothesis Hdata : Forall (λ x, finiteFloat32 x = true) data.

Lemma data_finite : Forall (λ x, finite x = true) data.
Proof. eapply Forall_impl; [exact Hdata|]. apply finiteFloat32_finite. Qed.

Lemma normalizeArray64_min i v :
  data !! i = Some v → (∀ w, w ∈ data → SFltb w v = false) →
  normalizeArray64 data !! i = Some 0.
Proof.
  intros Hv Hmin. rewrite (normalizeArray64_lookup _ _ _ Hv). f_equal.
  assert (Hin : v ∈ data) by by eapply list_elem_of_lookup_2.
  assert (Hne : data ≠ []) by (intros ->; by apply elem_of_nil in Hin).
  destruct (minmax64_spec data Hne data_finite) as [Hmn _].
  apply scaled64_zero, fsub_alike.
  - pose proof data_finite as H. rewrite Forall_forall in H. by apply H.
  - by apply (smallest_alike data); [apply data_finite| |].
Qed.

Lemma normalizeArray64_formula mn mx i v :
  smallest mn data → largest mx data → SFltb mn mx = true →
  data !! i = Some v →
  normalizeArray64 data !! i
  = Some (storeUint8 (roundHalfUp
            (fmul (fdiv (fsub v mn) (fsub mx mn)) (ofInteger 255)))).
Proof.
  intros Hmn Hmx Hlt Hv. rewrite (normalizeArray64_lookup _ _ _ Hv). f_equal.
  assert (Hin : v ∈ data) by by eapply list_elem_of_lookup_2.
  assert (Hne : data ≠ []) by (intros ->; by apply elem_of_nil in Hin).
  pose proof data_finite as Hfin.
  destruct (minmax64_spec data Hne Hfin) as [Hmn0 Hmx0].
  set (mn0 := (minmax64 data).1) in *. set (mx0 := (minmax64 data).2) in *.
  pose proof Hdata as Hall. rewrite Forall_forall in Hall.
  pose proof Hfin as Hall'. rewrite Forall_forall in Hall'.
  assert (Hnn : alike mn mn0) by by apply (smallest_alike data).
  assert (Hxx : alike mx mx0) by by apply (largest_alike data).
  assert (Hrange : fsub mx mn = fsub mx0 mn0).
  { apply fsub_spread_alike; try done; apply Hall'; [apply Hmn|apply Hmx]. }
  assert (Hspread : ∃ s m e, fsub mx mn = S754_finite s m e).
  { apply fsub_spread; [apply Hall, Hmn|apply Hall, Hmx|done]. }
  unfold scaled64. rewrite rangeOf64_spread by by rewrite <- Hrange.
  rewrite <- Hrange.
  destruct (fsub_alike_r v mn mn0 (Hall' v Hin) Hnn) as [->|[Hz Hz']]; [done|].
  rewrite !product_of_zero; auto.
Qed.

Lemma normalizeArray64_max i v :
  (∃ a b, a ∈ data ∧ b ∈ data ∧ SFltb a b = true) →
  data !! i = Some v → (∀ w, w ∈ data → SFltb v w = false) →
  normalizeArray64 data !! i = Some 255.
Proof.
  intros Hspread Hv Hmax.
  assert (Hin : v ∈ data) by by eapply list_elem_of_lookup_2.
  assert (Hne : data ≠ []) by (intros ->; by apply elem_of_nil in Hin).
  pose proof data_finite as Hfin.
  destruct (minmax64_spec data Hne Hfin) as [Hmn0 Hmx0].
  set (mn0 := (minmax64 data).1) in *.
  pose proof Hdata as Hall. rewrite Forall_forall in Hall.
  assert (Hlt : SFltb mn0 v = true) by by apply (spread_lt data).
  rewrite (normalizeArray64_formula mn0 v i v); try done.
  f_equal. apply scaled64_max, fsub_spread; try done.
  - apply Hall, Hmn0.
  - by apply Hall.
Qed.

Lemma normalizeArray64_constant :
  (∀ a b, a ∈ data → b ∈ data → SFltb a b = false) →
  normalizeArray64 data = replicate (length data) 0.
Proof.
  intros Hconst. apply list_eq. intros i.
  destruct (data !! i) as [v|] eqn:Hv.
  - rewrite (normalizeArray64_min i v Hv).
    + symmetry. apply lookup_replicate_2. by eapply lookup_lt_Some.
    + intros w Hw. apply Hconst; [done|by eapply list_elem_of_lookup_2].
  - apply lookup_ge_None in Hv.
    rewrite !(proj2 (lookup_ge_None _ _)); try done.
    + by rewrite length_replicate.
    + by rewrite normalizeArray64_length.
Qed.
End Normalised.

(** C4: on a field of finite [Float32] values the normaliser, computed in
    double precision, sends every pixel holding the global minimum to 0;
    when the field is not constant it sends every pixel holding the
    global maximum to 255 and every pixel [v] to the byte stored for
    [Math.round(((v - min) / (max - min)) * 255)], each operation rounded
    to the nearest double; on a constant field every output is 0. *)
Theorem normalizeArray_rescales (data : list double) :
  Forall (λ x, finiteFloat32 x = true) data →
  length (normalizeArray64 data) = length data ∧
  (∀ i v, data !! i = Some v → (∀ w, w ∈ data → SFltb w v = false) →
     normalizeArray64 data !! i = Some 0) ∧
  ((∃ a b, a ∈ data ∧ b ∈ data ∧ SFltb a b = true) →
     (∀ i v, data !! i = Some v → (∀ w, w ∈ data → SFltb v w = false) →
        normalizeArray64 data !! i = Some 255) ∧
     (∀ min max i v, smallest min data → largest max data →
        data !! i = Some v →
        normalizeArray64 data !! i
        = Some (storeUint8 (roundHalfUp
                  (fmul (fdiv (fsub v min) (fsub max min))
                     (ofInteger 255)))))) ∧
  ((∀ a b, a ∈ data → b ∈ data → SFltb a b = false) →
     normalizeArray64 data = replicate (length data) 0).
Proof.
  intros Hdata. split_and!.
  - apply normalizeArray64_length.
  - by apply normalizeArray64_min.
  - intros Hspread. split.
    + intros i v. by apply normalizeArray64_max.
    + intros mn mx i v Hmn Hmx Hv.
      apply normalizeArray64_formula; try done.
      apply (spread_lt data); try done. by apply data_finite.
  - by apply normalizeArray64_constant.
Qed.

Lemma normalizeArray_rescales_witness :
  let data := [ofInteger 2; ofInteger 0; ofInteger 8; ofInteger 3] in
  Forall (λ x, finiteFloat32 x = true) data ∧
  normalizeArray64 data !! 1%nat = Some 0 ∧
  normalizeArray64 data !! 2%nat = Some 255 ∧
  normalizeArray64 data !! 3%nat
  = Some (storeUint8 (roundHalfUp
            (fmul (fdiv (fsub (ofInteger 3) (ofInteger 0))
                     (fsub (ofInteger 8) (ofInteger 0))) (ofInteger 255)))).
Proof.
  intros data.
  assert (Hdata : Forall (λ x, finiteFloat32 x = true) data).
  { repeat apply Forall_cons_2; try apply Forall_nil_2; reflexivity. }
  assert (Hmin : ∀ w, w ∈ data → SFltb w (ofInteger 0) = false).
  { intros w Hw. unfold data in Hw.
    repeat (apply elem_of_cons in Hw as [->|Hw]; [reflexivity|]).
    by apply elem_of_nil in Hw. }
  assert (Hmax : ∀ w, w ∈ data → SFltb (ofInteger 8) w = false).
  { intros w Hw. unfold data in Hw.
    repeat (apply elem_of_cons in Hw as [->|Hw]; [reflexivity|]).
    by apply elem_of_nil in Hw. }
  destruct (normalizeArray_rescales data Hdata) as (_ & Hzero & Hspread & _).
  destruct Hspread as [Htop Hformula].
  { exists (ofInteger 0), (ofInteger 8).
    split_and!; [apply list_elem_of_lookup; by exists 1%nat
                |apply list_elem_of_lookup; by exists 2%nat|reflexivity]. }
  split_and!.
  - exact Hdata.
  - by apply (Hzero 1%nat (ofInteger 0)).
  - by apply (Htop 2%nat (ofInteger 8)).
  - apply (Hformula (ofInteger 0) (ofInteger 8) 3%nat (ofInteger 3)).
    + split; [apply list_elem_of_lookup; by exists 1%nat|exact Hmin].
    + split; [apply list_elem_of_lookup; by exists 2%nat|exact Hmax].
    + reflexivity.
Defined.

(** C4, counterexamples.  The field may hold [Infinity]: in
    [[0, Infinity]] the second pixel holds the global maximum, the range is
    [Infinity], the quotient [Infinity / Infinity] is [NaN] and 0 is
    stored where the claim has 255.  And the formula is evaluated in double
    precision: in [[2^-40, 254.5, 255]] the quotient for the second pixel
    rounds up to a double whose product with 255 is [254.5], so 255 is
    stored, while the exact value of the formula is below [254.5] and rounds
    to 254. *)
Theorem normalizeArray_infinity_and_rounding :
  (let field := [ofInteger 0; S754_infinity false] in
   SFltb (ofInteger 0) (S754_infinity false) = true ∧
   (∀ w, w ∈ field → SFltb (S754_infinity false) w = false) ∧
   normalizeArray64 field = [0; 0]) ∧
  (let field := [dyadic 1 (-40); dyadic 509 (-1); ofInteger 255] in
   Forall (λ x, finiteFloat32 x = true) field ∧
   normalizeArray64 field = [0; 255; 255] ∧
   js_round ((509 / 2 - / 2 ^ 40) / (255 - / 2 ^ 40) * 255)%R = 254).
Proof.
  split; intros field.
  - split_and!; [reflexivity| |by vm_compute].
    intros w Hw. unfold field in Hw.
    repeat (apply elem_of_cons in Hw as [->|Hw]; [reflexivity|]).
    by apply elem_of_nil in Hw.
  - split_and!.
    + repeat apply Forall_cons_2; try apply Forall_nil_2; reflexivity.
    + by vm_compute.
    + unfold js_round. apply Zfloor_eq.
      set (ε := (/ 2 ^ 40)%R).
      assert (Hε : (0 < ε < 1)%R).
      { unfold ε. split.
        - apply Rinv_0_lt_compat. apply pow_lt. lra.
        - rewrite <- Rinv_1. apply Rinv_lt_contravar; [|].
          + rewrite Rmult_1_l. apply pow_lt. lra.
          + apply (Rlt_pow_R1 2 40); [lra|lia]. }
      set (q := ((509 / 2 - ε) / (255 - ε))%R).
      assert (Hq : (q * (255 - ε) = 509 / 2 - ε)%R).
      { unfold q. field. lra. }
      split; nra.
Qed.

(** C9: the values the two 8-bit output stages round are already in
    [[0, 255]], so storing them into a [Uint8Array] never wraps: the
    stored value is the rounded value itself.  For the grayscale
    converter the samples are 8-bit; for the normaliser the field is
    arbitrary. *)
Theorem byte_outputs_in_range (imageData : ImageData) (i r g b : Z)
    (field : list R) (j : nat) (v : R) :
  Forall (λ s, 0 ≤ s ≤ 255) (data imageData) →
  0 ≤ i < width imageData * height imageData →
  get (data imageData) (i * 4) = Some r →
  get (data imageData) (i * 4 + 1) = Some g →
  get (data imageData) (i * 4 + 2) = Some b →
  field !! j = Some v →
  (0 ≤ luminosity r g b ≤ 255 ∧
   get (toGrayscale imageData) i = Some (luminosity r g b)) ∧
  (∃ mn mx, minmax field = (Some mn, Some mx) ∧
     0 ≤ scaled mn (rangeOf mn mx) v ≤ 255 ∧
     normalizeArray field !! j = Some (scaled mn (rangeOf mn mx) v)).
Proof.
  intros Hbytes Hi Hr Hg Hb Hv. split.
  - assert (Hsample : ∀ k s, get (data imageData) k = Some s → 0 ≤ s ≤ 255).
    { intros k s Hk. unfold get in Hk. case_decide; [|done].
      rewrite Forall_lookup in Hbytes. by eapply Hbytes. }
    pose proof (luminosity_bounds r g b (Hsample _ _ Hr) (Hsample _ _ Hg)
                  (Hsample _ _ Hb)) as Hlum.
    split; [done|]. rewrite get_toGrayscale by done.
    unfold grayAt. rewrite Hr, Hg, Hb. f_equal. by apply toUint8_small.
  - destruct (minmax_is_extremum field) as (mn & mx & Hmm & Hmn & Hmx).
    { intros ->. done. }
    exists mn, mx.
    assert (Hin : v ∈ field) by (apply list_elem_of_lookup; eauto).
    assert (Hbounds : (mn <= v <= mx)%R).
    { split; [by apply Hmn | by apply Hmx]. }
    pose proof (scaled_bounds mn mx v Hbounds) as Hs.
    split_and!; [done|lia|lia|].
    rewrite (normalizeArray_lookup field mn mx j v Hmm Hv).
    by rewrite toUint8_small.
Qed.

Lemma byte_outputs_in_range_witness :
  let imageData := mkImageData 1 1 [255; 255; 255; 255] in
  let field := [3; 1; 2]%R in
  (0 ≤ luminosity 255 255 255 ≤ 255 ∧
   get (toGrayscale imageData) 0 = Some (luminosity 255 255 255)) ∧
  (∃ mn mx, minmax field = (Some mn, Some mx) ∧
     0 ≤ scaled mn (rangeOf mn mx) 3%R ≤ 255 ∧
     normalizeArray field !! 0%nat = Some (scaled mn (rangeOf mn mx) 3%R)).
Proof.
  intros imageData field.
  apply (byte_outputs_in_range imageData 0 255 255 255 field 0%nat 3%R);
    [ | simpl; lia | reflexivity | reflexivity | reflexivity | reflexivity].
  repeat constructor; lia.
Defined.

(** ** Sobel edge detection *)

Lemma gradients_readable gray width x y a b c d e f g h i :
  get gray ((y + -1) * width + (x + -1)) = Some a →
  get gray ((y + -1) * width + (x + 0)) = Some b →
  get gray ((y + -1) * width + (x + 1)) = Some c →
  get gray ((y + 0) * width + (x + -1)) = Some d →
  get gray ((y + 0) * width + (x + 0)) = Some e →
  get gray ((y + 0) * width + (x + 1)) = Some f →
  get gray ((y + 1) * width + (x + -1)) = Some g →
  get gray ((y + 1) * width + (x + 0)) = Some h →
  get gray ((y + 1) * width + (x + 1)) = Some i →
  gradients gray width x y
  = (Some (sobelGx a b c d e f g h i), Some (sobelGy a b c d e f g h i), 9).
Proof.
  intros Ha Hb Hc Hd He Hf Hg Hh Hi.
  unfold gradients, for_.
  change (range (-1) 2) with [-1; 0; 1]. cbn [foldl].
  rewrite Ha, Hb, Hc, Hd, He, Hf, Hg, Hh, Hi.
  unfold accumulate, sobelGx, sobelGy. simpl.
  f_equal; try reflexivity. f_equal; f_equal; lia.
Qed.

Lemma sobel_sum_of_squares a b c d e f g h i :
  0 ≤ a ≤ 255 → 0 ≤ b ≤ 255 → 0 ≤ c ≤ 255 → 0 ≤ d ≤ 255 →
  0 ≤ f ≤ 255 → 0 ≤ g ≤ 255 → 0 ≤ h ≤ 255 → 0 ≤ i ≤ 255 →
  let gx := sobelGx a b c d e f g h i in
  let gy := sobelGy a b c d e f g h i in
  0 ≤ gx * gx + gy * gy ≤ 1300500.
Proof.
  intros Ha Hb Hc Hd Hf Hg Hh Hi gx gy.
  set (A := Z.abs ((i - a) + (c - g))).
  set (B := Z.abs ((i - a) - (c - g))).
  assert (HA : 0 ≤ A) by apply Z.abs_nonneg.
  assert (HB : 0 ≤ B) by apply Z.abs_nonneg.
  assert (HAB : A + B ≤ 510) by (unfold A, B; lia).
  assert (Hgx : - (A + 510) ≤ gx ≤ A + 510).
  { unfold gx, sobelGx, A. lia. }
  assert (Hgy : - (B + 510) ≤ gy ≤ B + 510).
  { unfold gy, sobelGy, B. lia. }
  assert (Hx2 : gx * gx ≤ (A + 510) * (A + 510)) by nia.
  assert (Hy2 : gy * gy ≤ (B + 510) * (B + 510)) by nia.
  split; [nia|].
  assert ((A + 510) * (A + 510) + (B + 510) * (B + 510) ≤ 1300500).
  { clear - HA HB HAB. clearbody A B.
    assert (0 ≤ A * B) by (apply Z.mul_nonneg_nonneg; lia).
    assert ((A + B) * (A + B) ≤ 510 * 510)
      by (apply Z.mul_le_mono_nonneg; lia).
    lia. }
  lia.
Qed.

Local Open Scope R_scope.

Lemma magnitude_bounds gx gy :
  (0 ≤ gx * gx + gy * gy ≤ 1300500)%Z → 0 <= magnitude gx gy <= sqrt 20.
Proof.
  intros [Hlo Hhi]. unfold magnitude.
  assert (H0 : 0 <= IZR (gx * gx + gy * gy)) by (apply IZR_le; lia).
  assert (H1 : IZR (gx * gx + gy * gy) <= 20 * (255 * 255)).
  { replace (20 * (255 * 255)) with (IZR 1300500) by (simpl; lra).
    apply IZR_le. lia. }
  pose proof (sqrt_pos (IZR (gx * gx + gy * gy))) as Hpos.
  apply sqrt_le_1_alt in H1.
  rewrite sqrt_mult, sqrt_square in H1 by lra.
  split.
  - apply Rmult_le_pos; [done|]. lra.
  - apply (Rmult_le_reg_r 255); [lra|].
    replace (sqrt (IZR (gx * gx + gy * gy)) / 255 * 255)
      with (sqrt (IZR (gx * gx + gy * gy))) by (field; lra).
    exact H1.
Qed.

Local Close Scope R_scope.

(** In a field of the right size every interior pixel has its nine
    neighbours inside the buffer. *)
Lemma sobelAt_interior gray width height x y :
  length gray = Z.to_nat (width * height) →
  Forall (λ s, 0 ≤ s ≤ 255) gray →
  1 ≤ x < width - 1 → 1 ≤ y < height - 1 →
  ∃ gx gy, sobelAt gray width x y = Some (magnitude gx gy) ∧
           0 ≤ gx * gx + gy * gy ≤ 1300500.
Proof.
  intros Hlen Hbytes Hx Hy.
  assert (Hread : ∀ ky kx, -1 ≤ ky ≤ 1 → -1 ≤ kx ≤ 1 →
            ∃ s, get gray ((y + ky) * width + (x + kx)) = Some s ∧ 0 ≤ s ≤ 255).
  { intros ky kx Hky Hkx.
    destruct (get_is_Some gray ((y + ky) * width + (x + kx))) as [s Hs].
    { pose proof (index_in_field width height (y + ky) (x + kx)). lia. }
    exists s. split; [done|]. unfold get in Hs. case_decide; [|done].
    rewrite Forall_lookup in Hbytes. by eapply Hbytes. }
  destruct (Hread (-1) (-1)) as (a & Ha & Ha'); [lia..|].
  destruct (Hread (-1) 0) as (b & Hb & Hb'); [lia..|].
  destruct (Hread (-1) 1) as (c & Hc & Hc'); [lia..|].
  destruct (Hread 0 (-1)) as (d & Hd & Hd'); [lia..|].
  destruct (Hread 0 0) as (e & He & He'); [lia..|].
  destruct (Hread 0 1) as (f & Hf & Hf'); [lia..|].
  destruct (Hread 1 (-1)) as (g & Hg & Hg'); [lia..|].
  destruct (Hread 1 0) as (h & Hh & Hh'); [lia..|].
  destruct (Hread 1 1) as (i & Hi & Hi'); [lia..|].
  exists (sobelGx a b c d e f g h i), (sobelGy a b c d e f g h i). split.
  - unfold sobelAt.
    rewrite (gradients_readable gray width x y a b c d e f g h i) by done.
    reflexivity.
  - by apply sobel_sum_of_squares.
Qed.

Lemma sobelEdges_raster gray width height :
  length gray = Z.to_nat (width * height) →
  Forall (λ s, 0 ≤ s ≤ 255) gray →
  sobelEdges gray width height
  = Ok (raster (λ x y, default 0%R (sobelAt gray width x y))
          width 1 (width - 1) 1 (height - 1) (alloc 0%R (width * height))).
Proof.
  intros Hlen Hbytes. unfold sobelEdges. apply raster_Ok.
  intros x y Hx Hy.
  destruct (sobelAt_interior gray width height x y) as (gx & gy & -> & _);
    done.
Qed.

(** The bound of the Sobel stage is attained: below and right of a
    bright corner, [gx = 1020] and [gy = 510]. *)
Lemma sobel_bound_attained :
  sobelAt [0; 0; 255; 0; 0; 255; 0; 255; 255] 3 1 1 = Some (sqrt 20).
Proof.
  unfold sobelAt.
  rewrite (gradients_readable _ 3 1 1 0 0 255 0 0 255 0 255 255) by reflexivity.
  change (sobelGx 0 0 255 0 0 255 0 255 255) with 1020.
  change (sobelGy 0 0 255 0 0 255 0 255 255) with 510.
  simpl. f_equal. unfold magnitude.
  change (1020 * 1020 + 510 * 510) with 1300500.
  replace (IZR 1300500) with (20 * (255 * 255))%R by lra.
  rewrite sqrt_mult, sqrt_square by lra. field.
Qed.

(** C5, as the code has it: on a field of 8-bit intensities every edge
    value lies in [[0, 4.5]] (not in [[0, 1.4]]), and the pixels of the
    first and last row and column are exactly 0.  The bound leaves room
    for the rounding of the stored 32-bit value: the largest magnitude is
    [sqrt 20], about 4.4721. *)
Theorem sobelEdges_range gray width height :
  length gray = Z.to_nat (width * height) →
  Forall (λ s, 0 ≤ s ≤ 255) gray →
  ∃ edges, sobelEdges gray width height = Ok edges ∧
    length edges = Z.to_nat (width * height) ∧
    ∀ x y, 0 ≤ x < width → 0 ≤ y < height →
      ∃ v, get edges (y * width + x) = Some v ∧
           (0 <= v <= 9 / 2)%R ∧
           (x = 0 ∨ x = width - 1 ∨ y = 0 ∨ y = height - 1 → v = 0%R).
Proof.
  intros Hlen Hbytes. eexists. split; [by apply sobelEdges_raster|].
  split; [by rewrite length_raster, length_alloc|].
  intros x y Hx Hy. rewrite get_raster by lia.
  rewrite get_alloc by (by apply index_in_field).
  assert (Hsqrt : (sqrt 20 <= 9 / 2)%R).
  { rewrite <- (sqrt_square (9 / 2)) by lra. apply sqrt_le_1_alt. lra. }
  destruct (decide ((1 ≤ x < width - 1) ∧ (1 ≤ y < height - 1)))
    as [[Hx' Hy']|Hborder].
  - destruct (sobelAt_interior gray width height x y) as (gx & gy & -> & Hsq);
      [done..|].
    eexists. split; [reflexivity|].
    pose proof (magnitude_bounds gx gy Hsq) as Hm.
    split; [|intros Hedge; lia].
    change (0 <= magnitude gx gy <= 9 / 2)%R. lra.
  - exists 0%R. split; [reflexivity|]. split; [lra|done].
Qed.

Lemma sobelEdges_range_witness :
  ∃ edges, sobelEdges [10; 20; 30; 40; 50; 60; 70; 80; 90] 3 3 = Ok edges ∧
    length edges = Z.to_nat (3 * 3) ∧
    ∀ x y, 0 ≤ x < 3 → 0 ≤ y < 3 →
      ∃ v, get edges (y * 3 + x) = Some v ∧
           (0 <= v <= 9 / 2)%R ∧
           (x = 0 ∨ x = 3 - 1 ∨ y = 0 ∨ y = 3 - 1 → v = 0%R).
Proof.
  apply (sobelEdges_range [10; 20; 30; 40; 50; 60; 70; 80; 90] 3 3);
    [reflexivity|]. repeat constructor; lia.
Defined.

(** C5 as stated fails: next to a vertical step from 0 to 255 the edge
    value is 4. *)
Lemma sobelEdges_step_is_4 :
  ∃ edges, sobelEdges [0; 0; 255; 0; 0; 255; 0; 0; 255] 3 3 = Ok edges ∧
    get edges (1 * 3 + 1) = Some 4%R ∧ ¬ (4 <= 1.5)%R.
Proof.
  assert (Hcentre : sobelAt [0; 0; 255; 0; 0; 255; 0; 0; 255] 3 1 1 = Some 4%R).
  { unfold sobelAt.
    rewrite (gradients_readable _ 3 1 1 0 0 255 0 0 255 0 0 255) by reflexivity.
    change (sobelGx 0 0 255 0 0 255 0 0 255) with 1020.
    change (sobelGy 0 0 255 0 0 255 0 0 255) with 0.
    simpl. f_equal. unfold magnitude.
    change (1020 * 1020 + 0 * 0) with 1040400.
    replace (IZR 1040400) with (1020 * 1020)%R by lra.
    rewrite sqrt_square by lra. lra. }
  eexists. split; [apply sobelEdges_raster; [reflexivity|]|].
  { repeat constructor; lia. }
  split; [|lra].
  rewrite get_raster by lia. rewrite decide_True by lia.
  rewrite get_alloc by lia. rewrite Hcentre. reflexivity.
Qed.

(** ** Radial gradient *)

Local Open Scope R_scope.

Lemma maxDist_is_corner_distance width height :
  sqrt (IZR width / 2 * (IZR width / 2) + IZR height / 2 * (IZR height / 2))
  = centerDistance width height 0 0.
Proof. unfold centerDistance. f_equal. lra. Qed.

Lemma centerDistance_le_corner width height x y :
  (0 ≤ x < width)%Z → (0 ≤ y < height)%Z →
  0 <= centerDistance width height x y <= centerDistance width height 0 0.
Proof.
  intros Hx Hy. unfold centerDistance. split; [apply sqrt_pos|].
  apply sqrt_le_1_alt.
  assert (0 <= IZR x <= IZR width - 1).
  { split; [apply IZR_le; lia|].
    rewrite <- minus_IZR. apply IZR_le. lia. }
  assert (0 <= IZR y <= IZR height - 1).
  { split; [apply IZR_le; lia|].
    rewrite <- minus_IZR. apply IZR_le. lia. }
  nra.
Qed.

Lemma corner_distance_pos width height :
  (0 < width)%Z → 0 < centerDistance width height 0 0.
Proof.
  intros Hw. unfold centerDistance. apply sqrt_lt_R0.
  assert (1 <= IZR width) by (apply IZR_le; lia). nra.
Qed.

Local Close Scope R_scope.

Lemma radialGradient_raster width height :
  radialGradient width height
  = raster (λ x y, (1 - centerDistance width height x y
                        / centerDistance width height 0 0)%R)
      width 0 width 0 height (alloc 0%R (width * height)).
Proof.
  unfold radialGradient. rewrite maxDist_is_corner_distance. reflexivity.
Qed.

(** C8: with the Euclidean distance written out, every value of the
    radial gradient is [1 - distance((x, y), (W/2, H/2)) / maxDist], where
    [maxDist] is the distance from the centre to the corner [(0, 0)]; it
    lies in [[0, 1]] and does not increase with the distance from the
    centre. *)
Theorem radialGradient_range_monotone width height :
  0 < width → 0 < height →
  let distance (x y : Z) :=
    sqrt ((IZR x - IZR width / 2) * (IZR x - IZR width / 2)
          + (IZR y - IZR height / 2) * (IZR y - IZR height / 2))%R in
  let maxDist := distance 0 0 in
  (∀ x y, 0 ≤ x < width → 0 ≤ y < height →
     ∃ v, get (radialGradient width height) (y * width + x) = Some v ∧
          v = (1 - distance x y / maxDist)%R ∧ (0 <= v <= 1)%R) ∧
  (∀ px py qx qy, 0 ≤ px < width → 0 ≤ py < height →
     0 ≤ qx < width → 0 ≤ qy < height →
     (distance px py <= distance qx qy)%R →
     ∀ vp vq,
       get (radialGradient width height) (py * width + px) = Some vp →
       get (radialGradient width height) (qy * width + qx) = Some vq →
       (vq <= vp)%R).
Proof.
  intros Hw Hh distance maxDist.
  assert (Hdist : ∀ x y, distance x y = centerDistance width height x y)
    by done.
  assert (Hmax : maxDist = centerDistance width height 0 0) by done.
  clearbody maxDist distance.
  pose proof (corner_distance_pos width height Hw) as Hpos.
  rewrite <- Hmax in Hpos.
  assert (Hinv : (0 < / maxDist)%R) by (by apply Rinv_0_lt_compat).
  assert (Hone : (maxDist * / maxDist = 1)%R) by (apply Rinv_r; lra).
  assert (Hget : ∀ x y, 0 ≤ x < width → 0 ≤ y < height →
            get (radialGradient width height) (y * width + x)
            = Some (1 - distance x y / maxDist)%R).
  { intros x y Hx Hy. rewrite radialGradient_raster.
    rewrite raster_full_pixel; [|done..|by rewrite length_alloc].
    by rewrite Hdist, Hmax. }
  split.
  - intros x y Hx Hy. eexists. split; [by apply Hget|]. split; [done|].
    pose proof (centerDistance_le_corner width height x y Hx Hy) as Hd.
    rewrite <- Hdist, <- Hmax in Hd. unfold Rdiv. split; nra.
  - intros px py qx qy Hpx Hpy Hqx Hqy Hle vp vq.
    rewrite !Hget by done. intros [= <-] [= <-].
    unfold Rdiv. nra.
Qed.

Lemma radialGradient_range_monotone_witness :
  let distance (x y : Z) :=
    sqrt ((IZR x - IZR 4 / 2) * (IZR x - IZR 4 / 2)
          + (IZR y - IZR 3 / 2) * (IZR y - IZR 3 / 2))%R in
  let maxDist := distance 0 0 in
  (∀ x y, 0 ≤ x < 4 → 0 ≤ y < 3 →
     ∃ v, get (radialGradient 4 3) (y * 4 + x) = Some v ∧
          v = (1 - distance x y / maxDist)%R ∧ (0 <= v <= 1)%R) ∧
  (∀ px py qx qy, 0 ≤ px < 4 → 0 ≤ py < 3 → 0 ≤ qx < 4 → 0 ≤ qy < 3 →
     (distance px py <= distance qx qy)%R →
     ∀ vp vq,
       get (radialGradient 4 3) (py * 4 + px) = Some vp →
       get (radialGradient 4 3) (qy * 4 + qx) = Some vq →
       (vq <= vp)%R).
Proof.
  apply (radialGradient_range_monotone 4 3); lia.
Defined.

(** ** Gaussian blur *)

Lemma length_gaussianKernel sigma half :
  length (gaussianKernel sigma half) = Z.to_nat (2 * half + 1).
Proof.
  unfold gaussianKernel.
  assert (Hlen : length (gaussianWeights sigma half).1 = Z.to_nat (2 * half + 1)).
  { unfold gaussianWeights.
    destruct (decide (- half ≤ half + 1)) as [Hle|Hgt].
    - pose (P := λ (i : Z) (st : list R * R), length st.1 = Z.to_nat (i + half)).
      enough (HP : P (half + 1) (for_ (- half) (half + 1) (λ i '(kernel, sum),
                let val := exp (- IZR (i * i) / (2 * sigma * sigma)) in
                (kernel ++ [val], (sum + val)%R)) ([], 0%R))).
      { unfold P in HP. rewrite HP. f_equal. lia. }
      apply for_invariant; [done| |]; unfold P.
      + simpl. lia.
      + intros i [kernel sum] Hi Hk. simpl in *.
        rewrite length_app, Hk. simpl. lia.
    - rewrite for_nil by lia. simpl. lia. }
  destruct (gaussianWeights sigma half) as [kernel sum]. simpl in Hlen.
  by rewrite length_fmap.
Qed.

Lemma convolve_is_Some read kernel half :
  length kernel = Z.to_nat (2 * half + 1) →
  (∀ k, - half ≤ k ≤ half → is_Some (read k)) →
  is_Some (convolve read kernel half).
Proof.
  intros Hlen Hread. unfold convolve.
  apply (for_preserves (λ val : option R, is_Some val)); [eauto|].
  intros k val Hk [v ->].
  destruct (Hread k) as [d ->]; [lia|].
  destruct (get_is_Some kernel (k + half)) as [w ->]; [lia|].
  simpl. eauto.
Qed.

Lemma convolve_zero read kernel half :
  length kernel = Z.to_nat (2 * half + 1) →
  (∀ k, - half ≤ k ≤ half → read k = Some 0%R) →
  convolve read kernel half = Some 0%R.
Proof.
  intros Hlen Hread. unfold convolve.
  apply (for_preserves (λ val : option R, val = Some 0%R)); [done|].
  intros k val Hk ->. rewrite Hread by lia.
  destruct (get_is_Some kernel (k + half)) as [w ->]; [lia|].
  simpl. f_equal. lra.
Qed.

Lemma clamped_index_in_field width height x y :
  0 < width → 0 < height →
  0 ≤ clamp (height - 1) y * width + clamp (width - 1) x < width * height.
Proof.
  intros Hw Hh. apply index_in_field.
  - pose proof (clamp_bounds (height - 1) y). lia.
  - pose proof (clamp_bounds (width - 1) x). lia.
Qed.

Lemma Some_default {A} (d : A) (o : option A) :
  is_Some o → o = Some (default d o).
Proof. intros [v ->]. reflexivity. Qed.

Lemma bind_Ok {A B} (f : A → outcome B) (a : A) : (Ok a ≫= f) = f a.
Proof. reflexivity. Qed.

(** On a field of the right size both passes only read inside their
    buffers, so the blur returns a field of the same size. *)
Lemma gaussianBlur_total data width height sigma :
  length data = Z.to_nat (width * height) →
  ∃ result, gaussianBlur data width height sigma = Ok result ∧
            length result = length data.
Proof.
  intros Hlen. unfold gaussianBlur.
  set (half := (Zceil (sigma * 3) * 2 + 1) / 2).
  set (kernel := gaussianKernel sigma half).
  assert (Hk : length kernel = Z.to_nat (2 * half + 1))
    by apply length_gaussianKernel.
  rewrite (raster_Ok _ (λ x y, default 0%R
             (convolve (λ k, get data (y * width + clamp (width - 1) (x + k)))
                kernel half))).
  2:{ intros x y Hx Hy. apply Some_default, convolve_is_Some; [done|].
      intros k _. apply get_is_Some.
      pose proof (clamp_bounds (width - 1) (x + k)).
      pose proof (index_in_field width height y (clamp (width - 1) (x + k))).
      lia. }
  rewrite bind_Ok.
  set (temp := raster _ width 0 width 0 height _).
  assert (Htemp : length temp = Z.to_nat (width * height)).
  { unfold temp. rewrite length_raster, length_alloc. lia. }
  rewrite (raster_Ok _ (λ x y, default 0%R
             (convolve (λ k, get temp (clamp (height - 1) (y + k) * width + x))
                kernel half))).
  2:{ intros x y Hx Hy. apply Some_default, convolve_is_Some; [done|].
      intros k _. apply get_is_Some.
      pose proof (clamp_bounds (height - 1) (y + k)).
      pose proof (index_in_field width height (clamp (height - 1) (y + k)) x).
      lia. }
  eexists. split; [reflexivity|].
  rewrite length_raster, length_alloc. lia.
Qed.

Lemma raster_zero {A} (zero : A) width xlo xhi ylo yhi n :
  raster (λ _ _, zero) width xlo xhi ylo yhi (alloc zero n) = alloc zero n.
Proof.
  unfold raster.
  apply (for_preserves (λ t, t = alloc zero n)); [done|].
  intros y t _ ->.
  apply (for_preserves (λ t, t = alloc zero n)); [done|].
  intros x t _ ->. apply put_alloc_same.
Qed.

(** Blurring zeros gives zeros, whatever the weights. *)
Lemma gaussianBlur_zero width height sigma :
  let zeros := replicate (Z.to_nat (width * height)) 0%R in
  gaussianBlur zeros width height sigma = Ok zeros.
Proof.
  intros zeros. unfold gaussianBlur.
  set (half := (Zceil (sigma * 3) * 2 + 1) / 2).
  set (kernel := gaussianKernel sigma half).
  assert (Hk : length kernel = Z.to_nat (2 * half + 1))
    by apply length_gaussianKernel.
  assert (Hzeros : alloc 0%R (Z.of_nat (length zeros)) = zeros).
  { unfold alloc, zeros. rewrite length_replicate. f_equal. lia. }
  assert (Hread : ∀ i, 0 ≤ i < width * height → get zeros i = Some 0%R).
  { intros i Hi. unfold zeros. by apply get_alloc. }
  rewrite Hzeros.
  rewrite (raster_Ok _ (λ _ _, 0%R)).
  2:{ intros x y Hx Hy. apply convolve_zero; [done|].
      intros k _. apply Hread.
      pose proof (clamp_bounds (width - 1) (x + k)).
      pose proof (index_in_field width height y (clamp (width - 1) (x + k))).
      lia. }
  rewrite bind_Ok. unfold zeros at 1. fold (alloc 0%R (width * height)).
  rewrite raster_zero.
  rewrite (raster_Ok _ (λ _ _, 0%R)).
  2:{ intros x y Hx Hy. apply convolve_zero; [done|].
      intros k _. apply Hread.
      pose proof (clamp_bounds (height - 1) (y + k)).
      pose proof (index_in_field width height (clamp (height - 1) (y + k)) x).
      lia. }
  unfold zeros. fold (alloc 0%R (width * height)). by rewrite raster_zero.
Qed.

(** ** The median filter on arbitrary fields *)

Section MedianTotal.
Context {A : Type} (lt : A → A → bool) (zero : A).

Lemma length_insert_sorted x l :
  length (insert_sorted lt x l) = S (length l).
Proof.
  induction l as [|y l IH]; [done|].
  simpl. destruct (lt x y); simpl; [done|]. by rewrite IH.
Qed.

Lemma length_sort_numbers l : length (sort_numbers lt l) = length l.
Proof.
  unfold sort_numbers.
  enough (Hgen : ∀ acc, length (foldl (λ acc x, insert_sorted lt x acc) acc l)
                        = (length acc + length l)%nat) by apply (Hgen []).
  induction l as [|x l IH]; intros acc; simpl; [lia|].
  rewrite IH, length_insert_sorted. lia.
Qed.

Lemma length_omap_Some (kernel : list (option A)) :
  Forall is_Some kernel → length (omap (λ v, v) kernel) = length kernel.
Proof.
  induction 1 as [|o kernel [v ->] _ IH]; [done|]. simpl. f_equal. exact IH.
Qed.

Lemma medianAt_is_Some data width height half x y :
  length data = Z.to_nat (width * height) →
  0 < width → 0 < height → 0 ≤ half →
  is_Some (medianAt lt data width height half x y).
Proof.
  intros Hlen Hw Hh Hhalf. unfold medianAt.
  set (kernel := gather data width height half x y).
  assert (Hall : Forall is_Some kernel).
  { apply Forall_forall. intros v (ky & kx & _ & _ & ->)%elem_of_gather.
    apply get_is_Some.
    pose proof (clamped_index_in_field width height (x + kx) (y + ky)). lia. }
  assert (Hne : (0 < length kernel)%nat).
  { assert (Hin : get data (clamp (height - 1) (y + 0) * width
                            + clamp (width - 1) (x + 0)) ∈ kernel).
    { apply elem_of_gather. exists 0, 0. split_and!; [lia..|done]. }
    destruct kernel; [by apply elem_of_nil in Hin | simpl; lia]. }
  unfold sort_kernel. cbv zeta.
  rewrite length_app, length_fmap, length_sort_numbers, length_replicate.
  rewrite length_omap_Some by done.
  rewrite Nat.sub_diag, Nat.add_0_r. simpl replicate. rewrite app_nil_r.
  destruct (lookup_lt_is_Some_2 (sort_numbers lt (omap (λ v, v) kernel))
              (length kernel `div` 2)) as [v Hv].
  { rewrite length_sort_numbers, length_omap_Some by done.
    apply Nat.div_lt; lia. }
  rewrite list_lookup_fmap, Hv. simpl. eauto.
Qed.

Lemma medianFilter_total data width height kernelSize :
  length data = Z.to_nat (width * height) → 0 ≤ kernelSize →
  ∃ result, medianFilter lt zero data width height kernelSize = Ok result ∧
            length result = length data.
Proof.
  intros Hlen Hk. unfold medianFilter.
  rewrite (raster_Ok _ (λ x y, default zero
             (medianAt lt data width height (kernelSize / 2) x y))).
  - eexists. split; [reflexivity|].
    rewrite length_raster, length_alloc. lia.
  - intros x y Hx Hy. apply Some_default, medianAt_is_Some; [done|lia..|].
    apply Z.div_pos; lia.
Qed.
End MedianTotal.

(** ** The stereo pipeline *)

Lemma fillDepth_zeros n :
  fillDepth (U8 (replicate n 0)) = mjoin (replicate n [0; 0; 0; 255]).
Proof.
  simpl. induction n as [|n IH]; [done|].
  simpl. do 4 f_equal. exact IH.
Qed.

(** A pair of identical images, smoothed and normalised, gives the zero
    depth map for every block size and search range. *)
Lemma computeDepthMap_identical imageData options :
  0 ≤ width imageData → 0 ≤ height imageData →
  default true (smoothing options) = true →
  default true (normalize options) = true →
  let n := Z.to_nat (width imageData * height imageData) in
  computeDepthMap imageData imageData options
  = Ok {| depthData := mjoin (replicate n [0; 0; 0; 255]);
          disparityArray := U8 (replicate n 0) |}.
Proof.
  intros Hw Hh Hsmooth Hnorm n. unfold computeDepthMap.
  rewrite Hsmooth, Hnorm, blockMatch_identical_zero.
  unfold alloc. fold n. rewrite fmap_replicate.
  unfold n. rewrite medianFilter_constant by lia.
  rewrite bind_Ok, gaussianBlur_zero, bind_Ok.
  rewrite normalizeArray_constant, fillDepth_zeros. reflexivity.
Qed.

Lemma blockMatch_half left right width height blockSize blockSize' maxDisparity :
  blockSize / 2 = blockSize' / 2 →
  blockMatch left right width height blockSize maxDisparity
  = blockMatch left right width height blockSize' maxDisparity.
Proof. intros Hhalf. unfold blockMatch. rewrite Hhalf. reflexivity. Qed.

(** The pipeline has no abnormal exit. *)
Lemma computeDepthMap_total leftData rightData options :
  ∃ result, computeDepthMap leftData rightData options = Ok result ∧
    bufferLength (disparityArray result)
    = Z.to_nat (width leftData * height leftData).
Proof.
  unfold computeDepthMap.
  set (disparity := IZR <$> blockMatch _ _ _ _ _ _).
  assert (Hlen : length disparity
            = Z.to_nat (width leftData * height leftData)).
  { unfold disparity. by rewrite length_fmap, length_blockMatch. }
  assert (Hprocessed : ∃ processed,
            (if default true (smoothing options)
             then filtered ← medianFilter ltR 0%R disparity
                               (width leftData) (height leftData) 3;
                  gaussianBlur filtered (width leftData) (height leftData) 2
             else Ok disparity) = Ok processed ∧
            length processed = Z.to_nat (width leftData * height leftData)).
  { destruct (default true (smoothing options)); [|eauto].
    destruct (medianFilter_total ltR 0%R disparity (width leftData)
                (height leftData) 3 Hlen) as (filtered & -> & Hf); [lia|].
    rewrite bind_Ok.
    destruct (gaussianBlur_total filtered (width leftData) (height leftData) 2)
      as (blurred & -> & Hb); [lia|].
    exists blurred. split; [done|lia]. }
  destruct Hprocessed as (processed & -> & Hp). rewrite bind_Ok.
  eexists. split; [reflexivity|]. simpl.
  destruct (default true (normalize options)); simpl;
    [by rewrite length_normalizeArray | done].
Qed.

(** ** The claims about the pipeline *)

(** C6: two identical 16 x 16 images of gray value 100, with smoothing
    and normalisation enabled, give a depth map whose every value is 0,
    for every block size and search range. *)
Theorem stereo_identical_gray_is_zero (blockSize maxDisparity : option Z) :
  let image := grayImage 16 16 100 in
  computeDepthMap image image
    {| blockSize := blockSize; maxDisparity := maxDisparity;
       smoothing := Some true; normalize := Some true |}
  = Ok {| depthData := mjoin (replicate 256 [0; 0; 0; 255]);
          disparityArray := U8 (replicate 256 0) |}.
Proof.
  intros image.
  apply (computeDepthMap_identical image); [simpl; lia | simpl; lia | done..].
Qed.

(** C1 as stated fails: with [blockSize = 8] the pipeline runs to the end
    and returns a depth map. *)
Lemma even_blockSize_is_accepted :
  let image := grayImage 16 16 100 in
  let options := {| blockSize := Some 8; maxDisparity := None;
                    smoothing := None; normalize := None |} in
  computeDepthMap image image options
  = Ok {| depthData := mjoin (replicate 256 [0; 0; 0; 255]);
          disparityArray := U8 (replicate 256 0) |} ∧
  computeDepthMap image image options ≠ Abort InvalidConfig.
Proof.
  intros image options.
  assert (Hrun : computeDepthMap image image options
            = Ok {| depthData := mjoin (replicate 256 [0; 0; 0; 255]);
                    disparityArray := U8 (replicate 256 0) |}).
  { apply (computeDepthMap_identical image); [simpl; lia | simpl; lia | done..]. }
  split; [exact Hrun|]. rewrite Hrun. discriminate.
Qed.

(** C1, as the code has it: there is no validation.  For every
    configuration, an even or non-positive block size included, and
    every pair of images, the pipeline raises nothing and returns a
    buffer of [width * height] values; the block matcher uses
    [floor(blockSize / 2)], so an even block size [2 k] is matched
    exactly as [2 k + 1]. *)
Theorem computeDepthMap_never_raises leftData rightData options :
  0 < width leftData → 0 < height leftData →
  (∃ result, computeDepthMap leftData rightData options = Ok result ∧
     bufferLength (disparityArray result)
     = Z.to_nat (width leftData * height leftData)) ∧
  (∀ e, computeDepthMap leftData rightData options ≠ Abort e) ∧
  (∀ k, computeDepthMap leftData rightData (withBlockSize options (2 * k))
        = computeDepthMap leftData rightData
            (withBlockSize options (2 * k + 1))).
Proof.
  intros _ _.
  destruct (computeDepthMap_total leftData rightData options)
    as (result & Hrun & Hlen).
  split_and!.
  - eauto.
  - intros e. rewrite Hrun. discriminate.
  - intros k. unfold computeDepthMap, withBlockSize. simpl.
    rewrite (blockMatch_half _ _ _ _ (2 * k) (2 * k + 1)); [done|].
    Z.div_mod_to_equations. lia.
Qed.

Lemma computeDepthMap_never_raises_witness :
  let leftData := mkImageData 2 1 [10; 20; 30; 255; 40; 50; 60; 255] in
  let rightData := mkImageData 2 1 [12; 22; 32; 255; 42; 52; 62; 255] in
  let options := {| blockSize := Some 8; maxDisparity := Some 4;
                    smoothing := Some true; normalize := Some true |} in
  (∃ result, computeDepthMap leftData rightData options = Ok result ∧
     bufferLength (disparityArray result) = Z.to_nat (2 * 1)) ∧
  (∀ e, computeDepthMap leftData rightData options ≠ Abort e) ∧
  (∀ k, computeDepthMap leftData rightData (withBlockSize options (2 * k))
        = computeDepthMap leftData rightData
            (withBlockSize options (2 * k + 1))).
Proof.
  intros leftData rightData options.
  apply (computeDepthMap_never_raises leftData rightData options); simpl; lia.
Defined.

(** * Further properties of the stages *)

(** ** The Gaussian kernel and the two passes *)

Local Open Scope R_scope.

Lemma sumR_cons w l : sumR (w :: l) = w + sumR l.
Proof. reflexivity. Qed.

Lemma sumR_snoc l v : sumR (l ++ [v]) = sumR l + v.
Proof.
  induction l as [|w l IH]; [simpl; lra|].
  rewrite <- app_comm_cons, !sumR_cons, IH. lra.
Qed.

Lemma sumR_scale l s : sumR ((λ w, w / s) <$> l) = sumR l / s.
Proof.
  induction l as [|w l IH]; [simpl; unfold Rdiv; lra|].
  rewrite fmap_cons, !sumR_cons, IH. unfold Rdiv. lra.
Qed.

Lemma sumR_nonneg l : Forall (λ w, 0 < w) l → 0 <= sumR l.
Proof.
  induction 1 as [|w l Hw _ IH]; [simpl; lra|]. rewrite sumR_cons. lra.
Qed.

Lemma sumR_pos l : l ≠ [] → Forall (λ w, 0 < w) l → 0 < sumR l.
Proof.
  intros Hne Hall. destruct Hall as [|w l Hw Hall]; [done|].
  rewrite sumR_cons. pose proof (sumR_nonneg l Hall). lra.
Qed.

(** The first loop of [gaussianBlur] keeps [sum] equal to the sum of the
    weights pushed so far, and every weight is positive. *)
Lemma gaussianWeights_spec sigma half :
  let st := gaussianWeights sigma half in
  st.2 = sumR st.1 ∧ Forall (λ w, 0 < w) st.1.
Proof.
  unfold gaussianWeights.
  apply (for_preserves (λ st : list R * R,
           st.2 = sumR st.1 ∧ Forall (λ w, 0 < w) st.1)).
  - split; [done|constructor].
  - intros i [kernel sum] _ [Hsum Hall]. simpl in *. split.
    + rewrite sumR_snoc, Hsum. reflexivity.
    + apply Forall_app. split; [done|]. repeat constructor. apply exp_pos.
Qed.

Lemma gaussianKernel_weights sigma half :
  (0 ≤ half)%Z →
  Forall (λ w, 0 < w) (gaussianKernel sigma half) ∧
  sumR (gaussianKernel sigma half) = 1.
Proof.
  intros Hhalf.
  pose proof (length_gaussianKernel sigma half) as Hlen.
  pose proof (gaussianWeights_spec sigma half) as [Hsum Hall].
  unfold gaussianKernel in *.
  destruct (gaussianWeights sigma half) as [kernel sum]. simpl in *.
  rewrite length_fmap in Hlen.
  assert (Hpos : 0 < sum).
  { rewrite Hsum. apply sumR_pos; [|done]. intros ->. simpl in Hlen. lia. }
  split.
  - apply Forall_fmap. eapply Forall_impl; [exact Hall|].
    intros w Hw. simpl. apply Rdiv_lt_0_compat; lra.
  - rewrite sumR_scale, <- Hsum. field. lra.
Qed.

(** A pass is a weighted mean: with non-negative weights it stays
    between [lo] and [hi] times the sum of the weights. *)
Lemma convolve_between read kernel half lo hi :
  (0 ≤ half)%Z →
  length kernel = Z.to_nat (2 * half + 1) →
  Forall (λ w, 0 < w) kernel →
  (∀ k, (- half ≤ k ≤ half)%Z → ∃ d, read k = Some d ∧ lo <= d <= hi) →
  ∃ v, convolve read kernel half = Some v ∧
       lo * sumR kernel <= v <= hi * sumR kernel.
Proof.
  intros Hhalf Hlen Hw Hread. unfold convolve.
  pose (P := λ (i : Z) (val : option R),
    ∃ v, val = Some v ∧
      lo * sumR (take (Z.to_nat (i + half)) kernel) <= v
        <= hi * sumR (take (Z.to_nat (i + half)) kernel)).
  enough (HP : P (half + 1)%Z (for_ (- half) (half + 1)%Z (λ k val,
            v ← val; d ← read k; w ← get kernel (k + half)%Z;
            Some (v + d * w)) (Some 0))).
  { destruct HP as (v & Hv & Hb). exists v. split; [done|].
    rewrite take_ge in Hb by lia. exact Hb. }
  apply for_invariant; [lia| |]; unfold P.
  - exists 0. split; [done|].
    replace (- half + half)%Z with 0%Z by lia. simpl. lra.
  - intros i val Hi (v & -> & Hb).
    destruct (Hread i) as (d & -> & Hd); [lia|].
    destruct (get_is_Some kernel (i + half)) as [w Hget]; [lia|].
    rewrite Hget. simpl. eexists. split; [reflexivity|].
    assert (Hlookup : kernel !! Z.to_nat (i + half) = Some w).
    { unfold get in Hget. by rewrite decide_True in Hget by lia. }
    replace (Z.to_nat (i + 1 + half)) with (S (Z.to_nat (i + half))) by lia.
    rewrite (take_S_r _ _ _ Hlookup), sumR_snoc.
    assert (0 < w).
    { rewrite Forall_lookup in Hw. by eapply Hw. }
    nra.
Qed.

Local Close Scope R_scope.

Lemma Forall_get {A} (P : A → Prop) (l : list A) i v :
  Forall P l → get l i = Some v → P v.
Proof.
  intros Hall Hv. unfold get in Hv. case_decide; [|done].
  rewrite Forall_lookup in Hall. by eapply Hall.
Qed.

Lemma get_of_lookup {A} (l : list A) (n : nat) :
  l !! n = get l (Z.of_nat n).
Proof. unfold get. rewrite decide_True by lia. by rewrite Nat2Z.id. Qed.

(** A stage that writes every pixel of a field of the right size leaves
    only written values. *)
Lemma raster_full_Forall {A} (P : A → Prop) (f : Z → Z → A) width height a :
  0 ≤ width →
  length a = Z.to_nat (width * height) →
  (∀ x y, 0 ≤ x < width → 0 ≤ y < height → P (f x y)) →
  Forall P (raster f width 0 width 0 height a).
Proof.
  intros Hw Hlen Hf. apply Forall_lookup. intros n v Hv.
  assert (Hn : (n < length a)%nat).
  { apply lookup_lt_Some in Hv. by rewrite length_raster in Hv. }
  rewrite get_of_lookup, get_raster_full in Hv by lia.
  injection Hv as <-.
  assert (Hpos : 0 < width).
  { destruct (decide (width = 0)) as [->|]; [|lia]. simpl in Hlen. lia. }
  apply Hf.
  - apply Z.mod_pos_bound. lia.
  - split; [apply Z.div_pos; lia|]. apply Z.div_lt_upper_bound; lia.
Qed.

Lemma gaussian_half_nonneg sigma :
  (0 < sigma)%R → 0 ≤ (Zceil (sigma * 3) * 2 + 1) / 2.
Proof.
  intros Hs. pose proof (Zceil_bound (sigma * 3)) as [_ Hc].
  assert (0 < Zceil (sigma * 3)) by (apply lt_IZR; lra).
  apply Z.div_pos; lia.
Qed.

(** Both passes are weighted means with weights that sum to 1, so the
    blur cannot leave the interval that holds the input. *)
Lemma gaussianBlur_between data width height sigma lo hi :
  0 ≤ width → 0 ≤ height →
  length data = Z.to_nat (width * height) →
  (0 < sigma)%R →
  Forall (λ v, lo <= v <= hi)%R data →
  ∃ result, gaussianBlur data width height sigma = Ok result ∧
    length result = length data ∧
    Forall (λ v, lo <= v <= hi)%R result.
Proof.
  intros Hw Hh Hlen Hsigma Hdata. unfold gaussianBlur.
  set (half := (Zceil (sigma * 3) * 2 + 1) / 2).
  assert (Hhalf : 0 ≤ half) by (by apply gaussian_half_nonneg).
  set (kernel := gaussianKernel sigma half).
  assert (Hk : length kernel = Z.to_nat (2 * half + 1))
    by apply length_gaussianKernel.
  destruct (gaussianKernel_weights sigma half Hhalf) as [Hpos Hone].
  fold kernel in Hpos, Hone.
  assert (Hmean : ∀ read,
    (∀ k, - half ≤ k ≤ half → ∃ d, read k = Some d ∧ (lo <= d <= hi)%R) →
    ∃ v, convolve read kernel half = Some v ∧ (lo <= v <= hi)%R).
  { intros read Hread.
    destruct (convolve_between read kernel half lo hi Hhalf Hk Hpos Hread)
      as (v & Hv & Hb).
    exists v. split; [done|]. rewrite Hone in Hb. lra. }
  assert (Hread1 : ∀ x y, 0 ≤ x < width → 0 ≤ y < height →
    ∃ v, convolve (λ k, get data (y * width + clamp (width - 1) (x + k)))
           kernel half = Some v ∧ (lo <= v <= hi)%R).
  { intros x y Hx Hy. apply Hmean. intros k _.
    destruct (get_is_Some data (y * width + clamp (width - 1) (x + k)))
      as [d Hd].
    { pose proof (clamp_bounds (width - 1) (x + k)).
      pose proof (index_in_field width height y (clamp (width - 1) (x + k))).
      lia. }
    exists d. split; [done|]. exact (Forall_get _ _ _ _ Hdata Hd). }
  rewrite (raster_Ok _ (λ x y, default 0%R
             (convolve (λ k, get data (y * width + clamp (width - 1) (x + k)))
                kernel half))).
  2:{ intros x y Hx Hy. destruct (Hread1 x y) as (v & -> & _); done. }
  rewrite bind_Ok.
  set (temp := raster _ width 0 width 0 height _).
  assert (Htemp : length temp = Z.to_nat (width * height)).
  { unfold temp. rewrite length_raster, length_alloc. lia. }
  assert (Htemp_between : Forall (λ v, lo <= v <= hi)%R temp).
  { apply raster_full_Forall; [done|rewrite length_alloc; lia|].
    intros x y Hx Hy. destruct (Hread1 x y) as (v & -> & Hv); done. }
  assert (Hread2 : ∀ x y, 0 ≤ x < width → 0 ≤ y < height →
    ∃ v, convolve (λ k, get temp (clamp (height - 1) (y + k) * width + x))
           kernel half = Some v ∧ (lo <= v <= hi)%R).
  { intros x y Hx Hy. apply Hmean. intros k _.
    destruct (get_is_Some temp (clamp (height - 1) (y + k) * width + x))
      as [d Hd].
    { pose proof (clamp_bounds (height - 1) (y + k)).
      pose proof (index_in_field width height (clamp (height - 1) (y + k)) x).
      lia. }
    exists d. split; [done|]. exact (Forall_get _ _ _ _ Htemp_between Hd). }
  rewrite (raster_Ok _ (λ x y, default 0%R
             (convolve (λ k, get temp (clamp (height - 1) (y + k) * width + x))
                kernel half))).
  2:{ intros x y Hx Hy. destruct (Hread2 x y) as (v & -> & _); done. }
  eexists. split; [reflexivity|]. split.
  - rewrite length_raster, length_alloc. lia.
  - apply raster_full_Forall; [done|rewrite length_alloc; lia|].
    intros x y Hx Hy. destruct (Hread2 x y) as (v & -> & Hv); done.
Qed.

(** ** The median filter picks a median *)

Section SortFacts.
Context {A : Type} (lt : A → A → bool).


End SortFacts.





Lemma length_bind_const {A B} (f : A → list B) (l : list A) c :
  (∀ a, length (f a) = c) → length (l ≫= f) = (length l * c)%nat.
Proof.
  intros Hf. induction l as [|a l IH]; [done|].
  rewrite bind_cons, length_app, Hf, IH. simpl. lia.
Qed.

Section NeighbourhoodFacts.
Context {A : Type} (lt : A → A → bool) (zero : A).





(** With radius 0 the neighbourhood is the pixel itself. *)
Lemma medianAt_radius_0 (data : list A) width height x y :
  0 ≤ x < width → 0 ≤ y < height →
  medianAt lt data width height 0 x y = get data (y * width + x).
Proof.
  intros Hx Hy. unfold medianAt, gather.
  change (range (- 0) (0 + 1)) with [0]. simpl.
  unfold clamp.
  replace (Z.max 0 (Z.min (height - 1) (y + 0))) with y by lia.
  replace (Z.max 0 (Z.min (width - 1) (x + 0))) with x by lia.
  destruct (get data (y * width + x)) as [v|]; reflexivity.
Qed.
End NeighbourhoodFacts.



(** X2: with [kernelSize] 1 (radius 0) the median filter returns the
    field unchanged, for any element order. *)
Theorem medianFilter_size_1_identity {A : Type} (lt : A → A → bool) (zero : A)
    (data : list A) width height :
  0 ≤ width → 0 ≤ height →
  length data = Z.to_nat (width * height) →
  medianFilter lt zero data width height 1 = Ok data.
Proof.
  intros Hw Hh Hlen. unfold medianFilter.
  change (1 / 2) with 0.
  rewrite (raster_Ok _ (λ x y, default zero (get data (y * width + x)))).
  2:{ intros x y Hx Hy. rewrite medianAt_radius_0 by done.
      apply Some_default, get_is_Some.
      pose proof (index_in_field width height y x). lia. }
  f_equal. apply array_eq.
  - rewrite length_raster, length_alloc. lia.
  - intros i Hi. rewrite length_raster, length_alloc in Hi.
    rewrite get_raster_full; [|lia|lia|rewrite length_alloc; lia].
    assert (Hpos : 0 < width).
    { destruct (decide (width = 0)) as [->|]; lia. }
    destruct (pixel_of_index width i Hpos) as [Heq _].
    rewrite <- Heq.
    destruct (get_is_Some data i) as [v ->]; [lia|]. reflexivity.
Qed.

Lemma medianFilter_size_1_identity_witness :
  medianFilter Z.ltb 0 [4; 8; 1; 6; 2; 9] 3 2 1 = Ok [4; 8; 1; 6; 2; 9].
Proof.
  apply (medianFilter_size_1_identity Z.ltb 0 [4; 8; 1; 6; 2; 9] 3 2);
    [lia | lia | reflexivity].
Defined.

(** ** Extras about the Gaussian blur *)

(** X3: for [sigma > 0] the kernel has radius [ceil(3 sigma)] and
    [2 radius + 1] weights, all positive, which sum to 1. *)
Theorem gaussianKernel_normalised sigma :
  (0 < sigma)%R →
  let half := (Zceil (sigma * 3) * 2 + 1) / 2 in
  let kernel := gaussianKernel sigma half in
  half = Zceil (sigma * 3) ∧ 1 ≤ half ∧
  length kernel = Z.to_nat (2 * half + 1) ∧
  Forall (λ w, 0 < w)%R kernel ∧
  sumR kernel = 1%R.
Proof.
  intros Hs half kernel.
  pose proof (gaussian_half_nonneg sigma Hs) as Hhalf. fold half in Hhalf.
  pose proof (Zceil_bound (sigma * 3)) as [_ Hc].
  assert (0 < Zceil (sigma * 3)) by (apply lt_IZR; lra).
  assert (Heq : half = Zceil (sigma * 3)).
  { unfold half. Z.div_mod_to_equations. lia. }
  destruct (gaussianKernel_weights sigma half Hhalf) as [Hpos Hone].
  split_and!; [done|lia|apply length_gaussianKernel|done|done].
Qed.

Lemma gaussianKernel_normalised_witness :
  let half := (Zceil (2 * 3) * 2 + 1) / 2 in
  let kernel := gaussianKernel 2 half in
  half = Zceil (2 * 3) ∧ 1 ≤ half ∧
  length kernel = Z.to_nat (2 * half + 1) ∧
  Forall (λ w, 0 < w)%R kernel ∧
  sumR kernel = 1%R.
Proof.
  apply (gaussianKernel_normalised 2). lra.
Defined.

(** X4: on a field of the right size and for [sigma > 0] the blur reads
    only inside its buffers, returns a field of the same size, and keeps
    every value inside any interval that holds the whole input. *)
Theorem gaussianBlur_stays_in_range data width height sigma lo hi :
  0 < width → 0 < height →
  length data = Z.to_nat (width * height) →
  (0 < sigma)%R →
  Forall (λ v, lo <= v <= hi)%R data →
  ∃ result, gaussianBlur data width height sigma = Ok result ∧
    length result = length data ∧
    Forall (λ v, lo <= v <= hi)%R result.
Proof.
  intros Hw Hh Hlen Hs Hdata. apply gaussianBlur_between; (done || lia).
Qed.

Lemma gaussianBlur_stays_in_range_witness :
  ∃ result, gaussianBlur [1; 4; 2; 3]%R 2 2 2 = Ok result ∧
    length result = length [1; 4; 2; 3]%R ∧
    Forall (λ v, 1 <= v <= 4)%R result.
Proof.
  apply (gaussianBlur_stays_in_range [1; 4; 2; 3]%R 2 2 2 1 4);
    [lia | lia | reflexivity | lra |].
  repeat constructor; lra.
Defined.

(** X5: for [sigma > 0] the blur returns a constant field unchanged. *)
Theorem gaussianBlur_constant_field (c : R) width height sigma :
  0 ≤ width → 0 ≤ height → (0 < sigma)%R →
  let field := replicate (Z.to_nat (width * height)) c in
  gaussianBlur field width height sigma = Ok field.
Proof.
  intros Hw Hh Hs field.
  destruct (gaussianBlur_between field width height sigma c c)
    as (result & -> & Hlen & Hall); [done|done| |done| |].
  - unfold field. by rewrite length_replicate.
  - apply Forall_replicate. lra.
  - f_equal. unfold field in *. rewrite length_replicate in Hlen.
    symmetry. apply replicate_as_Forall_2; [done|].
    eapply Forall_impl; [exact Hall|]. intros v Hv. simpl in Hv. lra.
Qed.

Lemma gaussianBlur_constant_field_witness :
  gaussianBlur (replicate (Z.to_nat (3 * 2)) 7%R) 3 2 5
  = Ok (replicate (Z.to_nat (3 * 2)) 7%R).
Proof.
  apply (gaussianBlur_constant_field 7%R 3 2 5); [lia | lia | lra].
Defined.

(** ** Extras about the normaliser *)

Local Open Scope R_scope.

Lemma rangeOf_pos mn mx : mn <= mx → 0 < rangeOf mn mx.
Proof. intros Hle. unfold rangeOf. destruct (decide (mx - mn = 0)); lra. Qed.

Lemma js_round_le x y : x <= y → (js_round x ≤ js_round y)%Z.
Proof. intros Hxy. unfold js_round. apply Zfloor_le. lra. Qed.

Lemma scaled_monotone mn range v w :
  0 < range → v <= w → (scaled mn range v ≤ scaled mn range w)%Z.
Proof.
  intros Hr Hvw. unfold scaled. apply js_round_le.
  assert (Hinv : 0 < / range) by (by apply Rinv_0_lt_compat).
  unfold Rdiv. nra.
Qed.

Local Close Scope R_scope.

(** X6: the normaliser keeps the length and the order of the values:
    a larger input value never gets a smaller output, and both outputs
    are in [[0, 255]]. *)
Theorem normalizeArray_monotone (data : list R) (i j : nat) (vi vj : R) :
  data !! i = Some vi → data !! j = Some vj → (vi <= vj)%R →
  length (normalizeArray data) = length data ∧
  ∃ a b, normalizeArray data !! i = Some a ∧
         normalizeArray data !! j = Some b ∧
         0 ≤ a ∧ a ≤ b ∧ b ≤ 255.
Proof.
  intros Hi Hj Hle. split; [apply length_normalizeArray|].
  destruct (minmax_is_extremum data) as (mn & mx & Hmm & Hmn & Hmx).
  { intros ->. done. }
  assert (Hini : vi ∈ data) by (apply list_elem_of_lookup; eauto).
  assert (Hinj : vj ∈ data) by (apply list_elem_of_lookup; eauto).
  assert (Hbi : (mn <= vi <= mx)%R) by (split; [by apply Hmn|by apply Hmx]).
  assert (Hbj : (mn <= vj <= mx)%R) by (split; [by apply Hmn|by apply Hmx]).
  pose proof (scaled_bounds mn mx vi Hbi) as Hsi.
  pose proof (scaled_bounds mn mx vj Hbj) as Hsj.
  rewrite (normalizeArray_lookup data mn mx i vi Hmm Hi).
  rewrite (normalizeArray_lookup data mn mx j vj Hmm Hj).
  rewrite !toUint8_small by done.
  eexists _, _. split_and!; [reflexivity|reflexivity|lia| |lia].
  apply scaled_monotone; [|done]. apply rangeOf_pos. lra.
Qed.

Lemma normalizeArray_monotone_witness :
  let data := [2; 0; 8; 3]%R in
  length (normalizeArray data) = length data ∧
  ∃ a b, normalizeArray data !! 0%nat = Some a ∧
         normalizeArray data !! 3%nat = Some b ∧
         0 ≤ a ∧ a ≤ b ∧ b ≤ 255.
Proof.
  intros data.
  apply (normalizeArray_monotone data 0 3 2%R 3%R);
    [reflexivity | reflexivity | lra].
Defined.

(** ** Extras about the grayscale converter *)



(** X9: the alpha samples are ignored: two sample buffers that agree
    outside the positions [4 i + 3] give the same grayscale field. *)
Theorem toGrayscale_ignores_alpha (w h : Z) (data1 data2 : list Z) :
  (∀ j, 0 ≤ j → j mod 4 ≠ 3 → get data1 j = get data2 j) →
  toGrayscale (mkImageData w h data1) = toGrayscale (mkImageData w h data2).
Proof.
  intros Hagree. unfold toGrayscale. simpl.
  apply list_fmap_ext. intros k i Hi.
  assert (0 ≤ i).
  { apply list_elem_of_lookup_2 in Hi. apply elem_of_range in Hi. lia. }
  unfold grayAt.
  rewrite !Hagree by (try lia; Z.div_mod_to_equations; lia).
  reflexivity.
Qed.

Lemma toGrayscale_ignores_alpha_witness :
  toGrayscale (mkImageData 2 1 [10; 20; 30; 255; 40; 50; 60; 255])
  = toGrayscale (mkImageData 2 1 [10; 20; 30; 0; 40; 50; 60; 128]).
Proof.
  apply (toGrayscale_ignores_alpha 2 1
           [10; 20; 30; 255; 40; 50; 60; 255] [10; 20; 30; 0; 40; 50; 60; 128]).
  intros j Hj Hmod.
  destruct (decide (j = 3)) as [->|]; [done|].
  destruct (decide (j = 7)) as [->|]; [done|].
  destruct (decide (j < 8)) as [Hlt|Hge].
  - assert (Hcases : j = 0 ∨ j = 1 ∨ j = 2 ∨ j = 4 ∨ j = 5 ∨ j = 6) by lia.
    destruct Hcases as [->|[->|[->|[->|[->| ->]]]]]; reflexivity.
  - rewrite !get_None_ge by (simpl; lia). reflexivity.
Defined.

(** X10: a pixel whose three colour samples are the same 8-bit value
    keeps that value. *)
Theorem toGrayscale_gray_pixel (imageData : ImageData) (i k : Z) :
  0 ≤ i < width imageData * height imageData → 0 ≤ k ≤ 255 →
  get (data imageData) (i * 4) = Some k →
  get (data imageData) (i * 4 + 1) = Some k →
  get (data imageData) (i * 4 + 2) = Some k →
  get (toGrayscale imageData) i = Some k.
Proof.
  intros Hi Hk Hr Hg Hb. rewrite get_toGrayscale by done.
  unfold grayAt. rewrite Hr, Hg, Hb, luminosity_gray.
  by rewrite toUint8_small.
Qed.

Lemma toGrayscale_gray_pixel_witness :
  get (toGrayscale (mkImageData 1 1 [100; 100; 100; 255])) 0 = Some 100.
Proof.
  apply (toGrayscale_gray_pixel (mkImageData 1 1 [100; 100; 100; 255]) 0 100);
    [simpl; lia | lia | reflexivity | reflexivity | reflexivity].
Defined.

(** ** Extras about the Sobel stage *)

Lemma magnitude_0 : magnitude 0 0 = 0%R.
Proof.
  unfold magnitude. change (0 * 0 + 0 * 0) with 0.
  rewrite sqrt_0. unfold Rdiv. apply Rmult_0_l.
Qed.

(** X11: a constant image has no edges: the Sobel stage returns the
    zero field, for every constant and every size. *)
Theorem sobelEdges_constant_image (c width height : Z) :
  sobelEdges (replicate (Z.to_nat (width * height)) c) width height
  = Ok (replicate (Z.to_nat (width * height)) 0%R).
Proof.
  unfold sobelEdges. rewrite (raster_Ok _ (λ _ _, 0%R)).
  - f_equal. apply raster_zero.
  - intros x y Hx Hy.
    assert (Hread : ∀ ky kx, -1 ≤ ky ≤ 1 → -1 ≤ kx ≤ 1 →
              get (replicate (Z.to_nat (width * height)) c)
                ((y + ky) * width + (x + kx)) = Some c).
    { intros ky kx Hky Hkx. apply get_alloc.
      apply index_in_field; lia. }
    unfold sobelAt.
    rewrite (gradients_readable _ width x y c c c c c c c c c)
      by (apply Hread; lia).
    replace (sobelGx c c c c c c c c c) with 0 by (unfold sobelGx; lia).
    replace (sobelGy c c c c c c c c c) with 0 by (unfold sobelGy; lia).
    simpl. f_equal. apply magnitude_0.
Qed.

(** X12: an image less than three pixels wide or high has no interior:
    the Sobel stage reads nothing and returns the zero field. *)
Theorem sobelEdges_small_image (gray : list Z) (width height : Z) :
  width ≤ 2 ∨ height ≤ 2 →
  sobelEdges gray width height
  = Ok (replicate (Z.to_nat (width * height)) 0%R).
Proof.
  intros Hsmall. unfold sobelEdges.
  apply (for_preserves (λ r, r = Ok (alloc 0%R (width * height)))); [done|].
  intros y r Hy ->.
  destruct Hsmall as [Hw|Hh]; [|lia].
  by rewrite for_nil by lia.
Qed.

Lemma sobelEdges_small_image_witness :
  sobelEdges [3; 200; 17; 90] 2 2 = Ok (replicate (Z.to_nat (2 * 2)) 0%R).
Proof.
  apply (sobelEdges_small_image [3; 200; 17; 90] 2 2). left. lia.
Defined.

(** ** Extras about the block matcher *)

Lemma search_bounds left right halfBlock width x y maxD :
  let best := (search left right halfBlock width x y maxD).1 in
  best = 0 ∨ 0 < best ≤ maxD.
Proof.
  unfold search.
  destruct (decide (0 ≤ maxD + 1)) as [Hle|Hgt];
    [|rewrite for_nil by lia; by left].
  pose (P := λ (i : Z) (st : Z * cost), st.1 = 0 ∨ 0 < st.1 < i).
  enough (HP : P (maxD + 1)
            (for_ 0 (maxD + 1)
               (λ d st, better d (sadAt left right halfBlock width x y d) st)
               (0, Infinity))).
  { destruct HP as [?|?]; [by left|right; lia]. }
  apply for_invariant; [done|by left|].
  intros i [b m] Hi HP. unfold P, better in *. simpl in *.
  destruct (sadAt left right halfBlock width x y i) as [s|]; simpl.
  - destruct m as [|m]; simpl.
    + destruct (decide (i = 0)); [by left|right; lia].
    + destruct (decide (s < m)); simpl.
      * destruct (decide (i = 0)); [by left|right; lia].
      * destruct HP; [by left|right; lia].
  - destruct HP; [by left|right; lia].
Qed.

Lemma Forall_put {A} (P : A → Prop) (a : list A) i v :
  Forall P a → P v → Forall P (put a i v).
Proof.
  intros Ha Hv. unfold put. case_decide; [|done].
  apply Forall_insert; done.
Qed.

(** X13: for every field size and a search range of at most [2 ^ 24],
    whatever the buffers and the block size, the disparity field has
    [width * height] entries and each is an integer between 0 and
    [maxDisparity] that a [Float32Array] holds as it is; with a block size
    that is not negative, a non-zero disparity [d] at column [x] leaves
    the matched window, centred at column [x - d], inside the image. *)
Theorem blockMatch_disparity_bounds (left right : list Z)
    width height blockSize maxDisparity :
  0 ≤ width → 0 ≤ height → maxDisparity ≤ 2 ^ 24 →
  let result := blockMatch left right width height blockSize maxDisparity in
  length result = Z.to_nat (width * height) ∧
  Forall (λ d, 0 ≤ d ≤ Z.max 0 maxDisparity ∧ float32Exact d) result ∧
  (0 ≤ blockSize → ∀ x y d, 0 ≤ x < width →
     get result (y * width + x) = Some d →
     d = 0 ∨ (0 < d ≤ maxDisparity ∧ blockSize / 2 ≤ x - d)).
Proof.
  intros _ _ Hexact result. split; [apply length_blockMatch|]. split.
  - unfold result, blockMatch.
    apply (for_preserves
             (Forall (λ d, 0 ≤ d ≤ Z.max 0 maxDisparity ∧ float32Exact d))).
    { apply Forall_replicate. unfold float32Exact. lia. }
    intros y t _ Ht.
    apply (for_preserves
             (Forall (λ d, 0 ≤ d ≤ Z.max 0 maxDisparity ∧ float32Exact d)));
      [done|].
    intros x u _ Hu. apply Forall_put; [done|].
    pose proof (search_bounds left right (blockSize / 2) width x y
                  (Z.min maxDisparity (x - blockSize / 2))) as Hb.
    simpl in Hb. unfold float32Exact. lia.
  - intros Hbs x y d Hx Hd.
    assert (Hhalf : 0 ≤ blockSize / 2) by (apply Z.div_pos; lia).
    unfold result in Hd. rewrite blockMatch_raster in Hd.
    rewrite get_raster in Hd by lia.
    assert (Hzero : ∀ i v, get (alloc 0 (width * height)) i = Some v → v = 0).
    { intros i v Hv. unfold get, alloc in Hv. case_decide; [|done].
      by apply lookup_replicate in Hv as [-> _]. }
    destruct (decide _) as [[Hx' Hy']|_].
    + destruct (get (alloc 0 (width * height)) (y * width + x)); [|done].
      simpl in Hd. injection Hd as <-.
      pose proof (search_bounds left right (blockSize / 2) width x y
                    (Z.min maxDisparity (x - blockSize / 2))) as Hb.
      simpl in Hb. lia.
    + left. by eapply Hzero.
Qed.

Lemma blockMatch_disparity_bounds_witness :
  let left : list Z := [1;2;3;4;5; 1;2;3;4;5; 1;2;3;4;5] in
  let right : list Z := [2;3;4;5;6; 2;3;4;5;6; 2;3;4;5;6] in
  get (blockMatch left right 5 3 3 2) (1 * 5 + 2) = Some 1 ∧
  (1 = 0 ∨ (0 < 1 ≤ 2 ∧ 3 / 2 ≤ 2 - 1)).
Proof.
  intros left right. split; [reflexivity|].
  destruct (blockMatch_disparity_bounds left right 5 3 3 2)
    as (_ & _ & Hpix); [lia | lia | simpl; lia |].
  apply (Hpix ltac:(lia) 2 1 1); [lia|reflexivity].
Defined.

(** X14: when the image is not wider, or not higher, than twice the block
    radius there is no interior pixel and the disparity field is zero. *)
Theorem blockMatch_small_image (left right : list Z)
    width height blockSize maxDisparity :
  width ≤ 2 * (blockSize / 2) ∨ height ≤ 2 * (blockSize / 2) →
  blockMatch left right width height blockSize maxDisparity
  = replicate (Z.to_nat (width * height)) 0.
Proof.
  intros Hsmall. unfold blockMatch.
  apply (for_preserves (λ t, t = alloc 0 (width * height))); [done|].
  intros y t Hy ->.
  destruct Hsmall as [Hw|Hh]; [|lia].
  by rewrite for_nil by lia.
Qed.

Lemma blockMatch_small_image_witness :
  blockMatch [1; 2; 3; 4] [4; 3; 2; 1] 2 2 3 64
  = replicate (Z.to_nat (2 * 2)) 0.
Proof.
  apply (blockMatch_small_image [1; 2; 3; 4] [4; 3; 2; 1] 2 2 3 64).
  left. reflexivity.
Defined.

Lemma sumZ_zero l : Forall (λ z, z = 0) l → sumZ l = 0.
Proof.
  induction 1 as [|z l -> _ IH]; [done|]. rewrite sumZ_cons, IH. done.
Qed.

Lemma sumZ_nonneg l : Forall (λ z, 0 ≤ z) l → 0 ≤ sumZ l.
Proof.
  induction 1 as [|z l Hz _ IH]; [done|]. rewrite sumZ_cons. lia.
Qed.

Lemma specSAD_nonneg left right width blockSize x y d :
  0 ≤ specSAD left right width blockSize x y d.
Proof.
  unfold specSAD. apply sumZ_nonneg.
  apply Forall_bind, Forall_forall. intros j _.
  apply Forall_bind, Forall_forall. intros i _.
  repeat constructor. lia.
Qed.

(** At an interior pixel of well-formed fields the stored disparity is
    the first minimiser of the specification's cost. *)
Lemma blockMatch_interior (left right : list Z)
    width height blockSize maxDisparity x y :
  length left = Z.to_nat (width * height) →
  length right = Z.to_nat (width * height) →
  Z.odd blockSize = true → 1 ≤ blockSize → 0 ≤ maxDisparity →
  interior width height ((blockSize - 1) / 2) x y →
  ∃ d, get (blockMatch left right width height blockSize maxDisparity)
         (y * width + x) = Some d ∧
       first_argmin (specSAD left right width blockSize x y)
         (Z.min maxDisparity (x - (blockSize - 1) / 2)) d.
Proof.
  intros Hl Hr Hodd Hbs Hmd Hint.
  assert (Hhalf : blockSize / 2 = (blockSize - 1) / 2).
  { apply Z.odd_spec in Hodd as [k ->]. Z.div_mod_to_equations. lia. }
  assert (Hpos : 0 ≤ (blockSize - 1) / 2) by (apply Z.div_pos; lia).
  set (half := (blockSize - 1) / 2) in *.
  destruct Hint as [Hx Hy].
  rewrite blockMatch_raster, Hhalf, get_raster by lia.
  rewrite decide_True by done.
  rewrite get_alloc by (apply index_in_field; lia).
  eexists. split; [reflexivity|].
  apply search_first_argmin; [lia|].
  intros d Hd. rewrite <- Hhalf. apply sadAt_specSAD; [done|].
  rewrite Hhalf. apply (window_readable _ _ _ _ height); [lia..| |lia].
  by split.
Qed.

(** X15: when the right image is the left one moved [k] columns to the
    left ([right(x - k, y) = left(x, y)]), for a shift [k] of at most
    [2 ^ 24] columns, the block matcher finds, at an interior pixel that
    has room for [k], a disparity of cost 0 that is at most [k] (and so
    held by the [Float32Array] as it is); it is exactly [k] when no
    smaller shift has cost 0. *)
Theorem blockMatch_recovers_shift (left right : list Z)
    width height blockSize maxDisparity k x y :
  length left = Z.to_nat (width * height) →
  length right = Z.to_nat (width * height) →
  Z.odd blockSize = true → 1 ≤ blockSize → 0 ≤ k ≤ maxDisparity →
  k ≤ 2 ^ 24 →
  (∀ x' y', k ≤ x' < width → 0 ≤ y' < height →
     pixel right width (x' - k) y' = pixel left width x' y') →
  interior width height ((blockSize - 1) / 2) x y →
  k ≤ x - (blockSize - 1) / 2 →
  ∃ d, get (blockMatch left right width height blockSize maxDisparity)
         (y * width + x) = Some d ∧
       0 ≤ d ≤ k ∧ float32Exact d ∧
       specSAD left right width blockSize x y d = 0 ∧
       ((∀ d', 0 ≤ d' < k → specSAD left right width blockSize x y d' ≠ 0) →
        d = k).
Proof.
  intros Hl Hr Hodd Hbs Hk Hexact Hshift Hint Hroom.
  destruct (blockMatch_interior left right width height blockSize
              maxDisparity x y) as (d & Hget & Hd & Hmin & Hfirst);
    [done..|lia|done|].
  assert (Hzero : specSAD left right width blockSize x y k = 0).
  { unfold specSAD. apply sumZ_zero.
    destruct Hint as [Hx Hy].
    apply Forall_bind, Forall_forall. intros j Hj%elem_of_range.
    apply Forall_bind, Forall_forall. intros i Hi%elem_of_range.
    repeat constructor.
    replace (x - k + i) with (x + i - k) by lia.
    rewrite Hshift by lia. lia. }
  pose proof (specSAD_nonneg left right width blockSize x y d) as Hnn.
  assert (Hcost : specSAD left right width blockSize x y d = 0).
  { specialize (Hmin k). lia. }
  assert (Hle : d ≤ k).
  { destruct (decide (d ≤ k)) as [|Hgt]; [done|].
    specialize (Hfirst k). lia. }
  exists d. split_and!; [done|lia|done| |done|].
  { unfold float32Exact. lia. }
  intros Hnone. destruct (decide (d = k)) as [|Hne]; [done|].
  exfalso. apply (Hnone d); [lia|done].
Qed.

Lemma blockMatch_recovers_shift_witness :
  let left : list Z := [1;2;3;4;5; 1;2;3;4;5; 1;2;3;4;5] in
  let right : list Z := [2;3;4;5;6; 2;3;4;5;6; 2;3;4;5;6] in
  ∃ d, get (blockMatch left right 5 3 3 2) (1 * 5 + 2) = Some d ∧
       0 ≤ d ≤ 1 ∧ float32Exact d ∧
       specSAD left right 5 3 2 1 d = 0 ∧
       ((∀ d', 0 ≤ d' < 1 → specSAD left right 5 3 2 1 d' ≠ 0) → d = 1).
Proof.
  intros left right.
  apply (blockMatch_recovers_shift left right 5 3 3 2 1 2 1);
    [reflexivity | reflexivity | reflexivity | lia | lia | simpl; lia | | | ].
  - intros x' y' Hx Hy.
    assert (Hxs : x' = 1 ∨ x' = 2 ∨ x' = 3 ∨ x' = 4) by lia.
    assert (Hys : y' = 0 ∨ y' = 1 ∨ y' = 2) by lia.
    destruct Hxs as [->|[->|[->| ->]]]; destruct Hys as [->|[->| ->]];
      reflexivity.
  - unfold interior. change ((3 - 1) / 2) with 1. lia.
  - change ((3 - 1) / 2) with 1. lia.
Defined.

(** ** Extras about the output image and the two pipelines *)

Lemma toUint8Clamped_byte v : 0 ≤ toUint8Clamped v ≤ 255.
Proof.
  unfold toUint8Clamped.
  destruct (decide (v < 0)%R) as [|Hlo]; [lia|].
  destruct (decide (255 < v)%R) as [|Hhi]; [lia|].
  pose proof (Zfloor_bound v) as [Hf1 Hf2].
  assert (Hf : 0 ≤ Zfloor v ≤ 255).
  { split.
    - apply Zfloor_lub. lra.
    - apply le_IZR. lra. }
  assert (Hup : (1 / 2 <= v - IZR (Zfloor v))%R → Zfloor v + 1 ≤ 255).
  { intros Hfrac. apply Z.lt_succ_r, lt_IZR. rewrite succ_IZR, plus_IZR. lra. }
  cbv zeta.
  destruct (decide (v - IZR (Zfloor v) < 1 / 2)%R) as [|Hge]; [lia|].
  assert (Hfrac : (1 / 2 <= v - IZR (Zfloor v))%R) by lra.
  specialize (Hup Hfrac).
  destruct (decide (1 / 2 < v - IZR (Zfloor v))%R); [lia|].
  destruct (Z.even (Zfloor v)); lia.
Qed.

Lemma normalizeArray_bytes data :
  Forall (λ s, 0 ≤ s ≤ 255) (normalizeArray data).
Proof.
  unfold normalizeArray.
  destruct (minmax data) as [[mn|] [mx|]];
    try (apply Forall_replicate; lia).
  apply Forall_fmap, Forall_forall. intros v _. simpl.
  unfold toUint8. pose proof (Z.mod_pos_bound (scaled mn (rangeOf mn mx) v) 256).
  lia.
Qed.

(** The bytes of the output image for a list of gray levels. *)
Lemma quads_layout (levels : list Z) (i : nat) :
  (i < length levels)%nat →
  ∃ c, levels !! i = Some c ∧
    (levels ≫= λ c, [c; c; c; 255]) !! (4 * i)%nat = Some c ∧
    (levels ≫= λ c, [c; c; c; 255]) !! (4 * i + 1)%nat = Some c ∧
    (levels ≫= λ c, [c; c; c; 255]) !! (4 * i + 2)%nat = Some c ∧
    (levels ≫= λ c, [c; c; c; 255]) !! (4 * i + 3)%nat = Some 255.
Proof.
  revert i. induction levels as [|c levels IH]; intros i Hi; [simpl in Hi; lia|].
  destruct i as [|i].
  - exists c. rewrite bind_cons. split_and!; reflexivity.
  - destruct (IH i) as (c' & Hc & H0 & H1 & H2 & H3); [simpl in Hi; lia|].
    exists c'. rewrite bind_cons.
    replace (4 * S i)%nat with (4 + 4 * i)%nat by lia.
    split_and!; [done|exact H0|exact H1|exact H2|exact H3].
Qed.

Lemma length_quads (levels : list Z) :
  length (levels ≫= λ c, [c; c; c; 255]) = (4 * length levels)%nat.
Proof.
  rewrite (length_bind_const _ _ 4%nat) by done. lia.
Qed.

Lemma quads_injective (levels levels' : list Z) :
  (levels ≫= λ c, [c; c; c; 255]) = (levels' ≫= λ c, [c; c; c; 255]) →
  levels = levels'.
Proof.
  revert levels'. induction levels as [|c levels IH]; intros [|c' levels'];
    rewrite ?bind_cons; try done.
  intros [= -> Heq]. f_equal. by apply IH.
Qed.

Lemma fillDepth_as_quads processed :
  ∃ levels, fillDepth processed = (levels ≫= λ c, [c; c; c; 255]) ∧
    length levels = bufferLength processed ∧
    Forall (λ s, 0 ≤ s ≤ 255) levels.
Proof.
  destruct processed as [values|values]; simpl.
  - exists (toUint8Clamped <$> values). split_and!.
    + induction values as [|v values IH]; [done|].
      rewrite fmap_cons, !bind_cons, IH. reflexivity.
    + apply length_fmap.
    + apply Forall_fmap, Forall_forall. intros v _. apply toUint8Clamped_byte.
  - exists (clamp 255 <$> values). split_and!.
    + induction values as [|v values IH]; [done|].
      rewrite fmap_cons, !bind_cons, IH. reflexivity.
    + apply length_fmap.
    + apply Forall_fmap, Forall_forall. intros v _. simpl. unfold clamp. lia.
Qed.

(** The conversion of a [Uint8ClampedArray]: a nearest integer of the
    clamped value, the even one of two that are equally near. *)
Lemma toUint8Clamped_nearest (v : R) :
  let c := toUint8Clamped v in
  ((v <= 0)%R → c = 0) ∧ ((255 <= v)%R → c = 255) ∧
  ((0 <= v <= 255)%R →
     (Rabs (IZR c - v) <= 1 / 2)%R ∧
     (Rabs (IZR c - v) = (1 / 2)%R → Z.even c = true)).
Proof.
  intros c. subst c. unfold toUint8Clamped.
  pose proof (Zfloor_bound v) as [Hf1 Hf2].
  split_and!.
  - intros Hv. destruct (decide (v < 0)%R) as [|Hge]; [done|].
    assert (Hz : v = 0%R) by lra. subst v.
    rewrite decide_False by lra.
    replace (Zfloor 0) with 0 by (symmetry; apply Zfloor_eq; simpl; lra).
    cbv zeta. rewrite decide_True by (simpl; lra). done.
  - intros Hv. rewrite decide_False by lra.
    destruct (decide (255 < v)%R) as [|Hle]; [done|].
    assert (Hz : v = 255%R) by lra. subst v.
    replace (Zfloor 255) with 255 by (symmetry; apply Zfloor_eq; simpl; lra).
    cbv zeta. rewrite decide_True by (simpl; lra). done.
  - intros [Hlo Hhi]. rewrite !decide_False by lra. cbv zeta.
    set (f := Zfloor v) in *.
    destruct (decide (v - IZR f < 1 / 2)%R) as [Hlt|Hge].
    { split; [apply Rabs_le; lra|].
      intros Habs. exfalso.
      rewrite Rabs_left1 in Habs by lra. lra. }
    destruct (decide (1 / 2 < v - IZR f)%R) as [Hgt|Hle].
    { rewrite plus_IZR. split; [apply Rabs_le; lra|].
      intros Habs. exfalso.
      rewrite Rabs_right in Habs by lra. lra. }
    destruct (Z.even f) eqn:Heven.
    + split; [apply Rabs_le; lra|done].
    + rewrite plus_IZR. split; [apply Rabs_le; lra|].
      intros _. rewrite Z.even_add, Heven. done.
Qed.

(** X16: the output image holds four bytes per value of the buffer: a
    gray level three times, then the opaque alpha 255.  For a normalised
    buffer the gray level is the byte of the buffer.  For a buffer of
    numbers it is 0 for a value of at most 0, 255 for a value of at least
    255, and between them an integer nearest to the value, the even one
    when the value lies halfway between two integers. *)
Theorem fillDepth_layout (processed : buffer) (i : nat) :
  (i < bufferLength processed)%nat →
  length (fillDepth processed) = (4 * bufferLength processed)%nat ∧
  ∃ c,
    fillDepth processed !! (4 * i)%nat = Some c ∧
    fillDepth processed !! (4 * i + 1)%nat = Some c ∧
    fillDepth processed !! (4 * i + 2)%nat = Some c ∧
    fillDepth processed !! (4 * i + 3)%nat = Some 255 ∧
    match processed with
    | U8 values => ∀ v, values !! i = Some v → 0 ≤ v ≤ 255 → c = v
    | F32 values =>
        ∀ v, values !! i = Some v →
          0 ≤ c ≤ 255 ∧
          ((v <= 0)%R → c = 0) ∧ ((255 <= v)%R → c = 255) ∧
          ((0 <= v <= 255)%R →
             (Rabs (IZR c - v) <= 1 / 2)%R ∧
             (Rabs (IZR c - v) = (1 / 2)%R → Z.even c = true))
    end.
Proof.
  intros Hi.
  destruct (fillDepth_as_quads processed) as (levels & Hfill & Hlen & Hbytes).
  rewrite Hfill, <- Hlen. split; [apply length_quads|].
  rewrite <- Hlen in Hi.
  destruct (quads_layout levels i Hi) as (c & Hc & H0 & H1 & H2 & H3).
  exists c. split_and!; try done.
  destruct processed as [values|values]; simpl in Hfill.
  - intros v Hv.
    assert (Hlevels : levels = toUint8Clamped <$> values).
    { apply (quads_injective levels (toUint8Clamped <$> values)).
      rewrite <- Hfill. clear.
      induction values as [|w values IH]; [done|].
      rewrite fmap_cons, !bind_cons, IH. reflexivity. }
    rewrite Hlevels, list_lookup_fmap, Hv in Hc. injection Hc as <-.
    pose proof (toUint8Clamped_byte v).
    pose proof (toUint8Clamped_nearest v) as (Hlo & Hhi & Hmid).
    split_and!; (done || lia).
  - intros v Hv Hbyte.
    assert (Hlevels : levels = clamp 255 <$> values).
    { apply (quads_injective levels (clamp 255 <$> values)).
      rewrite <- Hfill. clear.
      induction values as [|w values IH]; [done|].
      rewrite fmap_cons, !bind_cons, IH. reflexivity. }
    rewrite Hlevels, list_lookup_fmap, Hv in Hc. injection Hc as <-.
    unfold clamp. lia.
Qed.

Lemma fillDepth_layout_witness :
  let values := [7; 200] in
  length (fillDepth (U8 values)) = (4 * bufferLength (U8 values))%nat ∧
  ∃ c,
    fillDepth (U8 values) !! (4 * 1)%nat = Some c ∧
    fillDepth (U8 values) !! (4 * 1 + 1)%nat = Some c ∧
    fillDepth (U8 values) !! (4 * 1 + 2)%nat = Some c ∧
    fillDepth (U8 values) !! (4 * 1 + 3)%nat = Some 255 ∧
    ∀ v, values !! 1%nat = Some v → 0 ≤ v ≤ 255 → c = v.
Proof.
  intros values. apply (fillDepth_layout (U8 values) 1). simpl. lia.
Defined.





(** X18: the stereo pipeline returns an image of four bytes per pixel
    of the left image, all in [[0, 255]]; with normalisation on, the
    returned disparity buffer is an 8-bit buffer of [width * height]
    values in [[0, 255]]. *)
Theorem computeDepthMap_output (leftData rightData : ImageData)
    (options : StereoOptions) :
  0 < width leftData → 0 < height leftData →
  ∃ result, computeDepthMap leftData rightData options = Ok result ∧
    length (depthData result)
      = (4 * Z.to_nat (width leftData * height leftData))%nat ∧
    Forall (λ s, 0 ≤ s ≤ 255) (depthData result) ∧
    (default true (normalize options) = true →
       ∃ values, disparityArray result = U8 values ∧
         length values = Z.to_nat (width leftData * height leftData) ∧
         Forall (λ s, 0 ≤ s ≤ 255) values).
Proof.
  intros _ _.
  destruct (computeDepthMap_total leftData rightData options)
    as (result & Hrun & Hlen).
  exists result. split; [done|].
  assert (Hdepth : depthData result = fillDepth (disparityArray result)).
  { unfold computeDepthMap in Hrun.
    destruct (if default true (smoothing options) then _ else _)
      as [processed|e]; [|done].
    rewrite bind_Ok in Hrun. by injection Hrun as <-. }
  destruct (fillDepth_as_quads (disparityArray result))
    as (levels & Hfill & Hlevels & Hbytes).
  rewrite Hdepth, Hfill. split_and!.
  - rewrite length_quads, Hlevels, Hlen. done.
  - apply Forall_bind. eapply Forall_impl; [exact Hbytes|].
    intros c Hc. simpl in Hc.
    do 4 (constructor; [lia|]). constructor.
  - intros Hnorm. unfold computeDepthMap in Hrun.
    destruct (if default true (smoothing options) then _ else _)
      as [processed|e]; [|done].
    rewrite bind_Ok, Hnorm in Hrun. injection Hrun as <-. simpl in *.
    eexists. split_and!; [reflexivity|done|apply normalizeArray_bytes].
Qed.

Lemma computeDepthMap_output_witness :
  let leftData := mkImageData 2 1 [10; 20; 30; 255; 40; 50; 60; 255] in
  let rightData := mkImageData 2 1 [12; 22; 32; 255; 42; 52; 62; 255] in
  let options := {| blockSize := Some 1; maxDisparity := Some 1;
                    smoothing := Some false; normalize := Some true |} in
  ∃ result, computeDepthMap leftData rightData options = Ok result ∧
    length (depthData result) = (4 * Z.to_nat (2 * 1))%nat ∧
    Forall (λ s, 0 ≤ s ≤ 255) (depthData result) ∧
    (default true (normalize options) = true →
       ∃ values, disparityArray result = U8 values ∧
         length values = Z.to_nat (2 * 1) ∧
         Forall (λ s, 0 ≤ s ≤ 255) values).
Proof.
  intros leftData rightData options.
  apply (computeDepthMap_output leftData rightData options); simpl; lia.
Defined.

(** ** Extras about the radial gradient *)

Local Open Scope R_scope.



Local Close Scope R_scope.



(** * Properties of the MPO parser *)

(** Two minimal streams, each [SOI, one byte, EOI], after a byte of
    padding. *)
Example findJPEGBoundaries_two_streams :
  findJPEGBoundaries [0; 255; 216; 7; 255; 217; 255; 216; 9; 255; 217]
  = Some [mkBoundary 1 6; mkBoundary 6 11].
Proof. vm_compute. reflexivity. Qed.

(** A stream with an APP segment of length 4, a scan and a restart
    marker. *)
Example findJPEGBoundaries_segments :
  findJPEGBoundaries
    [255; 216; 255; 224; 0; 4; 255; 217; 255; 218; 0; 2; 5; 255; 0; 6;
     255; 208; 8; 255; 217]
  = Some [mkBoundary 0 21].
Proof. vm_compute. reflexivity. Qed.

(** ** Positions only grow *)

Lemma segmentLength_nonneg data pos :
  Forall octet data → 0 ≤ segmentLength data pos.
Proof.
  intros Hbytes. unfold segmentLength.
  assert (Hread : ∀ i, 0 ≤ default 0 (get data i)).
  { intros i. destruct (get data i) as [b|] eqn:Hb; simpl; [|lia].
    pose proof (Forall_get _ _ _ _ Hbytes Hb) as Hbyte.
    unfold octet in Hbyte. lia. }
  apply Z.lor_nonneg. split; [|apply Hread].
  apply Z.shiftl_nonneg, Hread.
Qed.

Lemma skipSegment_ge data pos :
  Forall octet data → pos + 2 ≤ skipSegment data pos.
Proof.
  intros Hbytes. unfold skipSegment.
  pose proof (segmentLength_nonneg data (pos + 2) Hbytes).
  case_bool_decide; lia.
Qed.

Lemma scanEntropy_ge fuel data pos p :
  scanEntropy fuel data pos = Some p → pos ≤ p.
Proof.
  revert pos. induction fuel as [|fuel IH]; intros pos; simpl.
  - repeat case_match; intros [= <-] || done; lia.
  - repeat case_match; try (intros [= <-]; lia).
    intros Hp%IH. lia.
Qed.

Lemma byteIs_true data pos b : byteIs data pos b = true ↔ get data pos = Some b.
Proof. unfold byteIs. apply bool_decide_eq_true. Qed.

(** What a run of the middle loop can do: move on, and add at most the
    stream that began at [start]. *)
Lemma scanImage_spec fuel data start pos boundaries p boundaries' :
  Forall octet data →
  0 ≤ start → start + 2 ≤ pos →
  get data start = Some 255 → get data (start + 1) = Some 216 →
  scanImage fuel data start pos boundaries = Some (p, boundaries') →
  pos ≤ p ∧
  (boundaries' = boundaries ∨
   (boundaries' = boundaries ++ [{| start := start; end_ := p |}] ∧
    isStream data {| start := start; end_ := p |})).
Proof.
  intros Hbytes Hstart. revert pos.
  induction fuel as [|fuel IH]; intros pos Hpos Hsoi1 Hsoi2; simpl.
  - case_bool_decide; [done|]. intros [= <- <-]. split; [lia|by left].
  - case_bool_decide as Hloop; [|intros [= <- <-]; split; [lia|by left]].
    destruct (byteIs data pos 255) eqn:Hff.
    + apply byteIs_true in Hff.
      case_bool_decide as Hm1; [intros Hrun; apply IH in Hrun; [|lia|done..];
                                split; [lia|tauto]|].
      case_bool_decide as Hm2.
      { intros [= <- <-]. split; [lia|]. right. split; [done|].
        unfold isStream. simpl.
        replace (pos + 2 - 2) with pos by lia.
        replace (pos + 2 - 1) with (pos + 1) by lia.
        split_and!; (done || lia). }
      destruct (markerIn (get data (pos + 1)) 208 215).
      { intros Hrun. apply IH in Hrun; [|lia|done..]. split; [lia|tauto]. }
      case_bool_decide as Hm3; [intros [= <- <-]; split; [lia|by left]|].
      pose proof (skipSegment_ge data pos Hbytes) as Hskip.
      case_bool_decide as Hm4.
      * destruct (scanEntropy fuel data (skipSegment data pos)) as [q|] eqn:Hq;
          [|done].
        apply scanEntropy_ge in Hq. simpl.
        intros Hrun. apply IH in Hrun; [|lia|done..]. split; [lia|tauto].
      * intros Hrun. apply IH in Hrun; [|lia|done..]. split; [lia|tauto].
    + intros Hrun. apply IH in Hrun; [|lia|done..]. split; [lia|tauto].
Qed.

Lemma chain_weaken data lo lo' boundaries :
  lo ≤ lo' → chain data lo' boundaries → chain data lo boundaries.
Proof.
  intros Hle. destruct boundaries as [|b rest]; [done|].
  simpl. intros (Hb & Hs & Hrest). split_and!; [lia|done..].
Qed.

(** The outer loop only appends, and what it appends is a chain of
    streams from [pos] on. *)
Lemma scanFile_spec fuel data pos boundaries result :
  Forall octet data → 0 ≤ pos →
  scanFile fuel data pos boundaries = Some result →
  ∃ new, result = boundaries ++ new ∧ chain data pos new.
Proof.
  intros Hbytes. revert pos boundaries.
  induction fuel as [|fuel IH]; intros pos boundaries Hpos; simpl.
  - case_bool_decide; [done|]. intros [= <-]. exists []. by rewrite app_nil_r.
  - case_bool_decide as Hloop;
      [|intros [= <-]; exists []; by rewrite app_nil_r].
    destruct (byteIs data pos 255 && byteIs data (pos + 1) 216) eqn:Hsoi.
    + apply andb_true_iff in Hsoi as [H1%byteIs_true H2%byteIs_true].
      destruct (scanImage fuel data pos (pos + 2) boundaries)
        as [[p boundaries']|] eqn:Himage; [|done].
      simpl. intros Hrun.
      apply scanImage_spec in Himage as [Hp Hadded]; [|done|lia|lia|done..].
      apply IH in Hrun as (new & -> & Hchain); [|lia].
      destruct Hadded as [->|[-> Hstream]].
      * exists new. split; [done|]. eapply chain_weaken; [|done]. lia.
      * exists ({| start := pos; end_ := p |} :: new).
        split; [by rewrite <- app_assoc|]. simpl. split_and!; [lia|done..].
    + intros Hrun. apply IH in Hrun as (new & -> & Hchain); [|lia].
      exists new. split; [done|]. eapply chain_weaken; [|done]. lia.
Qed.

(** ** One unit of fuel for every byte is enough *)

Lemma scanEntropy_terminates fuel data pos :
  Z.of_nat (length data) - 1 - pos ≤ Z.of_nat fuel →
  is_Some (scanEntropy fuel data pos).
Proof.
  revert pos. induction fuel as [|fuel IH]; intros pos Hfuel; simpl.
  - case_bool_decide; [lia|eauto].
  - case_bool_decide; [|eauto]. case_match; [eauto|]. apply IH. lia.
Qed.

Lemma scanImage_ge fuel data start pos boundaries p boundaries' :
  Forall octet data →
  scanImage fuel data start pos boundaries = Some (p, boundaries') → pos ≤ p.
Proof.
  intros Hbytes. revert pos.
  induction fuel as [|fuel IH]; intros pos; simpl.
  - case_bool_decide; [done|]. intros [= <- <-]. lia.
  - case_bool_decide as Hloop; [|intros [= <- <-]; lia].
    pose proof (skipSegment_ge data pos Hbytes) as Hskip.
    destruct (byteIs data pos 255).
    + case_bool_decide; [intros Hrun%IH; lia|].
      case_bool_decide; [intros [= <- <-]; lia|].
      destruct (markerIn _ _ _); [intros Hrun%IH; lia|].
      case_bool_decide; [intros [= <- <-]; lia|].
      case_bool_decide.
      * destruct (scanEntropy fuel data (skipSegment data pos)) as [q|] eqn:Hq;
          [|done].
        apply scanEntropy_ge in Hq. simpl. intros Hrun%IH. lia.
      * intros Hrun%IH. lia.
    + intros Hrun%IH. lia.
Qed.

Lemma scanImage_terminates fuel data start pos boundaries :
  Forall octet data →
  Z.of_nat (length data) - 1 - pos ≤ Z.of_nat fuel →
  is_Some (scanImage fuel data start pos boundaries).
Proof.
  intros Hbytes. revert pos.
  induction fuel as [|fuel IH]; intros pos Hfuel; simpl.
  - case_bool_decide; [lia|eauto].
  - case_bool_decide as Hloop; [|eauto].
    pose proof (skipSegment_ge data pos Hbytes) as Hskip.
    destruct (byteIs data pos 255); [|apply IH; lia].
    case_bool_decide; [apply IH; lia|].
    case_bool_decide; [eauto|].
    destruct (markerIn _ _ _); [apply IH; lia|].
    case_bool_decide; [eauto|].
    case_bool_decide; [|apply IH; lia].
    destruct (scanEntropy_terminates fuel data (skipSegment data pos))
      as [q Hq]; [lia|].
    rewrite Hq. simpl. apply scanEntropy_ge in Hq. apply IH. lia.
Qed.

Lemma scanFile_terminates fuel data pos boundaries :
  Forall octet data →
  Z.of_nat (length data) - 1 - pos ≤ Z.of_nat fuel →
  is_Some (scanFile fuel data pos boundaries).
Proof.
  intros Hbytes. revert pos boundaries.
  induction fuel as [|fuel IH]; intros pos boundaries Hfuel; simpl.
  - case_bool_decide; [lia|eauto].
  - case_bool_decide as Hloop; [|eauto].
    destruct (byteIs data pos 255 && byteIs data (pos + 1) 216);
      [|apply IH; lia].
    destruct (scanImage_terminates fuel data pos (pos + 2) boundaries Hbytes)
      as [[p boundaries'] Himage]; [lia|].
    rewrite Himage. simpl. apply scanImage_ge in Himage; [|done].
    apply IH. lia.
Qed.

(** ** More fuel changes nothing *)

Lemma scanEntropy_mono fuel fuel' data pos p :
  scanEntropy fuel data pos = Some p → (fuel ≤ fuel')%nat →
  scanEntropy fuel' data pos = Some p.
Proof.
  revert fuel' pos. induction fuel as [|fuel IH]; intros fuel' pos; simpl.
  - destruct fuel'; simpl; repeat case_match; done.
  - intros Hrun Hle. destruct fuel' as [|fuel']; [lia|]. simpl.
    repeat case_match; try done. apply IH; [done|lia].
Qed.

Lemma scanImage_mono fuel fuel' data start pos boundaries result :
  scanImage fuel data start pos boundaries = Some result →
  (fuel ≤ fuel')%nat →
  scanImage fuel' data start pos boundaries = Some result.
Proof.
  revert fuel' pos. induction fuel as [|fuel IH]; intros fuel' pos; simpl.
  - destruct fuel'; simpl; case_bool_decide; done.
  - intros Hrun Hle. destruct fuel' as [|fuel']; [lia|]. simpl.
    assert (Hle' : (fuel ≤ fuel')%nat) by lia.
    case_bool_decide; [|done].
    destruct (byteIs data pos 255); [|by apply IH].
    case_bool_decide; [by apply IH|].
    case_bool_decide; [done|].
    destruct (markerIn _ _ _); [by apply IH|].
    case_bool_decide; [done|].
    case_bool_decide; [|by apply IH].
    destruct (scanEntropy fuel data (skipSegment data pos)) as [q|] eqn:Hq;
      [|done].
    rewrite (scanEntropy_mono _ fuel' _ _ _ Hq Hle'). simpl in *.
    by apply IH.
Qed.

Lemma scanFile_mono fuel fuel' data pos boundaries result :
  scanFile fuel data pos boundaries = Some result →
  (fuel ≤ fuel')%nat →
  scanFile fuel' data pos boundaries = Some result.
Proof.
  revert fuel' pos boundaries.
  induction fuel as [|fuel IH]; intros fuel' pos boundaries; simpl.
  - destruct fuel'; simpl; case_bool_decide; done.
  - intros Hrun Hle. destruct fuel' as [|fuel']; [lia|]. simpl.
    assert (Hle' : (fuel ≤ fuel')%nat) by lia.
    case_bool_decide; [|done].
    destruct (byteIs data pos 255 && byteIs data (pos + 1) 216);
      [|by apply IH].
    destruct (scanImage fuel data pos (pos + 2) boundaries)
      as [st|] eqn:Himage; [|done].
    rewrite (scanImage_mono _ fuel' _ _ _ _ _ Himage Hle'). simpl in *.
    by apply IH.
Qed.

(** A run with any amount of fuel gives the result of
    [findJPEGBoundaries]. *)
Lemma findJPEGBoundaries_by_run fuel data result :
  Forall octet data →
  scanFile fuel data 0 [] = Some result →
  findJPEGBoundaries data = Some result.
Proof.
  intros Hbytes Hrun. unfold findJPEGBoundaries.
  destruct (scanFile_terminates (length data) data 0 [] Hbytes) as [r Hr];
    [lia|].
  rewrite Hr. f_equal.
  pose proof (scanFile_mono _ (max fuel (length data)) _ _ _ _ Hrun
                ltac:(lia)) as H1.
  pose proof (scanFile_mono _ (max fuel (length data)) _ _ _ _ Hr
                ltac:(lia)) as H2.
  congruence.
Qed.

(** ** What is found is a chain of streams *)

Lemma chain_streams data lo boundaries :
  chain data lo boundaries → Forall (isStream data) boundaries.
Proof.
  revert lo. induction boundaries as [|b rest IH]; intros lo; [constructor|].
  simpl. intros (_ & Hs & Hrest). constructor; [done|by eapply IH].
Qed.

Lemma chain_lower data lo boundaries :
  chain data lo boundaries → Forall (λ b, lo ≤ start b) boundaries.
Proof.
  revert lo. induction boundaries as [|b rest IH]; intros lo; [constructor|].
  simpl. intros (Hlo & Hs & Hrest). constructor; [done|].
  apply IH in Hrest. eapply Forall_impl; [exact Hrest|].
  intros b' Hb'. simpl in Hb'. destruct Hs as (_ & Hlen & _). lia.
Qed.

Lemma chain_sorted data lo boundaries :
  chain data lo boundaries →
  StronglySorted (λ a b, end_ a ≤ start b) boundaries.
Proof.
  revert lo. induction boundaries as [|b rest IH]; intros lo; [constructor|].
  simpl. intros (_ & _ & Hrest). constructor; [by eapply IH|].
  by apply chain_lower in Hrest.
Qed.

Lemma chain_count data lo boundaries :
  chain data lo boundaries → lo ≤ Z.of_nat (length data) →
  lo + 4 * Z.of_nat (length boundaries) ≤ Z.of_nat (length data).
Proof.
  revert lo. induction boundaries as [|b rest IH]; intros lo; [simpl; lia|].
  simpl. intros (Hlo & Hs & Hrest) Hlen.
  destruct Hs as (_ & Hb & _). apply IH in Hrest; [|lia]. lia.
Qed.

Lemma findJPEGBoundaries_chain (data : list Z) :
  Forall octet data →
  ∃ boundaries, findJPEGBoundaries data = Some boundaries ∧
    Forall (isStream data) boundaries ∧
    StronglySorted (λ a b, end_ a ≤ start b) boundaries.
Proof.
  intros Hbytes. unfold findJPEGBoundaries.
  destruct (scanFile_terminates (length data) data 0 [] Hbytes)
    as [boundaries Hrun]; [lia|].
  exists boundaries. split; [done|].
  apply scanFile_spec in Hrun as (new & -> & Hchain); [|done|lia].
  simpl. split.
  - by eapply chain_streams.
  - by eapply chain_sorted.
Qed.

(** X20: on every byte buffer [findJPEGBoundaries] ends (the loops
    always advance).  Every boundary it returns lies inside the buffer,
    is at least 4 bytes long, begins with the SOI marker [FF D8] and ends
    with the EOI marker [FF D9]; the boundaries come in file order and do
    not overlap, so there are at most [length / 4] of them. *)
Theorem findJPEGBoundaries_sound (data : list Z) :
  Forall octet data →
  ∃ boundaries, findJPEGBoundaries data = Some boundaries ∧
    Forall (isStream data) boundaries ∧
    StronglySorted (λ a b, end_ a ≤ start b) boundaries ∧
    (4 * length boundaries ≤ length data)%nat.
Proof.
  intros Hbytes. unfold findJPEGBoundaries.
  destruct (scanFile_terminates (length data) data 0 [] Hbytes)
    as [boundaries Hrun]; [lia|].
  exists boundaries. split; [done|].
  apply scanFile_spec in Hrun as (new & -> & Hchain); [|done|lia].
  simpl. split_and!.
  - by eapply chain_streams.
  - by eapply chain_sorted.
  - apply chain_count in Hchain; lia.
Qed.

Lemma findJPEGBoundaries_sound_witness :
  let data := [0; 255; 216; 7; 255; 217; 255; 216; 9; 255; 217] in
  ∃ boundaries, findJPEGBoundaries data = Some boundaries ∧
    Forall (isStream data) boundaries ∧
    StronglySorted (λ a b, end_ a ≤ start b) boundaries ∧
    (4 * length boundaries ≤ length data)%nat.
Proof.
  intros data. apply (findJPEGBoundaries_sound data).
  unfold data, octet. repeat (constructor; [lia|]). constructor.
Defined.

(** ** Single turns of the loops *)

Lemma get_app_r {A} (l1 l2 : list A) i :
  0 ≤ i → get (l1 ++ l2) (Z.of_nat (length l1) + i) = get l2 i.
Proof.
  intros Hi. unfold get. rewrite !decide_True by lia.
  rewrite lookup_app_r by lia. f_equal. lia.
Qed.

Lemma get_app_l {A} (l1 l2 : list A) i :
  i < Z.of_nat (length l1) → get (l1 ++ l2) i = get l1 i.
Proof.
  intros Hi. unfold get. case_decide; [|done]. apply lookup_app_l. lia.
Qed.

Lemma imageRuns_plain data start pos boundaries result :
  pos < Z.of_nat (length data) - 1 →
  byteIs data pos 255 = false →
  imageRuns data start (pos + 1) boundaries result →
  imageRuns data start pos boundaries result.
Proof.
  intros Hloop Hbyte [fuel Hrun]. exists (S fuel). simpl.
  rewrite bool_decide_eq_true_2 by done. by rewrite Hbyte.
Qed.

Lemma imageRuns_eoi data start pos boundaries :
  pos < Z.of_nat (length data) - 1 →
  get data pos = Some 255 → get data (pos + 1) = Some 217 →
  imageRuns data start pos boundaries
    (pos + 2, boundaries ++ [{| start := start; end_ := pos + 2 |}]).
Proof.
  intros Hloop H1 H2. exists 1%nat. simpl.
  rewrite bool_decide_eq_true_2 by done.
  rewrite (proj2 (byteIs_true data pos 255) H1), H2.
  rewrite bool_decide_eq_false_2 by done.
  by rewrite bool_decide_eq_true_2 by done.
Qed.

Lemma fileRuns_done data pos boundaries :
  ¬ pos < Z.of_nat (length data) - 1 →
  fileRuns data pos boundaries boundaries.
Proof.
  intros Hloop. exists 0%nat. simpl. by rewrite bool_decide_eq_false_2.
Qed.

Lemma fileRuns_done_inv data pos boundaries result :
  ¬ pos < Z.of_nat (length data) - 1 →
  fileRuns data pos boundaries result → result = boundaries.
Proof.
  intros Hloop [fuel Hrun].
  destruct fuel; simpl in Hrun; rewrite bool_decide_eq_false_2 in Hrun by done;
    congruence.
Qed.

Lemma fileRuns_plain data pos boundaries result :
  pos < Z.of_nat (length data) - 1 →
  byteIs data pos 255 = false →
  fileRuns data (pos + 1) boundaries result →
  fileRuns data pos boundaries result.
Proof.
  intros Hloop Hbyte [fuel Hrun]. exists (S fuel). simpl.
  rewrite bool_decide_eq_true_2 by done. by rewrite Hbyte.
Qed.

Lemma fileRuns_soi data pos boundaries p boundaries' result :
  pos < Z.of_nat (length data) - 1 →
  get data pos = Some 255 → get data (pos + 1) = Some 216 →
  imageRuns data pos (pos + 2) boundaries (p, boundaries') →
  fileRuns data p boundaries' result →
  fileRuns data pos boundaries result.
Proof.
  intros Hloop H1 H2 [f1 Himage] [f2 Hfile]. exists (S (max f1 f2)). simpl.
  rewrite bool_decide_eq_true_2 by done.
  rewrite (proj2 (byteIs_true data pos 255) H1).
  rewrite (proj2 (byteIs_true data (pos + 1) 216) H2). simpl.
  rewrite (scanImage_mono _ (max f1 f2) _ _ _ _ _ Himage) by lia. simpl.
  apply (scanFile_mono f2); [done|lia].
Qed.

Lemma byteIs_plain data pos :
  (∀ b, get data pos = Some b → plain b) → byteIs data pos 255 = false.
Proof.
  intros Hplain. unfold byteIs. apply bool_decide_eq_false_2.
  intros Hb. apply Hplain in Hb. unfold plain in Hb. lia.
Qed.

(** The outer loop walks over bytes that are not [0xFF]. *)
Lemma fileRuns_gap data pos q boundaries result :
  pos ≤ q →
  (∀ i b, pos ≤ i < q → get data i = Some b → plain b) →
  fileRuns data q boundaries result →
  fileRuns data pos boundaries result.
Proof.
  intros Hle Hgap Hrun.
  remember (Z.to_nat (q - pos)) as n eqn:Hn.
  revert pos Hle Hgap Hn. induction n as [|n IH]; intros pos Hle Hgap Hn.
  - by replace pos with q by lia.
  - destruct (decide (pos < Z.of_nat (length data) - 1)) as [Hloop|Hend].
    + apply fileRuns_plain; [done| |].
      * apply byteIs_plain. intros b. apply Hgap. lia.
      * apply IH; [lia| |lia]. intros i b Hi. apply Hgap. lia.
    + assert (result = boundaries) as ->.
      { eapply fileRuns_done_inv; [|exact Hrun]. lia. }
      by apply fileRuns_done.
Qed.

(** The middle loop walks over the body of a simple stream to its EOI
    marker. *)
Lemma imageRuns_body front body back k boundaries :
  Forall plain body → (k ≤ length body)%nat →
  let data := front ++ simpleStream body ++ back in
  let begin := Z.of_nat (length front) in
  let stop := begin + Z.of_nat (length body) + 4 in
  imageRuns data begin (begin + 2 + Z.of_nat (length body - k)) boundaries
    (stop, boundaries ++ [{| start := begin; end_ := stop |}]).
Proof.
  intros Hbody Hk data begin stop.
  assert (Hlen : Z.of_nat (length data)
            = begin + Z.of_nat (length body) + 4 + Z.of_nat (length back)).
  { unfold data, simpleStream, begin. rewrite !length_app. simpl. lia. }
  assert (Hget : ∀ i, 0 ≤ i →
            get data (begin + 2 + i) = get (body ++ [255; 217] ++ back) i).
  { intros i Hi. unfold data, simpleStream, begin.
    rewrite <- Z.add_assoc, get_app_r by lia.
    rewrite <- !app_assoc.
    change ([255; 216] ++ body ++ [255; 217] ++ back)
      with ([255; 216] ++ (body ++ [255; 217] ++ back)).
    change 2 with (Z.of_nat (length [255; 216])) at 1.
    by rewrite get_app_r. }
  induction k as [|k IH].
  - rewrite Nat.sub_0_r.
    replace stop with (begin + 2 + Z.of_nat (length body) + 2) by (unfold stop; lia).
    apply imageRuns_eoi; [lia| |].
    + rewrite Hget by lia.
      replace (Z.of_nat (length body)) with (Z.of_nat (length body) + 0) by lia.
      by rewrite get_app_r.
    + replace (begin + 2 + Z.of_nat (length body) + 1)
        with (begin + 2 + (Z.of_nat (length body) + 1)) by lia.
      rewrite Hget by lia. by rewrite get_app_r.
  - apply imageRuns_plain; [lia| |].
    + apply byteIs_plain. intros b. rewrite Hget by lia.
      rewrite get_app_l by lia. intros Hb.
      exact (Forall_get _ _ _ _ Hbody Hb).
    + replace (begin + 2 + Z.of_nat (length body - S k) + 1)
        with (begin + 2 + Z.of_nat (length body - k)) by lia.
      apply IH. lia.
Qed.

(** ** Files made of simple streams *)

Lemma length_simpleStream body :
  Z.of_nat (length (simpleStream body)) = Z.of_nat (length body) + 4.
Proof. unfold simpleStream. rewrite !length_app. simpl. lia. Qed.

Lemma fileRuns_streams front bodies post boundaries :
  Forall (Forall plain) bodies → Forall plain post →
  fileRuns (front ++ concat (simpleStream <$> bodies) ++ post)
    (Z.of_nat (length front)) boundaries
    (boundaries ++ layout (Z.of_nat (length front)) bodies).
Proof.
  intros Hbodies Hpost. revert front boundaries.
  induction Hbodies as [|body rest Hbody Hrest IH]; intros front boundaries.
  - simpl. rewrite app_nil_r.
    apply (fileRuns_gap _ _ (Z.of_nat (length (front ++ post)))).
    + rewrite length_app. lia.
    + intros i b Hi.
      replace i with (Z.of_nat (length front) + (i - Z.of_nat (length front)))
        by lia.
      rewrite get_app_r by lia. intros Hb.
      exact (Forall_get _ _ _ _ Hpost Hb).
    + apply fileRuns_done. lia.
  - set (back := concat (simpleStream <$> rest) ++ post).
    replace (front ++ concat (simpleStream <$> body :: rest) ++ post)
      with (front ++ simpleStream body ++ back)
      by (unfold back;
          by rewrite fmap_cons, concat_cons, <- (app_assoc (simpleStream body))).
    pose proof (length_simpleStream body) as Hlen.
    assert (Hget : ∀ i, 0 ≤ i →
              get (front ++ simpleStream body ++ back)
                  (Z.of_nat (length front) + i)
              = get (simpleStream body ++ back) i).
    { intros i Hi. by apply get_app_r. }
    eapply fileRuns_soi.
    + rewrite !length_app. lia.
    + replace (Z.of_nat (length front)) with (Z.of_nat (length front) + 0)
        by lia.
      by rewrite Hget.
    + by rewrite Hget.
    + pose proof (imageRuns_body front body back (length body) boundaries
                    Hbody ltac:(lia)) as Hrun.
      simpl in Hrun. rewrite Nat.sub_diag, Z.add_0_r in Hrun. exact Hrun.
    + specialize (IH (front ++ simpleStream body)
                     (boundaries
                        ++ [{| start := Z.of_nat (length front);
                               end_ := Z.of_nat (length front)
                                       + Z.of_nat (length body) + 4 |}])).
      rewrite length_app, Nat2Z.inj_add, Hlen, <- !app_assoc in IH.
      rewrite Z.add_assoc in IH. simpl layout.
      exact IH.
Qed.

Lemma plain_octet b : plain b → octet b.
Proof. unfold plain, octet. lia. Qed.

Lemma simpleStream_octets body :
  Forall plain body → Forall octet (simpleStream body).
Proof.
  intros Hbody. unfold simpleStream.
  apply Forall_app. split; [repeat constructor; unfold octet; lia|].
  apply Forall_app. split.
  - eapply Forall_impl; [exact Hbody|]. apply plain_octet.
  - repeat constructor; unfold octet; lia.
Qed.

Lemma streams_octets pre bodies post :
  Forall plain pre → Forall (Forall plain) bodies → Forall plain post →
  Forall octet (pre ++ concat (simpleStream <$> bodies) ++ post).
Proof.
  intros Hpre Hbodies Hpost.
  apply Forall_app. split.
  { eapply Forall_impl; [exact Hpre|]. apply plain_octet. }
  apply Forall_app. split.
  - apply Forall_concat, Forall_fmap.
    eapply Forall_impl; [exact Hbodies|]. apply simpleStream_octets.
  - eapply Forall_impl; [exact Hpost|]. apply plain_octet.
Qed.

Lemma findJPEGBoundaries_streams pre bodies post :
  Forall plain pre → Forall (Forall plain) bodies → Forall plain post →
  findJPEGBoundaries (pre ++ concat (simpleStream <$> bodies) ++ post)
  = Some (layout (Z.of_nat (length pre)) bodies).
Proof.
  intros Hpre Hbodies Hpost.
  set (data := pre ++ concat (simpleStream <$> bodies) ++ post).
  assert (Hrun : fileRuns data 0 [] (layout (Z.of_nat (length pre)) bodies)).
  { apply (fileRuns_gap _ _ (Z.of_nat (length pre))); [lia| |].
    - intros i b Hi. unfold data. rewrite get_app_l by lia. intros Hb.
      exact (Forall_get _ _ _ _ Hpre Hb).
    - apply (fileRuns_streams pre bodies post []); done. }
  destruct Hrun as [fuel Hrun].
  apply (findJPEGBoundaries_by_run fuel); [|done].
  by apply streams_octets.
Qed.

(** X21: a file made of any bytes other than [0xFF], then JPEG streams
    one after another, each an SOI marker, a body without [0xFF] and an EOI
    marker, then again bytes other than [0xFF]: [findJPEGBoundaries]
    returns exactly these streams, in order, each from its SOI to just
    past its EOI. *)
Theorem findJPEGBoundaries_simple_streams (pre : list Z)
    (bodies : list (list Z)) (post : list Z) :
  Forall plain pre → Forall (Forall plain) bodies → Forall plain post →
  findJPEGBoundaries (pre ++ concat (simpleStream <$> bodies) ++ post)
  = Some (layout (Z.of_nat (length pre)) bodies).
Proof. apply findJPEGBoundaries_streams. Qed.

Lemma findJPEGBoundaries_simple_streams_witness :
  findJPEGBoundaries
    ([0; 1] ++ concat (simpleStream <$> [[7; 8]; []; [9]]) ++ [3])
  = Some (layout (Z.of_nat (length [0; 1])) [[7; 8]; []; [9]]).
Proof.
  apply (findJPEGBoundaries_simple_streams [0; 1] [[7; 8]; []; [9]] [3]);
    unfold plain; repeat (constructor; try lia).
Defined.

(** ** The images returned by [parse] *)

Lemma parseMPFIndex_empty data : parseMPFIndex data = [].
Proof.
  unfold parseMPFIndex.
  generalize (range 0 (Z.of_nat (length data) - 20)). intros positions.
  enough (H : ∀ st : list (list Z) * bool, st.1 = [] →
            (foldl (λ (st : list (list Z) * bool) pos,
               if st.2 then st
               else if byteIs data pos 255 && byteIs data (pos + 1) 226
                       && byteIs data (pos + 4) 77 && byteIs data (pos + 5) 80
                       && byteIs data (pos + 6) 70 && byteIs data (pos + 7) 0
                    then (st.1, true)
                    else st) st positions).1 = []) by by apply H.
  induction positions as [|pos positions IH]; intros st Hst; [done|].
  rewrite foldl_cons. apply IH.
  destruct (st.2); [done|]. by destruct (_ && _).
Qed.

Lemma slice_inside buffer s e :
  0 ≤ s → s ≤ e → e ≤ Z.of_nat (length buffer) →
  slice buffer s e
  = take (Z.to_nat (e - s)) (drop (Z.to_nat s) buffer).
Proof.
  intros Hs Hse He. unfold slice.
  rewrite !bool_decide_eq_false_2 by lia.
  by rewrite !Z.min_l, Z.max_l by lia.
Qed.

Lemma length_slice buffer s e :
  0 ≤ s → s ≤ e → e ≤ Z.of_nat (length buffer) →
  Z.of_nat (length (slice buffer s e)) = e - s.
Proof.
  intros Hs Hse He. rewrite slice_inside by done.
  rewrite length_take, length_drop. lia.
Qed.

Lemma get_slice buffer s e i :
  0 ≤ s → s ≤ e → e ≤ Z.of_nat (length buffer) → 0 ≤ i < e - s →
  get (slice buffer s e) i = get buffer (s + i).
Proof.
  intros Hs Hse He Hi. rewrite slice_inside by done. unfold get.
  rewrite !decide_True by lia.
  rewrite lookup_take_lt, lookup_drop by lia. f_equal. lia.
Qed.

Lemma slice_splits buffer s e :
  0 ≤ s → s ≤ e → e ≤ Z.of_nat (length buffer) →
  buffer = take (Z.to_nat s) buffer ++ slice buffer s e
             ++ drop (Z.to_nat e) buffer.
Proof.
  intros Hs Hse He. rewrite slice_inside by done.
  replace (Z.to_nat e) with (Z.to_nat s + Z.to_nat (e - s))%nat by lia.
  by rewrite <- drop_drop, !take_drop.
Qed.

(** A list that begins with SOI and, two bytes or more later, ends with
    EOI is SOI, a body, EOI. *)
Lemma stream_shape (l : list Z) :
  4 ≤ Z.of_nat (length l) →
  get l 0 = Some 255 → get l 1 = Some 216 →
  get l (Z.of_nat (length l) - 2) = Some 255 →
  get l (Z.of_nat (length l) - 1) = Some 217 →
  ∃ body, l = simpleStream body.
Proof.
  intros Hlen H0 H1 H2 H3.
  destruct l as [|a [|b rest]]; simpl in Hlen; try lia.
  injection H0 as ->. injection H1 as ->.
  exists (take (length rest - 2) rest). unfold simpleStream. simpl. do 2 f_equal.
  rewrite <- (take_drop (length rest - 2) rest) at 1. f_equal.
  assert (Hc : rest !! (length rest - 2)%nat = Some 255).
  { unfold get in H2. case_decide; [|done]. rewrite <- H2.
    replace (Z.to_nat (Z.of_nat (length (255 :: 216 :: rest)) - 2))
      with (S (S (length rest - 2))) by (simpl; lia). done. }
  assert (Hd : rest !! S (length rest - 2)%nat = Some 217).
  { unfold get in H3. case_decide; [|done]. rewrite <- H3.
    replace (Z.to_nat (Z.of_nat (length (255 :: 216 :: rest)) - 1))
      with (S (S (S (length rest - 2)))) by (simpl; lia). done. }
  apply list_eq. intros i. rewrite lookup_drop.
  destruct i as [|[|i]].
  - by rewrite Nat.add_0_r, Hc.
  - by rewrite Nat.add_1_r, Hd.
  - simpl. apply lookup_ge_None_2. lia.
Qed.

Lemma slice_stream data boundary :
  isStream data boundary →
  ∃ body, slice data (start boundary) (end_ boundary) = simpleStream body.
Proof.
  intros (Hs & [Hse He] & H0 & H1 & H2 & H3).
  assert (Hle : start boundary ≤ end_ boundary) by lia.
  pose proof (length_slice data _ _ Hs Hle He) as Hlen.
  apply stream_shape.
  - lia.
  - rewrite get_slice by lia. by rewrite Z.add_0_r.
  - rewrite get_slice by lia. done.
  - rewrite get_slice by lia. rewrite <- H2. f_equal. lia.
  - rewrite get_slice by lia. rewrite <- H3. f_equal. lia.
Qed.

(** X22: what [parse] hands back.  On every byte buffer it returns either
    the whole file as its single image, or exactly two images; these are
    two pieces of the file that do not overlap, in file order, each
    beginning with the SOI marker [FF D8] and ending with the EOI marker
    [FF D9].  It never returns no image, and never more than two. *)
Theorem parse_one_or_two (buffer : list Z) :
  Forall octet buffer →
  parse buffer = Some [buffer] ∨
  ∃ pre first gap second post,
    buffer = pre ++ simpleStream first ++ gap ++ simpleStream second ++ post ∧
    parse buffer = Some [simpleStream first; simpleStream second].
Proof.
  intros Hbytes.
  destruct (findJPEGBoundaries_chain buffer Hbytes)
    as (boundaries & Hfind & Hstreams & Hsorted).
  destruct (decide (2 ≤ length boundaries)%nat) as [Hcount|Hcount].
  - right. destruct boundaries as [|a [|b rest]]; simpl in Hcount; try lia.
    apply Forall_cons in Hstreams as [Ha Hstreams].
    apply Forall_cons in Hstreams as [Hb _].
    apply StronglySorted_cons in Hsorted as [Hab _].
    apply Forall_cons in Hab as [Hab _].
    destruct (slice_stream _ _ Ha) as [first Hfirst].
    destruct (slice_stream _ _ Hb) as [second Hsecond].
    pose proof Ha as (Hsa & [Hsea Hea] & _).
    pose proof Hb as (Hsb & [Hseb Heb] & _).
    set (tail := drop (Z.to_nat (end_ a)) buffer).
    assert (Htail : Z.of_nat (length tail)
                    = Z.of_nat (length buffer) - end_ a).
    { unfold tail. rewrite length_drop. lia. }
    assert (Hslice : slice tail (start b - end_ a) (end_ b - end_ a)
                     = slice buffer (start b) (end_ b)).
    { rewrite !slice_inside by lia. unfold tail. rewrite drop_drop.
      f_equal; [lia|]. f_equal. lia. }
    exists (take (Z.to_nat (start a)) buffer), first,
      (take (Z.to_nat (start b - end_ a)) tail), second,
      (drop (Z.to_nat (end_ b - end_ a)) tail).
    split.
    + rewrite <- Hfirst, <- Hsecond, <- Hslice.
      rewrite <- (slice_splits tail) by lia.
      apply slice_splits; lia.
    + unfold parse. rewrite Hfind. simpl. by rewrite Hfirst, Hsecond.
  - left. unfold parse. rewrite Hfind. simpl.
    rewrite bool_decide_eq_false_2 by done.
    by rewrite parseMPFIndex_empty.
Qed.

Lemma parse_one_or_two_witness :
  let buffer := [0; 255; 216; 7; 255; 217; 255; 216; 9; 255; 217] in
  parse buffer = Some [buffer] ∨
  ∃ pre first gap second post,
    buffer = pre ++ simpleStream first ++ gap ++ simpleStream second ++ post ∧
    parse buffer = Some [simpleStream first; simpleStream second].
Proof.
  intros buffer. apply (parse_one_or_two buffer).
  unfold buffer, octet. repeat (constructor; [lia|]). constructor.
Defined.

Lemma slice_middle (front mid back : list Z) :
  slice (front ++ mid ++ back) (Z.of_nat (length front))
    (Z.of_nat (length front) + Z.of_nat (length mid)) = mid.
Proof.
  rewrite slice_inside by (rewrite ?length_app; lia).
  rewrite Nat2Z.id, drop_app_length.
  apply take_app_length'. lia.
Qed.

Lemma length_layout off bodies : length (layout off bodies) = length bodies.
Proof.
  revert off. induction bodies as [|body rest IH]; intros off; [done|].
  simpl. by rewrite IH.
Qed.

(** X23: [parse] on a file of JPEG streams written one after another
    (each SOI, a body without [0xFF], EOI; bytes other than [0xFF] before
    and after).  With two streams or more it returns the first two, byte
    for byte, whatever follows; with fewer it returns the whole file as
    one image. *)
Theorem parse_simple_streams (pre : list Z) (bodies : list (list Z))
    (post : list Z) :
  Forall plain pre → Forall (Forall plain) bodies → Forall plain post →
  let buffer := pre ++ concat (simpleStream <$> bodies) ++ post in
  parse buffer
  = Some (if decide (2 ≤ length bodies)%nat
          then simpleStream <$> take 2 bodies else [buffer]).
Proof.
  intros Hpre Hbodies Hpost buffer. unfold parse.
  pose proof (findJPEGBoundaries_streams pre bodies post Hpre Hbodies Hpost)
    as Hfind.
  change (findJPEGBoundaries buffer
          = Some (layout (Z.of_nat (length pre)) bodies)) in Hfind.
  rewrite Hfind. cbn [mbind option_bind]. rewrite length_layout.
  destruct (decide (2 ≤ length bodies)%nat) as [Hcount|Hcount].
  - rewrite bool_decide_eq_true_2 by done.
    destruct bodies as [|first [|second rest]]; simpl in Hcount; try lia.
    f_equal. cbn [layout take fmap list_fmap start end_].
    pose proof (length_simpleStream first) as Hfirst.
    pose proof (length_simpleStream second) as Hsecond.
    f_equal; [|f_equal].
    + replace buffer
        with (pre ++ simpleStream first
                ++ (concat (simpleStream <$> second :: rest) ++ post))
        by (unfold buffer; by rewrite !fmap_cons, !concat_cons, <- !app_assoc).
      rewrite <- Z.add_assoc, <- Hfirst. apply slice_middle.
    + replace buffer
        with ((pre ++ simpleStream first) ++ simpleStream second
                ++ (concat (simpleStream <$> rest) ++ post))
        by (unfold buffer; by rewrite !fmap_cons, !concat_cons, <- !app_assoc).
      rewrite <- (Z.add_assoc _ _ 4), <- Hfirst, <- Nat2Z.inj_add, <- length_app.
      rewrite <- (Z.add_assoc _ _ 4), <- Hsecond. apply slice_middle.
  - rewrite bool_decide_eq_false_2 by done.
    by rewrite parseMPFIndex_empty.
Qed.

Lemma parse_simple_streams_witness :
  parse ([0; 1] ++ concat (simpleStream <$> [[7; 8]; []; [9]]) ++ [3])
  = Some (simpleStream <$> take 2 [[7; 8]; []; [9]]).
Proof.
  apply (parse_simple_streams [0; 1] [[7; 8]; []; [9]] [3]);
    unfold plain; repeat (constructor; try lia).
Defined.

(** ** Streams with marker segments and scans *)

Lemma length_segment marker payload :
  Z.of_nat (length (segment marker payload))
  = Z.of_nat (length payload) + 4.
Proof. unfold segment. simpl. lia. Qed.

Lemma lor_bytes n : 0 ≤ n → Z.lor (Z.shiftl (n / 256) 8) (n mod 256) = n.
Proof.
  intros Hn.
  assert (Hland : Z.land (Z.shiftl (n / 256) 8) (n mod 256) = 0).
  { apply Z.bits_inj'. intros i Hi. rewrite Z.land_spec, Z.bits_0.
    destruct (decide (i < 8)).
    - rewrite Z.shiftl_spec_low by lia. done.
    - change 256 with (2 ^ 8) at 2.
      rewrite Z.mod_pow2_bits_high by lia. apply andb_false_r. }
  pose proof (Z.add_lor_land (Z.shiftl (n / 256) 8) (n mod 256)) as Hadd.
  rewrite Hland in Hadd. rewrite Z.shiftl_mul_pow2 in Hadd at 2 by lia.
  change (2 ^ 8) with 256 in Hadd.
  pose proof (Z.div_mod n 256 ltac:(lia)). lia.
Qed.

Lemma segment_gets front marker payload tail :
  let data := front ++ segment marker payload ++ tail in
  let pos := Z.of_nat (length front) in
  let n := Z.of_nat (length payload) + 2 in
  get data pos = Some 255 ∧ get data (pos + 1) = Some marker ∧
  get data (pos + 2) = Some (n / 256) ∧
  get data (pos + 3) = Some (n mod 256).
Proof.
  intros data pos n. unfold data, pos.
  replace (Z.of_nat (length front)) with (Z.of_nat (length front) + 0) at 1
    by lia.
  rewrite !get_app_r by lia. done.
Qed.

Lemma skipSegment_segment front marker payload tail :
  skipSegment (front ++ segment marker payload ++ tail)
    (Z.of_nat (length front))
  = Z.of_nat (length front) + Z.of_nat (length (segment marker payload)).
Proof.
  destruct (segment_gets front marker payload tail) as (_ & _ & H2 & H3).
  pose proof (length_segment marker payload) as Hlen.
  unfold skipSegment. rewrite bool_decide_eq_true_2.
  2: { rewrite !length_app. lia. }
  unfold segmentLength.
  replace (Z.of_nat (length front) + 2 + 1)
    with (Z.of_nat (length front) + 3) by lia.
  rewrite H2, H3. simpl default. rewrite lor_bytes by lia. lia.
Qed.

(** A segment with a length field is stepped over in one turn, whatever
    its payload holds. *)
Lemma imageRuns_header front marker payload tail start boundaries result :
  lengthMarker marker →
  let data := front ++ segment marker payload ++ tail in
  let pos := Z.of_nat (length front) in
  imageRuns data start (pos + Z.of_nat (length (segment marker payload)))
    boundaries result →
  imageRuns data start pos boundaries result.
Proof.
  intros Hmarker data pos [fuel Hrun].
  destruct (segment_gets front marker payload tail) as (H0 & H1 & _).
  pose proof (length_segment marker payload) as Hlen.
  exists (S fuel). simpl. fold data pos.
  rewrite bool_decide_eq_true_2.
  2: { unfold data, pos. rewrite !length_app. lia. }
  rewrite (proj2 (byteIs_true data pos 255) H0).
  fold data pos in H1. rewrite H1.
  unfold lengthMarker in Hmarker.
  rewrite (bool_decide_eq_false_2 (Some marker = Some 255))
    by (intros [=]; lia).
  rewrite (bool_decide_eq_false_2 (Some marker = Some 217))
    by (intros [=]; lia).
  unfold markerIn. rewrite bool_decide_eq_false_2 by lia.
  rewrite (bool_decide_eq_false_2 (Some marker = Some 216))
    by (intros [=]; lia).
  rewrite (bool_decide_eq_false_2 (Some marker = Some 218))
    by (intros [=]; lia).
  unfold data, pos. rewrite skipSegment_segment. exact Hrun.
Qed.

Lemma length_entropyBytes_cons unit units :
  entropyBytes (unit :: units)
  = match unit with Some b => [b] | None => [255; 0] end
      ++ entropyBytes units.
Proof. done. Qed.

(** The innermost loop walks over plain bytes and stuffed pairs up to the
    next marker. *)
Lemma scanEntropy_units units front tail :
  Forall (from_option plain True) units → marked tail →
  ∃ fuel, scanEntropy fuel (front ++ entropyBytes units ++ tail)
            (Z.of_nat (length front))
          = Some (Z.of_nat (length front)
                  + Z.of_nat (length (entropyBytes units))).
Proof.
  intros Hunits (m & rest & -> & Hm0 & Hm255). revert front.
  induction Hunits as [|unit units Hunit _ IH]; intros front.
  - exists 0%nat. simpl.
    rewrite bool_decide_eq_true_2 by (rewrite length_app; simpl; lia).
    assert (H0 : get (front ++ 255 :: m :: rest) (Z.of_nat (length front))
                 = Some 255).
    { replace (Z.of_nat (length front))
        with (Z.of_nat (length front) + 0) by lia. by rewrite get_app_r. }
    assert (H1 : get (front ++ 255 :: m :: rest)
                   (Z.of_nat (length front) + 1) = Some m).
    { by rewrite get_app_r. }
    unfold byteIs. rewrite H0, H1.
    rewrite bool_decide_eq_true_2 by done.
    rewrite !bool_decide_eq_false_2 by (intros [=]; lia).
    simpl. f_equal. lia.
  - rewrite length_entropyBytes_cons. destruct unit as [b|].
    + simpl in Hunit.
      destruct (IH (front ++ [b])) as [fuel Hrun].
      rewrite <- !app_assoc, length_app, Nat2Z.inj_add in Hrun.
      simpl app in Hrun. simpl length in Hrun.
      exists (S fuel). simpl app.
      cbn [scanEntropy].
      rewrite bool_decide_eq_true_2.
      2: { rewrite !length_app. simpl. rewrite !length_app. simpl. lia. }
      rewrite byteIs_plain.
      2: { intros c. replace (Z.of_nat (length front))
             with (Z.of_nat (length front) + 0) by lia.
           rewrite get_app_r by lia. intros [= <-]. done. }
      simpl andb. cbv iota.
      change (Z.of_nat 1) with 1 in Hrun. rewrite Hrun. f_equal.
      simpl length. lia.
    + destruct (IH (front ++ [255; 0])) as [fuel Hrun].
      rewrite <- !app_assoc, length_app, Nat2Z.inj_add in Hrun.
      simpl app in Hrun. simpl length in Hrun.
      change (Z.of_nat 2) with 2 in Hrun.
      set (data := front ++ 255 :: 0 :: entropyBytes units ++ 255 :: m :: rest)
        in *.
      assert (H1 : get data (Z.of_nat (length front) + 1) = Some 0).
      { unfold data. by rewrite get_app_r. }
      assert (Hlen : Z.of_nat (length front) + 3 < Z.of_nat (length data)).
      { unfold data. rewrite !length_app. simpl. rewrite !length_app.
        simpl. lia. }
      exists (S (S fuel)). simpl app. fold data.
      cbn [scanEntropy].
      rewrite bool_decide_eq_true_2 by lia.
      rewrite (proj2 (byteIs_true data _ 0) H1). rewrite andb_false_r.
      simpl andb. cbv iota.
      rewrite bool_decide_eq_true_2 by lia.
      rewrite byteIs_plain.
      2: { intros c. rewrite H1. intros [= <-]. unfold plain. lia. }
      simpl andb. cbv iota.
      replace (Z.of_nat (length front) + 1 + 1)
        with (Z.of_nat (length front) + 2) by lia.
      rewrite Hrun. f_equal. simpl length. lia.
Qed.

(** A scan: the SOS segment is stepped over, then the innermost loop runs
    to the marker after the entropy-coded data. *)
Lemma imageRuns_scan front payload units tail start boundaries result :
  Forall (from_option plain True) units → marked tail →
  let data := front ++ (segment 218 payload ++ entropyBytes units) ++ tail in
  let pos := Z.of_nat (length front) in
  imageRuns data start
    (pos + Z.of_nat (length (segment 218 payload ++ entropyBytes units)))
    boundaries result →
  imageRuns data start pos boundaries result.
Proof.
  intros Hunits Htail data pos [fuel Hrun].
  assert (Hdata : data = front ++ segment 218 payload
                           ++ (entropyBytes units ++ tail)).
  { unfold data. by rewrite <- (app_assoc (segment 218 payload)). }
  destruct (segment_gets front 218 payload (entropyBytes units ++ tail))
    as (H0 & H1 & _).
  rewrite <- Hdata in H0, H1. fold pos in H0, H1.
  pose proof (length_segment 218 payload) as Hlen.
  destruct (scanEntropy_units units (front ++ segment 218 payload) tail
              Hunits Htail) as [fuel' Hentropy].
  rewrite <- app_assoc, <- Hdata, length_app, Nat2Z.inj_add in Hentropy.
  fold pos in Hentropy.
  rewrite length_app, Nat2Z.inj_add, Z.add_assoc in Hrun.
  exists (S (max fuel fuel')). simpl.
  rewrite bool_decide_eq_true_2.
  2: { rewrite Hdata. unfold pos. rewrite !length_app. lia. }
  rewrite (proj2 (byteIs_true data pos 255) H0), H1.
  rewrite (bool_decide_eq_false_2 (Some 218 = Some 255)) by done.
  rewrite (bool_decide_eq_false_2 (Some 218 = Some 217)) by done.
  unfold markerIn. rewrite bool_decide_eq_false_2 by lia.
  rewrite (bool_decide_eq_false_2 (Some 218 = Some 216)) by done.
  rewrite bool_decide_eq_true_2 by done.
  assert (Hskip : skipSegment data pos
                  = pos + Z.of_nat (length (segment 218 payload))).
  { rewrite Hdata. apply skipSegment_segment. }
  rewrite Hskip.
  rewrite (scanEntropy_mono fuel' (max fuel fuel') _ _ _ Hentropy) by lia.
  simpl. apply (scanImage_mono fuel); [done|lia].
Qed.

Lemma marked_parts parts back :
  Forall wellFormed parts →
  marked (concat (partBytes <$> parts) ++ [255; 217] ++ back).
Proof.
  intros Hparts. destruct Hparts as [|p parts Hp _].
  - exists 217, back. split; [done|lia].
  - rewrite fmap_cons, concat_cons. destruct p as [m payload|payload units].
    + destruct Hp as [Hm _]. unfold lengthMarker in Hm. simpl.
      eexists m, _. split; [done|lia].
    + simpl. eexists 218, _. split; [done|lia].
Qed.

Lemma imageRuns_parts parts front back start boundaries :
  Forall wellFormed parts →
  let data := front ++ concat (partBytes <$> parts) ++ [255; 217] ++ back in
  let stop := Z.of_nat (length front)
              + Z.of_nat (length (concat (partBytes <$> parts))) + 2 in
  imageRuns data start (Z.of_nat (length front)) boundaries
    (stop, boundaries ++ [{| start := start; end_ := stop |}]).
Proof.
  intros Hparts. revert front.
  induction Hparts as [|p parts Hp Hparts IH]; intros front data stop.
  - unfold stop, data. simpl. rewrite Z.add_0_r.
    apply imageRuns_eoi.
    + rewrite length_app. simpl. lia.
    + replace (Z.of_nat (length front))
        with (Z.of_nat (length front) + 0) at 1 by lia.
      by rewrite get_app_r.
    + by rewrite get_app_r.
  - set (tail := concat (partBytes <$> parts) ++ [255; 217] ++ back).
    assert (Hdata : data = front ++ partBytes p ++ tail).
    { unfold data, tail.
      by rewrite fmap_cons, concat_cons, <- (app_assoc (partBytes p)). }
    specialize (IH (front ++ partBytes p)). cbv zeta in IH.
    rewrite <- app_assoc in IH. fold tail in IH. rewrite <- Hdata in IH.
    replace (Z.of_nat (length (front ++ partBytes p))
             + Z.of_nat (length (concat (partBytes <$> parts))) + 2)
      with stop in IH.
    2: { unfold stop. rewrite fmap_cons, concat_cons, !length_app. lia. }
    rewrite length_app, Nat2Z.inj_add in IH.
    rewrite Hdata in IH |- *.
    destruct p as [m payload|payload units].
    + destruct Hp as [Hm _]. by apply imageRuns_header.
    + destruct Hp as [_ Hunits]. cbn [partBytes] in *.
      apply imageRuns_scan; [done| |done].
      by apply marked_parts.
Qed.

Lemma jpeg_scannable parts : Forall wellFormed parts → scannable (jpeg parts).
Proof.
  intros Hparts. split; [by eexists|].
  intros front back boundaries begin stop.
  pose proof (imageRuns_parts parts (front ++ [255; 216]) back begin
                boundaries Hparts) as Hrun.
  simpl in Hrun. rewrite <- !app_assoc in Hrun.
  rewrite length_app, Nat2Z.inj_add in Hrun.
  change (Z.of_nat (length [255; 216])) with 2 in Hrun. fold begin in Hrun.
  replace (begin + 2 + Z.of_nat (length (concat (partBytes <$> parts))) + 2)
    with stop in Hrun.
  2: { unfold stop, jpeg. rewrite !length_app. simpl. lia. }
  unfold jpeg. rewrite <- !app_assoc. exact Hrun.
Qed.

Lemma simpleStream_scannable body :
  Forall plain body → scannable (simpleStream body).
Proof.
  intros Hbody. split; [by eexists|].
  intros front back boundaries begin stop.
  pose proof (imageRuns_body front body back (length body) boundaries
                Hbody ltac:(lia)) as Hrun.
  simpl in Hrun. rewrite Nat.sub_diag, Z.add_0_r in Hrun.
  fold begin in Hrun.
  replace (begin + Z.of_nat (length body) + 4) with stop in Hrun.
  2: { unfold stop. rewrite length_simpleStream. lia. }
  exact Hrun.
Qed.

(** ** Files made of streams *)

Lemma fileRuns_scannable front streams post boundaries :
  Forall scannable streams → Forall plain post →
  fileRuns (front ++ concat streams ++ post)
    (Z.of_nat (length front)) boundaries
    (boundaries ++ spans (Z.of_nat (length front)) streams).
Proof.
  intros Hstreams Hpost. revert front boundaries.
  induction Hstreams as [|stream rest Hstream Hrest IH];
    intros front boundaries.
  - simpl. rewrite app_nil_r.
    apply (fileRuns_gap _ _ (Z.of_nat (length (front ++ post)))).
    + rewrite length_app. lia.
    + intros i b Hi.
      replace i with (Z.of_nat (length front) + (i - Z.of_nat (length front)))
        by lia.
      rewrite get_app_r by lia. intros Hb.
      exact (Forall_get _ _ _ _ Hpost Hb).
    + apply fileRuns_done. lia.
  - set (back := concat rest ++ post).
    replace (front ++ concat (stream :: rest) ++ post)
      with (front ++ stream ++ back)
      by (unfold back; by rewrite concat_cons, <- (app_assoc stream)).
    destruct Hstream as [[tail Hshape] Hrun].
    eapply fileRuns_soi.
    + rewrite Hshape, !length_app. simpl. lia.
    + replace (Z.of_nat (length front)) with (Z.of_nat (length front) + 0)
        by lia.
      rewrite get_app_r by lia. by rewrite Hshape.
    + rewrite get_app_r by lia. by rewrite Hshape.
    + apply Hrun.
    + specialize (IH (front ++ stream)
                     (boundaries
                        ++ [{| start := Z.of_nat (length front);
                               end_ := Z.of_nat (length front)
                                       + Z.of_nat (length stream) |}])).
      rewrite length_app, Nat2Z.inj_add, <- !app_assoc in IH.
      simpl spans. exact IH.
Qed.

Lemma findJPEGBoundaries_scannable pre streams post :
  Forall plain pre → Forall scannable streams →
  Forall (Forall octet) streams → Forall plain post →
  findJPEGBoundaries (pre ++ concat streams ++ post)
  = Some (spans (Z.of_nat (length pre)) streams).
Proof.
  intros Hpre Hstreams Hbytes Hpost.
  set (data := pre ++ concat streams ++ post).
  assert (Hrun : fileRuns data 0 [] (spans (Z.of_nat (length pre)) streams)).
  { apply (fileRuns_gap _ _ (Z.of_nat (length pre))); [lia| |].
    - intros i b Hi. unfold data. rewrite get_app_l by lia. intros Hb.
      exact (Forall_get _ _ _ _ Hpre Hb).
    - apply (fileRuns_scannable pre streams post []); done. }
  destruct Hrun as [fuel Hrun].
  apply (findJPEGBoundaries_by_run fuel); [|done].
  apply Forall_app. split.
  { eapply Forall_impl; [exact Hpre|]. apply plain_octet. }
  apply Forall_app. split.
  - by apply Forall_concat.
  - eapply Forall_impl; [exact Hpost|]. apply plain_octet.
Qed.

Lemma length_spans off streams : length (spans off streams) = length streams.
Proof.
  revert off. induction streams as [|stream rest IH]; intros off; [done|].
  simpl. by rewrite IH.
Qed.

Lemma parse_scannable pre streams post :
  Forall plain pre → Forall scannable streams →
  Forall (Forall octet) streams → Forall plain post →
  let buffer := pre ++ concat streams ++ post in
  parse buffer
  = Some (if decide (2 ≤ length streams)%nat
          then take 2 streams else [buffer]).
Proof.
  intros Hpre Hstreams Hbytes Hpost buffer. unfold parse.
  pose proof (findJPEGBoundaries_scannable pre streams post
                Hpre Hstreams Hbytes Hpost) as Hfind.
  change (findJPEGBoundaries buffer
          = Some (spans (Z.of_nat (length pre)) streams)) in Hfind.
  rewrite Hfind. cbn [mbind option_bind]. rewrite length_spans.
  destruct (decide (2 ≤ length streams)%nat) as [Hcount|Hcount].
  - rewrite bool_decide_eq_true_2 by done.
    destruct streams as [|first [|second rest]]; simpl in Hcount; try lia.
    f_equal. cbn [spans take fmap list_fmap start end_].
    f_equal; [|f_equal].
    + replace buffer with (pre ++ first ++ (concat (second :: rest) ++ post))
        by (unfold buffer; by rewrite !concat_cons, <- !app_assoc).
      apply slice_middle.
    + replace buffer
        with ((pre ++ first) ++ second ++ (concat rest ++ post))
        by (unfold buffer; by rewrite !concat_cons, <- !app_assoc).
      rewrite <- Nat2Z.inj_add, <- length_app. apply slice_middle.
  - rewrite bool_decide_eq_false_2 by done.
    by rewrite parseMPFIndex_empty.
Qed.

Lemma segment_octets marker payload :
  octet marker → payloadOK payload → Forall octet (segment marker payload).
Proof.
  intros Hmarker [Hpayload Hlen]. unfold segment, octet in *.
  pose proof (Z.mod_pos_bound (Z.of_nat (length payload) + 2) 256
                ltac:(lia)).
  assert (0 ≤ (Z.of_nat (length payload) + 2) / 256 ≤ 255).
  { split; [apply Z.div_pos; lia|].
    apply Z.lt_succ_r, Z.div_lt_upper_bound; lia. }
  simpl. repeat (constructor; [lia|]). exact Hpayload.
Qed.

Lemma jpeg_octets parts : Forall wellFormed parts → Forall octet (jpeg parts).
Proof.
  intros Hparts. unfold jpeg.
  apply Forall_app. split; [repeat constructor; unfold octet; lia|].
  apply Forall_app. split; [|repeat constructor; unfold octet; lia].
  apply Forall_concat, Forall_fmap.
  eapply Forall_impl; [exact Hparts|].
  intros [m payload|payload units]; cbn [wellFormed partBytes].
  - intros [Hm Hpayload]. apply segment_octets; [|done].
    unfold lengthMarker, octet in *. lia.
  - intros [Hpayload Hunits]. apply Forall_app. split.
    + apply segment_octets; [unfold octet; lia|done].
    + unfold entropyBytes. apply Forall_bind.
      eapply Forall_impl; [exact Hunits|].
      intros [b|]; simpl.
      * intros Hb. constructor; [by apply plain_octet|constructor].
      * intros _. repeat constructor; unfold octet; lia.
Qed.

(** Side conditions on concrete files. *)
Ltac well_formed :=
  repeat first
    [ lia | split | apply Forall_nil_2 | apply Forall_cons_2
    | progress cbn [wellFormed from_option length]
    | progress unfold plain, lengthMarker, payloadOK, octet ].

(** X24: a file of JPEG streams written one after another, each SOI,
    then marker segments with a length field and scans (an SOS segment
    followed by entropy-coded data in which every [0xFF] is stuffed with
    [0x00]), then EOI; bytes other than [0xFF] may come before and after.
    [findJPEGBoundaries] returns exactly these streams.  The payload of a
    segment is never looked at: it may well hold [FF D8] or [FF D9]. *)
Theorem findJPEGBoundaries_jpegs (pre : list Z) (files : list (list part))
    (post : list Z) :
  Forall plain pre → Forall (Forall wellFormed) files → Forall plain post →
  findJPEGBoundaries (pre ++ concat (jpeg <$> files) ++ post)
  = Some (spans (Z.of_nat (length pre)) (jpeg <$> files)).
Proof.
  intros Hpre Hfiles Hpost. apply findJPEGBoundaries_scannable; try done.
  - apply Forall_fmap. eapply Forall_impl; [exact Hfiles|].
    intros parts. apply jpeg_scannable.
  - apply Forall_fmap. eapply Forall_impl; [exact Hfiles|].
    intros parts. apply jpeg_octets.
Qed.

Lemma findJPEGBoundaries_jpegs_witness :
  findJPEGBoundaries
    ([0] ++ concat (jpeg <$> [[Header 224 [255; 217; 1];
                               Scan [3] [Some 5; None; Some 6]];
                              [Header 254 [255; 216]]]) ++ [9])
  = Some [{| start := 1; end_ := 21 |}; {| start := 21; end_ := 31 |}].
Proof.
  apply (findJPEGBoundaries_jpegs [0]
           [[Header 224 [255; 217; 1]; Scan [3] [Some 5; None; Some 6]];
            [Header 254 [255; 216]]] [9]);
    well_formed.
Defined.

(** X25: [parse] on such a file.  With two streams or more it returns the
    first two, byte for byte; with fewer it returns the whole file as one
    image. *)
Theorem parse_jpegs (pre : list Z) (files : list (list part))
    (post : list Z) :
  Forall plain pre → Forall (Forall wellFormed) files → Forall plain post →
  let buffer := pre ++ concat (jpeg <$> files) ++ post in
  parse buffer
  = Some (if decide (2 ≤ length files)%nat
          then jpeg <$> take 2 files else [buffer]).
Proof.
  intros Hpre Hfiles Hpost buffer.
  pose proof (parse_scannable pre (jpeg <$> files) post Hpre) as Hparse.
  rewrite length_fmap, <- fmap_take in Hparse. apply Hparse; [| |done].
  - apply Forall_fmap. eapply Forall_impl; [exact Hfiles|].
    intros parts. apply jpeg_scannable.
  - apply Forall_fmap. eapply Forall_impl; [exact Hfiles|].
    intros parts. apply jpeg_octets.
Qed.

Lemma parse_jpegs_witness :
  parse ([0] ++ concat (jpeg <$> [[Header 224 [255; 217; 1];
                                   Scan [3] [Some 5; None; Some 6]];
                                  [Header 254 [255; 216]];
                                  []]) ++ [9])
  = Some [jpeg [Header 224 [255; 217; 1]; Scan [3] [Some 5; None; Some 6]];
          jpeg [Header 254 [255; 216]]].
Proof.
  apply (parse_jpegs [0]
           [[Header 224 [255; 217; 1]; Scan [3] [Some 5; None; Some 6]];
            [Header 254 [255; 216]]; []] [9]);
    well_formed.
Defined.

(** * Properties of the viewer *)

Section ViewerFacts.
Import WiggleViewer.











(** X27: navigation in a viewer without image sets.  The new index is
    [NaN] (a remainder by 0); [showImageSet] lets it through, stores it
    and raises a [TypeError] on the set that is not there. *)
Theorem navigation_empty_raises (v : Viewer) :
  imageSets v = [] →
  next v = TypeError (setCurrentIndex None v) ∧
  prev v = TypeError (setCurrentIndex None v).
Proof.
  intros Hempty. unfold next, prev. rewrite Hempty.
  destruct (currentIndex v) as [i|]; simpl; done.
Qed.

Lemma navigation_empty_raises_witness :
  let v := mkViewer (3 / 2) (17 / 20) [] (Some 0)
             0 0 0 0 false false 0 0 false false in
  next v = TypeError (setCurrentIndex None v) ∧
  prev v = TypeError (setCurrentIndex None v).
Proof.
  intros v. apply (navigation_empty_raises v). reflexivity.
Defined.










End ViewerFacts.
